(** * res-adapter inference driver: a shallow embedding of [main.py] and
      [resadapter/model_loader.py]

    The driver is glue code around an external diffusion pipeline.  The
    embedding keeps the control flow of the Python source and records every
    call into an external library as an event of a trace.  External calls may
    raise: whether they do is decided by the environment, which sees the
    whole history of the run. *)

From stdpp Require Import base list strings gmap pretty sorting.
From Stdlib Require Import ZArith Lia Ascii.

Local Open Scope Z_scope.

(** ** Python numbers *)

(** A Python [float] is a binary64 number.  Every finite binary64 value is
    [mant * 2 ^ expo] for integers [mant] and [expo]; a YAML integer [n] is
    [mant := n; expo := 0]. *)
Record pyfloat := Float { mant : Z; expo : Z }.

(** The literals of the source: [0.5], [0.6] (the nearest binary64 value),
    [1.0] and [7.5]. *)
Definition float_0_5 : pyfloat := Float 1 (-1).
Definition float_0_6 : pyfloat := Float 5404319552844595 (-53).
Definition float_1_0 : pyfloat := Float 1 0.
Definition float_7_5 : pyfloat := Float 15 (-1).

(** Rounding of the exact value [m * 2 ^ e] to a 53-bit significand, to
    nearest with ties to even, as a binary64 product does (exponent range
    left aside: image sizes are far from it). *)
Definition round53 (m e : Z) : pyfloat :=
  let n := Z.log2 (Z.abs m) + 1 in
  if n <=? 53 then Float m e
  else
    let s := n - 53 in
    let q := Z.abs m / 2 ^ s in
    let r := Z.abs m mod 2 ^ s in
    let half := 2 ^ (s - 1) in
    let q' :=
      if r <? half then q
      else if half <? r then q + 1
      else if Z.even q then q else q + 1 in
    Float (Z.sgn m * q') (e + s).

(** [n * x] for an [int] n and a [float] x. *)
Definition int_mul_float (n : Z) (x : pyfloat) : pyfloat :=
  round53 (n * mant x) (expo x).

(** [int(x)]: truncation toward zero. *)
Definition py_int (x : pyfloat) : Z :=
  if 0 <=? expo x then mant x * 2 ^ expo x
  else Z.quot (mant x) (2 ^ (- expo x)).

(** Truth value of a number: zero is false. *)
Definition float_truthy (x : pyfloat) : bool := negb (mant x =? 0).

(** ** Paths *)

Fixpoint ends_with_slash (s : string) : bool :=
  match s with
  | EmptyString => false
  | String c EmptyString => if decide (c = "/"%char) then true else false
  | String _ s' => ends_with_slash s'
  end.

(** [os.path.join(a, b)] on a POSIX system. *)
Definition os_path_join (a b : string) : string :=
  if String.prefix "/" b then b
  else if decide (a = "") then b
  else if ends_with_slash a then a +:+ b
  else a +:+ "/" +:+ b.

(** [Path(p).stem] for a path that does not end with a slash: the last
    component, without its last suffix. *)
Fixpoint split_last_dot (l : list ascii) : option (list ascii * list ascii) :=
  match l with
  | [] => None
  | c :: l' =>
      match split_last_dot l' with
      | Some (before, after) => Some (c :: before, after)
      | None => if decide (c = "."%char) then Some ([], l') else None
      end
  end.

Definition basename (p : string) : list ascii :=
  foldl (λ name c, if decide (c = "/"%char) then [] else name ++ [c])
    [] (String.list_ascii_of_string p).

Definition posix_stem (p : string) : string :=
  match split_last_dot (basename p) with
  | Some (c :: before, _ :: _) => String.string_of_list_ascii (c :: before)
  | _ => String.string_of_list_ascii (basename p)
  end.

(** A string is the UTF-8 encoding of a Python [str]: a byte [10xxxxxx]
    continues the code point that the last other byte began. *)
Definition continuation_byte (c : ascii) : bool :=
  match c with Ascii _ _ _ _ _ _ b6 b7 => b7 && negb b6 end.

(** [s[:n]]: the first [n] code points, that is the bytes before the one
    that begins code point [n]. *)
Fixpoint take_code_points (n : nat) (s : string) : string :=
  match s with
  | EmptyString => EmptyString
  | String c s' =>
      if continuation_byte c then String c (take_code_points n s')
      else match n with
           | O => EmptyString
           | S n' => String c (take_code_points n' s')
           end
  end.

(** [s[:100]] *)
Definition first_100 (s : string) : string := take_code_points 100 s.

(** ** The configuration

    [OmegaConf.load] yields a dictionary-like object; [main] reads the keys
    below.  A field is [None] when the key is absent from the file. *)
Record Config := {
  cfg_experiment_name : option string;
  cfg_task : option string;
  cfg_sub_task : option string;
  cfg_device : option Z;
  cfg_enable_xformers : option bool;
  cfg_prompts : option (list string);
  cfg_n_prompt : option string;
  cfg_source_images : option (list string);
  cfg_condition_images : option (list string);
  cfg_ip_adapter_images : option (list string);
  cfg_mask_images : option (list string);
  cfg_scale_ratio : option pyfloat;
  cfg_width : option Z;
  cfg_height : option Z;
  cfg_seed : option Z;
  cfg_res_adapter_model : option string;
  cfg_res_adapter_alpha : option pyfloat;
  cfg_lcm_lora_alpha : option pyfloat;
  cfg_enable_compare : option bool;
  cfg_num_inference_steps : option Z;
  cfg_num_images_per_prompt : option Z;
  cfg_guidance_scale : option pyfloat;
  cfg_draw_text : option bool;
  cfg_split_images : option bool;
}.

(** [config.get(key, default)] *)
Definition get {A} (field : option A) (default : A) : A :=
  match field with Some v => v | None => default end.

(** Truth value of [config.get(key, None)] for a flag and for a number. *)
Definition flag_truthy (field : option bool) : bool := get field false.
Definition int_truthy (field : option Z) : bool :=
  match field with Some n => negb (n =? 0) | None => false end.
Definition scale_ratio_truthy (field : option pyfloat) : bool :=
  match field with Some x => float_truthy x | None => false end.

(** ** Images and tensors, as symbolic values *)

Inductive image :=
| Opened (path : string) (size : Z * Z)
| Resized (im : image) (size : Z * Z)
| ConvertedL (im : image)
| CannyRGB (im : image).

Fixpoint image_size (im : image) : Z * Z :=
  match im with
  | Opened _ sz => sz
  | Resized _ sz => sz
  | ConvertedL im' => image_size im'
  | CannyRGB im' => image_size im'
  end.

(** The two inference loops, named by their progress-bar captions. *)
Inductive call_site := Baselines | ResAdapter.

Inductive tensor :=
| Generated (site : call_site) (i j : nat)
| Labelled (t : tensor) (text : string).

(** Values of the [kwargs] dictionary. *)
Inductive kwarg :=
| KImage (im : image)
| KFloat (x : pyfloat).

Record call_args := {
  arg_prompt : string;
  arg_height : Z;
  arg_width : Z;
  arg_negative_prompt : string;
  arg_num_inference_steps : Z;
  arg_num_images_per_prompt : Z;
  arg_generator : option Z;
  arg_output_type : string;
  arg_guidance_scale : pyfloat;
  arg_kwargs : gmap string kwarg;
}.

(** ** Events: the calls into external libraries *)
Inductive event :=
| EvMakedirs (dir : string)
| EvPrint (msg : string)
| EvLoadPipeline (loader : string)
| EvTo (device : string)
| EvEnableXformers
| EvImageOpen (path : string)
| EvResize (im : image) (size : Z * Z)
| EvConvertL (im : image)
| EvCanny (im : image) (lo hi : Z)
| EvImageSave (im : image) (file : string)
| EvManualSeed (seed : Z)
| EvTqdm (site : call_site) (total : nat)
| EvPipeline (site : call_site) (i : nat) (args : call_args)
| EvSafeOpen (file : string)
| EvGetTensor (file key : string)
| EvLoadStateDict (state_dict : gmap string (string * string))
| EvLoadLoraWeights (file adapter_name : string)
| EvSetAdapters (names : list string) (weights : list pyfloat)
| EvStack (rows : list tensor)
| EvDrawText (t : tensor) (text : string)
| EvSaveImage (rows : list tensor) (file : string).

Inductive exn :=
| NotImplementedError
| UnboundLocalError (name : string)
| IndexError
| ConfigAttributeError (key : string)
| TypeError
| ExternalError (ev : event).

Inductive result (A : Type) :=
| Ok (a : A)
| Raise (e : exn).
Arguments Ok {A} a.
Arguments Raise {A} e.

(** ** The environment of a run *)
Record Env := {
  (** does this external call, made after this history, raise? *)
  fails : list event → event → bool;
  (** native size of the image file at a path *)
  native_size : string → Z * Z;
  (** size of the batch a pipeline call returns *)
  batch_len : list event → nat;
  (** tensor names stored in a safetensors file *)
  safetensors_keys : string → list string;
  (** [datetime.datetime.now().strftime(...)] *)
  time_str : string;
  (** [args.config] *)
  config_path : string;
  (** [Path(p).stem] *)
  path_stem : string → string;
  (** attribute access to a missing key raises (OmegaConf 2.1 and later)
      or yields [None] (OmegaConf 2.0) *)
  strict_attr : bool;
}.

(** ** The monad: a trace of events and exceptions *)
Definition M (A : Type) : Type := list event → result A * list event.

Global Instance M_ret : MRet M := λ A a h, (Ok a, h).
Global Instance M_bind : MBind M := λ A B f m h,
  match m h with
  | (Ok a, h') => f a h'
  | (Raise e, h') => (Raise e, h')
  end.

Definition raise {A} (e : exn) : M A := λ h, (Raise e, h).

(** [try: m except: handler] with a bare [except]. *)
Definition try_except {A} (m handler : M A) : M A := λ h,
  match m h with
  | (Ok a, h') => (Ok a, h')
  | (Raise _, h') => handler h'
  end.

(** Reading a local variable. *)
Definition load_local {A} (name : string) (v : option A) : M A :=
  match v with Some a => mret a | None => raise (UnboundLocalError name) end.

(** [l[i]] *)
Definition index {A} (l : list A) (i : nat) : M A :=
  match l !! i with Some a => mret a | None => raise IndexError end.

Fixpoint for_each {A St} (body : A → St → M St) (l : list A) (s : St) : M St :=
  match l with
  | [] => mret s
  | x :: l' => s' ← body x s; for_each body l' s'
  end.

Fixpoint for_enumerate {A St} (body : nat → A → St → M St)
    (i : nat) (l : list A) (s : St) : M St :=
  match l with
  | [] => mret s
  | x :: l' => s' ← body i x s; for_enumerate body (S i) l' s'
  end.

(** [range(n)] *)
Definition range (n : Z) : list nat := seq 0 (Z.to_nat n).

(** ** The program *)
Section Program.
Context (E : Env).

(** A call into an external library: recorded, and raising when the
    environment says so. *)
Definition call (ev : event) : M () := λ h,
  (if fails E h ev then Raise (ExternalError ev) else Ok (), h ++ [ev]).

(** Output that cannot raise: [print] and the progress bar. *)
Definition emit (ev : event) : M () := λ h, (Ok (), h ++ [ev]).

(** [config.key] *)
Definition getattr {A} (key : string) (field : option A) : M (option A) :=
  match field with
  | Some v => mret (Some v)
  | None =>
      if strict_attr E then raise (ConfigAttributeError key) else mret None
  end.

(** A value used where a string is required. *)
Definition as_str (v : option string) : M string :=
  match v with Some s => mret s | None => raise TypeError end.

(** [str(v)] inside an f-string. *)
Definition py_str (v : option string) : string := get v "None".

(** [v == lit] for a configuration value and a string literal. *)
Definition eq_str (v : option string) (lit : string) : bool :=
  bool_decide (v = Some lit).

(** *** model_loader.py *)

Definition NORM_WEIGHTS_NAME : string := "diffusion_pytorch_model.safetensors".
Definition LORA_WEIGHTS_NAME : string := "pytorch_lora_weights.safetensors".

(** Lines 29-30: the tensors of the opened file, by name. *)
Definition read_state_dict (file : string)
    : M (gmap string (string * string)) :=
  for_each (λ key (norm_state_dict : gmap string (string * string)),
              call (EvGetTensor file key);;
              mret (<[key := (file, key)]> norm_state_dict))
           (safetensors_keys E file) ∅.

Definition load_resadapter (config : Config) : M () :=
  try_except
    (model ← getattr "res_adapter_model" (cfg_res_adapter_model config);
     dir ← as_str model;
     let file := os_path_join dir NORM_WEIGHTS_NAME in
     call (EvSafeOpen file);;
     norm_state_dict ← read_state_dict file;
     call (EvLoadStateDict norm_state_dict);;
     emit (EvPrint ("Load normalization safetensors from " +:+ file +:+ ".")))
    (emit (EvPrint "There is no normalization safetensors, we can only load lora safetensors for resolution interpolation."));;
  model ← getattr "res_adapter_model" (cfg_res_adapter_model config);
  dir ← as_str model;
  call (EvLoadLoraWeights (os_path_join dir LORA_WEIGHTS_NAME) "res_adapter").

(** *** main.py: target geometry (lines 86-89, and the same text at
    104-107, 118-121, 132-135 and 151-154) *)
Definition geometry (config : Config) (size : Z * Z) : Z * Z :=
  match cfg_scale_ratio config with
  | Some scale_ratio =>
      if float_truthy scale_ratio
      then (py_int (int_mul_float size.1 scale_ratio),
            py_int (int_mul_float size.2 scale_ratio))
      else (get (cfg_width config) 512, get (cfg_height config) 512)
  | None => (get (cfg_width config) 512, get (cfg_height config) 512)
  end.

(** [Image.open(path)] *)
Definition image_open (path : string) : M image :=
  call (EvImageOpen path);; mret (Opened path (native_size E path)).

(** [im.resize((width, height))] *)
Definition resize (im : image) (size : Z * Z) : M image :=
  call (EvResize im size);; mret (Resized im size).

(** *** The local variables of [main] that are bound on some paths only *)
Record Locals := {
  sub_task : option (option string);
  condition_images : option (list image);
  source_images : option (list image);
  mask_images : option (list image);
  ip_adapter_images : option (list image);
  kwargs : option (gmap string kwarg);
}.

Definition no_locals : Locals :=
  {| sub_task := None; condition_images := None; source_images := None;
     mask_images := None; ip_adapter_images := None; kwargs := None |}.

Definition set_sub_task (v : option string) (s : Locals) : Locals :=
  {| sub_task := Some v; condition_images := condition_images s;
     source_images := source_images s; mask_images := mask_images s;
     ip_adapter_images := ip_adapter_images s; kwargs := kwargs s |}.
Definition set_condition_images (v : list image) (s : Locals) : Locals :=
  {| sub_task := sub_task s; condition_images := Some v;
     source_images := source_images s; mask_images := mask_images s;
     ip_adapter_images := ip_adapter_images s; kwargs := kwargs s |}.
Definition set_source_images (v : list image) (s : Locals) : Locals :=
  {| sub_task := sub_task s; condition_images := condition_images s;
     source_images := Some v; mask_images := mask_images s;
     ip_adapter_images := ip_adapter_images s; kwargs := kwargs s |}.
Definition set_mask_images (v : list image) (s : Locals) : Locals :=
  {| sub_task := sub_task s; condition_images := condition_images s;
     source_images := source_images s; mask_images := Some v;
     ip_adapter_images := ip_adapter_images s; kwargs := kwargs s |}.
Definition set_ip_adapter_images (v : list image) (s : Locals) : Locals :=
  {| sub_task := sub_task s; condition_images := condition_images s;
     source_images := source_images s; mask_images := mask_images s;
     ip_adapter_images := Some v; kwargs := kwargs s |}.
Definition set_kwargs (v : gmap string kwarg) (s : Locals) : Locals :=
  {| sub_task := sub_task s; condition_images := condition_images s;
     source_images := source_images s; mask_images := mask_images s;
     ip_adapter_images := ip_adapter_images s; kwargs := Some v |}.

(** *** main.py, step 3: conditions *)

(** Lines 81-98.  The state of the loop is
    [(condition_images, source_images)]. *)
Definition prepare_controlnet (config : Config) (output_dir : string)
    (s : Locals) : M Locals :=
  '(condition_images, source_images) ←
    for_each (λ image_path '(condition_images, source_images),
      source_image ← image_open image_path;
      let '(width, height) := geometry config (image_size source_image) in
      source_image ← resize source_image (width, height);
      let source_images := source_images ++ [source_image] in
      call (EvCanny source_image 100 200);;
      let condition_image := CannyRGB source_image in
      call (EvImageSave condition_image
              (os_path_join output_dir
                 ("condition_" +:+ path_stem E image_path +:+ ".jpg")));;
      mret (condition_images ++ [condition_image], source_images))
    (get (cfg_source_images config) []) ([], []);
  mret (set_source_images source_images
          (set_condition_images condition_images s)).

(** Lines 100-109. *)
Definition prepare_t2i_adapter (config : Config) (s : Locals) : M Locals :=
  condition_images ←
    for_each (λ condition_path condition_images,
      condition_image ← image_open condition_path;
      let '(width, height) := geometry config (image_size condition_image) in
      condition_image ← resize condition_image (width, height);
      call (EvConvertL condition_image);;
      mret (condition_images ++ [ConvertedL condition_image]))
    (get (cfg_condition_images config) []) [];
  mret (set_condition_images condition_images s).

(** Lines 114-124. *)
Definition prepare_image_variation (config : Config) (s : Locals) : M Locals :=
  ip_adapter_images ←
    for_each (λ ip_image_path ip_adapter_images,
      ip_adpater_image ← image_open ip_image_path;
      let '(width, height) := geometry config (image_size ip_adpater_image) in
      ip_adpater_image ← resize ip_adpater_image (width, height);
      mret (ip_adapter_images ++ [ip_adpater_image]))
    (get (cfg_ip_adapter_images config) []) [];
  mret (set_ip_adapter_images ip_adapter_images s).

(** Lines 131-141: the body of the image_to_image loop, on the state
    [(ip_adapter_images, source_images)]. *)
Definition image_to_image_body (config : Config)
    (entry : string * string) (state : list image * list image)
    : M (list image * list image) :=
  let '(ip_image_path, image_path) := entry in
  let '(ip_adapter_images, source_images) := state in
  source_image ← image_open image_path;
  let '(width, height) := geometry config (image_size source_image) in
  source_image ← resize source_image (width, height);
  let source_images := source_images ++ [source_image] in
  ip_adapter_image ← image_open ip_image_path;
  ip_adapter_image ← resize ip_adapter_image (width, height);
  mret (ip_adapter_images ++ [ip_adapter_image], source_images).

(** Lines 127-141.  [zip] of two lists is [zip] of stdpp. *)
Definition prepare_image_to_image (config : Config) (s : Locals) : M Locals :=
  '(ip_adapter_images, source_images) ←
    for_each (image_to_image_body config)
      (zip (get (cfg_ip_adapter_images config) [])
           (get (cfg_source_images config) []))
      ([], []);
  mret (set_source_images source_images
          (set_ip_adapter_images ip_adapter_images s)).

(** [zip(a, b, c)] *)
Definition zip3 {A B C} (a : list A) (b : list B) (c : list C)
    : list (A * B * C) := zip (zip a b) c.

(** Lines 150-164: the body of the inpaint loop, on the state
    [(source_images, mask_images, ip_adapter_images)]. *)
Definition inpaint_body (config : Config)
    (entry : string * string * string)
    (state : list image * list image * list image)
    : M (list image * list image * list image) :=
  let '(ip_image_path, image_path, mask_path) := entry in
  let '(source_images, mask_images, ip_adapter_images) := state in
  source_image ← image_open image_path;
  let '(width, height) := geometry config (image_size source_image) in
  source_image ← resize source_image (width, height);
  let source_images := source_images ++ [source_image] in
  mask_image ← image_open mask_path;
  mask_image ← resize mask_image (width, height);
  let mask_images := mask_images ++ [mask_image] in
  ip_adapter_image ← image_open ip_image_path;
  ip_adapter_image ← resize ip_adapter_image (width, height);
  mret (source_images, mask_images, ip_adapter_images ++ [ip_adapter_image]).

(** Lines 144-164. *)
Definition prepare_inpaint (config : Config) (s : Locals) : M Locals :=
  '(source_images, mask_images, ip_adapter_images) ←
    for_each (inpaint_body config)
      (zip3 (get (cfg_ip_adapter_images config) [])
            (get (cfg_source_images config) [])
            (get (cfg_mask_images config) []))
      ([], [], []);
  mret (set_ip_adapter_images ip_adapter_images
          (set_mask_images mask_images
             (set_source_images source_images s))).

(** Lines 111-167. *)
Definition prepare_ip_adapter (config : Config) (s : Locals) : M Locals :=
  let st := cfg_sub_task config in
  let s := set_sub_task st s in
  if eq_str st "image_variation" then prepare_image_variation config s
  else if eq_str st "image_to_image" then prepare_image_to_image config s
  else if eq_str st "inpaint" then prepare_inpaint config s
  else raise NotImplementedError.

(** Lines 81-167: the three [if task == ...] statements in sequence. *)
Definition prepare (config : Config) (output_dir : string) : M Locals :=
  let task := cfg_task config in
  s ← (if eq_str task "controlnet"
       then prepare_controlnet config output_dir no_locals
       else mret no_locals);
  s ← (if eq_str task "t2i_adapter"
       then prepare_t2i_adapter config s
       else mret s);
  if eq_str task "ip_adapter" then prepare_ip_adapter config s else mret s.

(** *** main.py, step 4: inference *)

(** Lines 185-200: the keyword arguments of the baseline call. *)
Definition assemble_kwargs_baseline (task : option string) (i : nat)
    (s : Locals) : M Locals :=
  s ← (if eq_str task "t2i" || eq_str task "t2i_accelerate"
       then mret (set_kwargs ∅ s) else mret s);
  s ← (if eq_str task "controlnet" then
         st ← load_local "sub_task" (sub_task s);
         s ← (if eq_str st "text_to_image" then
                cs ← load_local "condition_images" (condition_images s);
                c ← index cs i;
                mret (set_kwargs {[ "image" := KImage c ]} s)
              else mret s);
         st ← load_local "sub_task" (sub_task s);
         if eq_str st "image_to_image" then
           cs ← load_local "condition_images" (condition_images s);
           c ← index cs i;
           ss ← load_local "source_images" (source_images s);
           x ← index ss i;
           mret (set_kwargs (<[ "image" := KImage x ]>
                               {[ "control_image" := KImage c ]}) s)
         else mret s
       else mret s);
  s ← (if eq_str task "t2i_adapter" then
         cs ← load_local "condition_images" (condition_images s);
         c ← index cs i;
         mret (set_kwargs {[ "image" := KImage c ]} s)
       else mret s);
  if eq_str task "ip_adapter" then
    st ← load_local "sub_task" (sub_task s);
    s ← (if eq_str st "image_variation" then
           ips ← load_local "ip_adapter_images" (ip_adapter_images s);
           r ← index ips i;
           mret (set_kwargs {[ "ip_adapter_image" := KImage r ]} s)
         else mret s);
    st ← load_local "sub_task" (sub_task s);
    s ← (if eq_str st "image_to_image" then
           ss ← load_local "source_images" (source_images s);
           x ← index ss i;
           ips ← load_local "ip_adapter_images" (ip_adapter_images s);
           r ← index ips i;
           mret (set_kwargs (<[ "strength" := KFloat float_0_6 ]>
                            (<[ "ip_adapter_image" := KImage r ]>
                               {[ "image" := KImage x ]})) s)
         else mret s);
    st ← load_local "sub_task" (sub_task s);
    if eq_str st "inpaint" then
      ss ← load_local "source_images" (source_images s);
      x ← index ss i;
      ms ← load_local "mask_images" (mask_images s);
      m ← index ms i;
      ips ← load_local "ip_adapter_images" (ip_adapter_images s);
      r ← index ips i;
      mret (set_kwargs (<[ "strength" := KFloat float_0_5 ]>
                       (<[ "ip_adapter_image" := KImage r ]>
                       (<[ "mask_image" := KImage m ]>
                          {[ "image" := KImage x ]}))) s)
    else mret s
  else mret s.

(** Lines 228-243: the keyword arguments of the call with the adapter. *)
Definition assemble_kwargs_resadapter (task : option string) (i : nat)
    (s : Locals) : M Locals :=
  s ← (if eq_str task "t2i" || eq_str task "t2i_accelerate"
       then mret (set_kwargs ∅ s) else mret s);
  s ← (if eq_str task "controlnet" then
         st ← load_local "sub_task" (sub_task s);
         s ← (if eq_str st "text_to_image" then
                cs ← load_local "condition_images" (condition_images s);
                c ← index cs i;
                mret (set_kwargs {[ "image" := KImage c ]} s)
              else mret s);
         st ← load_local "sub_task" (sub_task s);
         if eq_str st "image_to_image" then
           cs ← load_local "condition_images" (condition_images s);
           c ← index cs i;
           ss ← load_local "source_images" (source_images s);
           x ← index ss i;
           mret (set_kwargs (<[ "image" := KImage x ]>
                               {[ "control_image" := KImage c ]}) s)
         else mret s
       else mret s);
  s ← (if eq_str task "t2i_adapter" then
         cs ← load_local "condition_images" (condition_images s);
         c ← index cs i;
         mret (set_kwargs {[ "image" := KImage c ]} s)
       else mret s);
  if eq_str task "ip_adapter" then
    st ← load_local "sub_task" (sub_task s);
    s ← (if eq_str st "image_variation" then
           ips ← load_local "ip_adapter_images" (ip_adapter_images s);
           r ← index ips i;
           mret (set_kwargs {[ "ip_adapter_image" := KImage r ]} s)
         else mret s);
    st ← load_local "sub_task" (sub_task s);
    s ← (if eq_str st "image_to_image" then
           ss ← load_local "source_images" (source_images s);
           x ← index ss i;
           ips ← load_local "ip_adapter_images" (ip_adapter_images s);
           r ← index ips i;
           mret (set_kwargs (<[ "strength" := KFloat float_0_6 ]>
                            (<[ "ip_adapter_image" := KImage r ]>
                               {[ "image" := KImage x ]})) s)
         else mret s);
    st ← load_local "sub_task" (sub_task s);
    if eq_str st "inpaint" then
      ss ← load_local "source_images" (source_images s);
      x ← index ss i;
      ms ← load_local "mask_images" (mask_images s);
      m ← index ms i;
      ips ← load_local "ip_adapter_images" (ip_adapter_images s);
      r ← index ips i;
      mret (set_kwargs (<[ "strength" := KFloat float_0_5 ]>
                       (<[ "ip_adapter_image" := KImage r ]>
                       (<[ "mask_image" := KImage m ]>
                          {[ "image" := KImage x ]}))) s)
    else mret s
  else mret s.

(** [pipeline(...).images]: the call is recorded with the loop and the
    iteration that makes it; the batch it returns is named after them. *)
Definition pipeline (site : call_site) (i : nat) (args : call_args)
    : M (list tensor) := λ h,
  let ev := EvPipeline site i args in
  let h' := h ++ [ev] in
  if fails E h ev then (Raise (ExternalError ev), h')
  else (Ok (Generated site i <$> seq 0 (batch_len E h')), h').

(** Lines 184-214.  The state of the loop is [(locals, original_images)]. *)
Definition baseline_loop (config : Config) (n_prompt : string)
    (generator : option Z) (s : Locals)
    : M (Locals * list (list tensor)) :=
  let task := cfg_task config in
  let p_prompts := get (cfg_prompts config) [] in
  emit (EvTqdm Baselines (length p_prompts));;
  for_enumerate (λ i prompt '(s, original_images),
    s ← assemble_kwargs_baseline task i s;
    kw ← load_local "kwargs" (kwargs s);
    images ← pipeline Baselines i
      {| arg_prompt := prompt;
         arg_height := get (cfg_height config) 512;
         arg_width := get (cfg_width config) 512;
         arg_negative_prompt := n_prompt;
         arg_num_inference_steps := get (cfg_num_inference_steps config) 25;
         arg_num_images_per_prompt := get (cfg_num_images_per_prompt config) 2;
         arg_generator := generator;
         arg_output_type := "pt";
         arg_guidance_scale := get (cfg_guidance_scale config) float_7_5;
         arg_kwargs := kw |};
    mret (s, original_images ++ [images]))
  0%nat p_prompts (s, []).

Definition texts : list string := ["ResAdapter"; "Baseline"].

(** Lines 260-283. *)
Definition save_images (config : Config) (output_dir : string)
    (enable_compare : bool) (original_images : option (list (list tensor)))
    (resadapter_images : list (list tensor)) (i : nat) (prompt : string)
    : M () :=
  (if enable_compare then
     for_each (λ j (_ : ()),
       ri ← index resadapter_images i;
       a ← index ri j;
       oi ← load_local "original_images" original_images;
       oi ← index oi i;
       b ← index oi j;
       call (EvStack [a; b]);;
       let compare_image := [a; b] in
       compare_image ←
         (if flag_truthy (cfg_draw_text config) then
            for_each (λ k (compare_image : list tensor),
              row ← index compare_image k;
              text ← index texts k;
              call (EvDrawText row text);;
              mret (<[k := Labelled row text]> compare_image))
            (seq 0 (length texts)) compare_image
          else mret compare_image);
       if flag_truthy (cfg_split_images config) then
         for_each (λ q (_ : ()),
           row ← index compare_image q;
           text ← index texts q;
           call (EvSaveImage [row]
                   (os_path_join output_dir
                      (first_100 prompt +:+ "_" +:+ pretty j +:+ "_"
                         +:+ text +:+ ".jpg"))))
         (seq 0 (length texts)) ()
       else
         call (EvSaveImage compare_image
                 (os_path_join output_dir
                    (first_100 prompt +:+ "_" +:+ pretty j +:+ ".jpg"))))
     (range (get (cfg_num_images_per_prompt config) 2)) ()
   else
     compare_image ← index resadapter_images i;
     for_each (λ m (_ : ()),
       t ← index compare_image m;
       call (EvSaveImage [t]
               (os_path_join output_dir
                  (first_100 prompt +:+ "_" +:+ pretty m +:+ ".jpg"))))
     (range (get (cfg_num_images_per_prompt config) 2)) ());;
  emit (EvPrint ("Saving image to "
                   +:+ os_path_join output_dir (first_100 prompt +:+ ".jpg"))).

(** Lines 226-283.  The state of the loop is [(locals, resadapter_images)]. *)
Definition resadapter_loop (config : Config) (output_dir n_prompt : string)
    (generator : option Z) (enable_compare : bool)
    (original_images : option (list (list tensor))) (s : Locals)
    : M (Locals * list (list tensor)) :=
  let task := cfg_task config in
  let p_prompts := get (cfg_prompts config) [] in
  emit (EvTqdm ResAdapter (length p_prompts));;
  for_enumerate (λ i prompt '(s, resadapter_images),
    s ← assemble_kwargs_resadapter task i s;
    kw ← load_local "kwargs" (kwargs s);
    images ← pipeline ResAdapter i
      {| arg_prompt := prompt;
         arg_height := get (cfg_height config) 512;
         arg_width := get (cfg_width config) 512;
         arg_negative_prompt := n_prompt;
         arg_num_inference_steps := get (cfg_num_inference_steps config) 25;
         arg_num_images_per_prompt := get (cfg_num_images_per_prompt config) 2;
         arg_generator := generator;
         arg_output_type := "pt";
         arg_guidance_scale := get (cfg_guidance_scale config) float_7_5;
         arg_kwargs := kw |};
    let resadapter_images := resadapter_images ++ [images] in
    save_images config output_dir enable_compare original_images
      resadapter_images i prompt;;
    mret (s, resadapter_images))
  0%nat p_prompts (s, []).

(** Lines 176-179. *)
Definition enable_compare (config : Config) : M bool :=
  if bool_decide (get (cfg_res_adapter_model config) "" = "") then mret false
  else flag ← getattr "enable_compare" (cfg_enable_compare config);
       mret (flag_truthy flag).

(** Lines 46-55. *)
Definition get_config (config : Config) : M string :=
  experiment_name ← getattr "experiment_name" (cfg_experiment_name config);
  let output_dir :=
    if bool_decide (experiment_name ≠ Some "")
    then "samples/" +:+ py_str experiment_name +:+ "-" +:+ time_str E
    else "samples/" +:+ path_stem E (config_path E) +:+ "-" +:+ time_str E in
  call (EvMakedirs output_dir);;
  emit (EvPrint ("Create " +:+ output_dir));;
  mret output_dir.

(** Lines 58-75. *)
Definition load_pipeline (config : Config) : M () :=
  let task := cfg_task config in
  (if eq_str task "t2i" then
     call (EvLoadPipeline "load_text2image_pipeline")
   else if eq_str task "t2i_accelerate" then
     call (EvLoadPipeline "load_text2image_lcm_lora_pipeline")
   else if eq_str task "controlnet" then
     call (EvLoadPipeline "load_controlnet_pipeline")
   else if eq_str task "ip_adapter" then
     call (EvLoadPipeline "load_ip_adapter_pipeline")
   else raise NotImplementedError);;
  call (EvTo ("cuda:" +:+ pretty (get (cfg_device config) 0)));;
  if flag_truthy (cfg_enable_xformers config) then
    emit (EvPrint "Enable xformers successfully.");;
    call EvEnableXformers
  else mret ().

(** Lines 181-283: the two loops and what lies between them, given the
    locals [n_prompt], [generator] and [enable_compare]. *)
Definition inference_from (config : Config) (output_dir n_prompt : string)
    (generator : option Z) (enable_compare : bool) (s : Locals) : M () :=
  '(s, original_images) ←
    (if enable_compare then
       '(s, original_images) ← baseline_loop config n_prompt generator s;
       mret (s, Some original_images)
     else mret (s, None));
  (if bool_decide (get (cfg_res_adapter_model config) "" ≠ "") then
     load_resadapter config;;
     model ← getattr "res_adapter_model" (cfg_res_adapter_model config);
     emit (EvPrint ("Load res-adapter from " +:+ py_str model));;
     call (EvSetAdapters ["res_adapter"]
             [get (cfg_res_adapter_alpha config) float_1_0])
   else mret ());;
  task ← getattr "task" (cfg_task config);
  (if eq_str task "t2i_accelerate" then
     call (EvSetAdapters ["res_adapter"; "lcm_lora"]
             [get (cfg_res_adapter_alpha config) float_1_0;
              get (cfg_lcm_lora_alpha config) float_1_0])
   else mret ());;
  resadapter_loop config output_dir n_prompt generator enable_compare
    original_images s;;
  mret ().

(** Lines 169-283. *)
Definition inference (config : Config) (output_dir : string) (s : Locals)
    : M () :=
  let n_prompt := get (cfg_n_prompt config) "" in
  generator ←
    (if int_truthy (cfg_seed config) then
       seed ← getattr "seed" (cfg_seed config);
       call (EvManualSeed (get seed 0));;
       mret seed
     else mret None);
  enable_compare ← enable_compare config;
  inference_from config output_dir n_prompt generator enable_compare s.

Definition main (config : Config) : M () :=
  output_dir ← get_config config;
  load_pipeline config;;
  s ← prepare config output_dir;
  inference config output_dir s.

(** A run starts from the empty history. *)
Definition run (config : Config) : result () * list event := main config [].

End Program.

(** ** Example environment and configurations *)

(** No key is set. *)
Definition empty_config : Config :=
  {| cfg_experiment_name := None; cfg_task := None; cfg_sub_task := None;
     cfg_device := None; cfg_enable_xformers := None; cfg_prompts := None;
     cfg_n_prompt := None; cfg_source_images := None;
     cfg_condition_images := None; cfg_ip_adapter_images := None;
     cfg_mask_images := None; cfg_scale_ratio := None; cfg_width := None;
     cfg_height := None; cfg_seed := None; cfg_res_adapter_model := None;
     cfg_res_adapter_alpha := None; cfg_lcm_lora_alpha := None;
     cfg_enable_compare := None; cfg_num_inference_steps := None;
     cfg_num_images_per_prompt := None; cfg_guidance_scale := None;
     cfg_draw_text := None; cfg_split_images := None |}.

(** Only [scale_ratio] is set. *)
Definition scaled_config (ratio : pyfloat) : Config :=
  {| cfg_experiment_name := None; cfg_task := None; cfg_sub_task := None;
     cfg_device := None; cfg_enable_xformers := None; cfg_prompts := None;
     cfg_n_prompt := None; cfg_source_images := None;
     cfg_condition_images := None; cfg_ip_adapter_images := None;
     cfg_mask_images := None; cfg_scale_ratio := Some ratio; cfg_width := None;
     cfg_height := None; cfg_seed := None; cfg_res_adapter_model := None;
     cfg_res_adapter_alpha := None; cfg_lcm_lora_alpha := None;
     cfg_enable_compare := None; cfg_num_inference_steps := None;
     cfg_num_images_per_prompt := None; cfg_guidance_scale := None;
     cfg_draw_text := None; cfg_split_images := None |}.

(** A run of one task on the given prompts and image paths, with an
    experiment name, one image per prompt, and the adapter at [model]. *)
Definition task_config (task sub_task : option string) (prompts : list string)
    (sources masks references : list string) (model : option string)
    (compare : option bool) : Config :=
  {| cfg_experiment_name := Some "demo"; cfg_task := task;
     cfg_sub_task := sub_task; cfg_device := None;
     cfg_enable_xformers := None; cfg_prompts := Some prompts;
     cfg_n_prompt := None; cfg_source_images := Some sources;
     cfg_condition_images := None; cfg_ip_adapter_images := Some references;
     cfg_mask_images := Some masks; cfg_scale_ratio := None;
     cfg_width := None; cfg_height := None; cfg_seed := None;
     cfg_res_adapter_model := model; cfg_res_adapter_alpha := None;
     cfg_lcm_lora_alpha := None; cfg_enable_compare := compare;
     cfg_num_inference_steps := None; cfg_num_images_per_prompt := Some 1;
     cfg_guidance_scale := None; cfg_draw_text := None;
     cfg_split_images := None |}.

(** An environment in which no external call raises, every image file is
    801x601, and a pipeline call returns one image. *)
Definition calm_env : Env :=
  {| fails := λ _ _, false; native_size := λ _, (801, 601);
     batch_len := λ _, 1%nat; safetensors_keys := λ _, ["conv_norm"];
     time_str := "2024-01-01T00-00-00"; config_path := "configs/demo.yaml";
     path_stem := posix_stem; strict_attr := true |}.

(** ** Specification vocabulary *)

(** [spec P X R m]: whatever the history, [m] only appends events, each
    satisfying [P]; an exception it raises satisfies [X], a value it returns
    satisfies [R]. *)
Definition spec {A} (P : event → Prop) (X : exn → Prop) (R : A → Prop)
    (m : M A) : Prop :=
  ∀ h, ∃ t, (m h).2 = h ++ t ∧ Forall P t ∧
    match (m h).1 with Ok a => R a | Raise e => X e end.

Definition any {A} : A → Prop := λ _, True.

(** No external call raises. *)
Definition quiet (E : Env) : Prop := ∀ h ev, fails E h ev = false.

(** Modelled from the spec's words: "round(native_size * ratio)", the
    nearest integer to the exact product, ties to even. *)
Definition spec_round (n : Z) (x : pyfloat) : Z :=
  if 0 <=? expo x then n * mant x * 2 ^ expo x
  else
    let d := 2 ^ (- expo x) in
    let q := (n * mant x) / d in
    let r := (n * mant x) mod d in
    if 2 * r <? d then q
    else if d <? 2 * r then q + 1
    else if Z.even q then q else q + 1.

(** Modelled from the spec's words: the geometry of the claim. *)
Definition spec_geometry (config : Config) (size : Z * Z) : Z * Z :=
  match cfg_scale_ratio config with
  | Some ratio => (spec_round size.1 ratio, spec_round size.2 ratio)
  | None => (get (cfg_width config) 512, get (cfg_height config) 512)
  end.

(** Every pipeline call gets the configured height and width. *)
Definition fixed_geometry (config : Config) (ev : event) : Prop :=
  ∀ site i args, ev = EvPipeline site i args →
    arg_height args = get (cfg_height config) 512 ∧
    arg_width args = get (cfg_width config) 512.

(** The events of lines 46-55, before the task is dispatched. *)
Definition pre_dispatch_event (ev : event) : Prop :=
  match ev with EvMakedirs _ | EvPrint _ => True | _ => False end.

(** The task values that the dispatch of lines 58-68 accepts. *)
Definition recognized_tasks : list (option string) :=
  [Some "t2i"; Some "t2i_accelerate"; Some "controlnet"; Some "ip_adapter"].

(** The ways a run can end before the task is dispatched. *)
Definition fails_before_dispatch (E : Env) (config : Config) (e : exn) : Prop :=
  (∃ dir h, fails E h (EvMakedirs dir) = true
            ∧ e = ExternalError (EvMakedirs dir)) ∨
  (strict_attr E = true ∧ cfg_experiment_name config = None
   ∧ e = ConfigAttributeError "experiment_name").

(** [config.experiment_name] can be read. *)
Definition has_experiment_name (E : Env) (config : Config) : Prop :=
  strict_attr E = false ∨ cfg_experiment_name config ≠ None.

(** The events of the normalization part of [load_resadapter]. *)
Definition norm_event (ev : event) : Prop :=
  match ev with
  | EvSafeOpen _ | EvGetTensor _ _ | EvLoadStateDict _ | EvPrint _ => True
  | _ => False
  end.

(** An event that is not a pipeline call. *)
Definition no_pipeline_call (ev : event) : Prop :=
  ∀ site i args, ev ≠ EvPipeline site i args.

(** The ways a run can end before the first iteration of an inference
    loop: an external call raises, or a key read as an attribute is
    missing. *)
Definition fails_before_loops (E : Env) (config : Config) (e : exn) : Prop :=
  (∃ ev h, fails E h ev = true ∧ e = ExternalError ev) ∨
  (strict_attr E = true ∧
   ((cfg_experiment_name config = None
     ∧ e = ConfigAttributeError "experiment_name") ∨
    (cfg_enable_compare config = None
     ∧ e = ConfigAttributeError "enable_compare"))).

(** [config.experiment_name] and [config.enable_compare] can be read. *)
Definition has_attributes (E : Env) (config : Config) : Prop :=
  strict_attr E = false ∨
  (cfg_experiment_name config ≠ None ∧ cfg_enable_compare config ≠ None).

(** The events of the comparison with the baseline: its progress bar, its
    pipeline calls, and the stacking and labelling of the two outputs. *)
Definition compare_event (ev : event) : Prop :=
  match ev with
  | EvTqdm Baselines _ | EvPipeline Baselines _ _ | EvStack _
  | EvDrawText _ _ => True
  | _ => False
  end.

(** The comparison is enabled: an adapter path is set, not empty, and the
    compare flag is true. *)
Definition compare_enabled (config : Config) : Prop :=
  get (cfg_res_adapter_model config) "" ≠ ""
  ∧ cfg_enable_compare config = Some true.

(** The configuration with the compare flag replaced. *)
Definition with_enable_compare (flag : option bool) (c : Config) : Config :=
  {| cfg_experiment_name := cfg_experiment_name c; cfg_task := cfg_task c;
     cfg_sub_task := cfg_sub_task c; cfg_device := cfg_device c;
     cfg_enable_xformers := cfg_enable_xformers c;
     cfg_prompts := cfg_prompts c; cfg_n_prompt := cfg_n_prompt c;
     cfg_source_images := cfg_source_images c;
     cfg_condition_images := cfg_condition_images c;
     cfg_ip_adapter_images := cfg_ip_adapter_images c;
     cfg_mask_images := cfg_mask_images c;
     cfg_scale_ratio := cfg_scale_ratio c; cfg_width := cfg_width c;
     cfg_height := cfg_height c; cfg_seed := cfg_seed c;
     cfg_res_adapter_model := cfg_res_adapter_model c;
     cfg_res_adapter_alpha := cfg_res_adapter_alpha c;
     cfg_lcm_lora_alpha := cfg_lcm_lora_alpha c;
     cfg_enable_compare := flag;
     cfg_num_inference_steps := cfg_num_inference_steps c;
     cfg_num_images_per_prompt := cfg_num_images_per_prompt c;
     cfg_guidance_scale := cfg_guidance_scale c;
     cfg_draw_text := cfg_draw_text c;
     cfg_split_images := cfg_split_images c |}.

(** The task, and for the ip_adapter task the sub-task, is one that steps 2
    and 3 of [main] accept. *)
Definition accepted (config : Config) : Prop :=
  cfg_task config ∈ recognized_tasks ∧
  (cfg_task config = Some "ip_adapter" →
   cfg_sub_task config
   ∈ [Some "image_variation"; Some "image_to_image"; Some "inpaint"]).

(** [m] always appends [ev] first. *)
Definition starts_with {A} (ev : event) (m : M A) : Prop :=
  ∀ h, ∃ t, (m h).2 = h ++ ev :: t.

(** The image at [path], opened and resized to the target geometry of the
    image at [like]. *)
Definition resized_to (E : Env) (config : Config) (path like : string)
    : image :=
  Resized (Opened path (native_size E path))
    (geometry config (native_size E like)).

(** The two external calls that produce it. *)
Definition open_resize (E : Env) (config : Config) (path like : string)
    : list event :=
  [EvImageOpen path;
   EvResize (Opened path (native_size E path))
     (geometry config (native_size E like))].

(** The events of one iteration of the image_to_image preparation, and of
    the inpaint preparation. *)
Definition pair_events (E : Env) (config : Config)
    (entry : string * string) : list event :=
  let '(ip_image_path, image_path) := entry in
  open_resize E config image_path image_path
  ++ open_resize E config ip_image_path image_path.

Definition triple_events (E : Env) (config : Config)
    (entry : string * string * string) : list event :=
  let '(ip_image_path, image_path, mask_path) := entry in
  open_resize E config image_path image_path
  ++ open_resize E config mask_path image_path
  ++ open_resize E config ip_image_path image_path.

(** The prompt index a tensor comes from. *)
Fixpoint tensor_index (t : tensor) : nat :=
  match t with
  | Generated _ i _ => i
  | Labelled t' _ => tensor_index t'
  end.

(** The prompt index an event works on: that of a pipeline call, and that
    of the tensors stacked, labelled or saved. *)
Definition prompt_index (ev : event) : option nat :=
  match ev with
  | EvPipeline _ i _ => Some i
  | EvStack (t :: _) | EvDrawText t _ | EvSaveImage (t :: _) _ =>
      Some (tensor_index t)
  | _ => None
  end.

(** Modelled from the spec's words: "one prompt is fully processed (both
    pipeline calls, all image saves) before the next begins".  Along the
    trace the prompt index never goes back. *)
Definition one_prompt_at_a_time (trace : list event) : Prop :=
  StronglySorted le (omap prompt_index trace).

(** The place of an event in a run: its pass (0 the baseline loop, 1 the
    loop with the adapter), its prompt index, and its step for that prompt
    (0 the pipeline call, 1 the stacking, labelling and saving of the
    images). *)
Definition phase (ev : event) : option (nat * nat * nat) :=
  match ev with
  | EvPipeline Baselines i _ => Some (0, i, 0)%nat
  | EvPipeline ResAdapter i _ => Some (1, i, 0)%nat
  | EvStack (t :: _) | EvDrawText t _ | EvSaveImage (t :: _) _ =>
      Some (1, tensor_index t, 1)%nat
  | _ => None
  end.

(** Passes in order, prompts in order within a pass, steps in order within
    a prompt. *)
Definition phase_le (p q : nat * nat * nat) : Prop :=
  (p.1.1 < q.1.1 ∨
   (p.1.1 = q.1.1 ∧ (p.1.2 < q.1.2 ∨ (p.1.2 = q.1.2 ∧ p.2 ≤ q.2))))%nat.

(** What is stacked or saved at once is not empty and comes from one
    prompt, so the first image stands for all of them in [phase]. *)
Definition rows_of_one_prompt (ev : event) : Prop :=
  match ev with
  | EvStack rows | EvSaveImage rows _ =>
      ∃ t rest, rows = t :: rest ∧
                Forall (λ t', tensor_index t' = tensor_index t) rest
  | _ => True
  end.

Definition pass_by_pass (trace : list event) : Prop :=
  StronglySorted phase_le (omap phase trace) ∧
  Forall rows_of_one_prompt trace.

(** The history is in order and has not gone beyond phase [p]. *)
Definition below (p : nat * nat * nat) (h : list event) : Prop :=
  pass_by_pass h ∧ Forall (λ q, phase_le q p) (omap phase h).

(** An event of phase [p], or of no phase. *)
Definition at_phase (p : nat * nat * nat) (ev : event) : Prop :=
  (phase ev = None ∨ phase ev = Some p) ∧ rows_of_one_prompt ev.

(** From a history below [p], [m] leads to a history below [q], and to a
    value satisfying [R]. *)
Definition keeps {A} (p q : nat * nat * nat) (R : A → Prop) (m : M A)
    : Prop :=
  ∀ h, below p h →
    below q (m h).2 ∧ ∀ a, (m h).1 = Ok a → R a.

(** A pipeline call of the baseline loop is made only with the comparison
    enabled. *)
Definition baseline_if_enabled (config : Config) (ev : event) : Prop :=
  ∀ i args, ev = EvPipeline Baselines i args → compare_enabled config.

(** All tensors of batch [k] come from prompt [k]. *)
Definition batches_indexed (batches : list (list tensor)) : Prop :=
  ∀ k batch, batches !! k = Some batch →
    Forall (λ t, tensor_index t = k) batch.

(** The state of an inference loop before iteration [i]: one batch per
    earlier prompt, each made of tensors of its prompt. *)
Definition loop_state (i : nat) (state : Locals * list (list tensor))
    : Prop :=
  length state.2 = i ∧ batches_indexed state.2.

(** Modelled from the spec's words: the kwargs-assembly table of section
    4.2, for the condition, source, mask and reference image of a prompt. *)
Definition kwargs_table (condition source mask reference : image)
    : list (string * option string * gmap string kwarg) :=
  [ ("t2i", None, ∅);
    ("t2i_accelerate", None, ∅);
    ("controlnet", Some "text_to_image", {[ "image" := KImage condition ]});
    ("controlnet", Some "image_to_image",
     {[ "control_image" := KImage condition; "image" := KImage source ]});
    ("t2i_adapter", None, {[ "image" := KImage condition ]});
    ("ip_adapter", Some "image_variation",
     {[ "ip_adapter_image" := KImage reference ]});
    ("ip_adapter", Some "image_to_image",
     {[ "image" := KImage source; "ip_adapter_image" := KImage reference;
        "strength" := KFloat float_0_6 ]});
    ("ip_adapter", Some "inpaint",
     {[ "image" := KImage source; "mask_image" := KImage mask;
        "ip_adapter_image" := KImage reference;
        "strength" := KFloat float_0_5 ]}) ].

(** Every resize is to the target geometry of some image file. *)
Definition resizes_to_geometry (E : Env) (config : Config) (ev : event)
    : Prop :=
  ∀ im size, ev = EvResize im size →
    ∃ path, size = geometry config (native_size E path).

(** The arguments every pipeline call shares: the prompt of its index,
    and the configured sampling parameters with their defaults. *)
Definition call_as_configured (config : Config) (ev : event) : Prop :=
  ∀ site i args, ev = EvPipeline site i args →
    get (cfg_prompts config) [] !! i = Some (arg_prompt args) ∧
    arg_negative_prompt args = get (cfg_n_prompt config) "" ∧
    arg_num_inference_steps args = get (cfg_num_inference_steps config) 25 ∧
    arg_num_images_per_prompt args
    = get (cfg_num_images_per_prompt config) 2 ∧
    arg_guidance_scale args = get (cfg_guidance_scale config) float_7_5 ∧
    arg_output_type args = "pt" ∧
    arg_generator args
    = (if int_truthy (cfg_seed config) then cfg_seed config else None).

(** [m] only appends events, and what it appends satisfies [T]. *)
Definition appends {A} (T : list event → Prop) (m : M A) : Prop :=
  ∀ h, ∃ t, (m h).2 = h ++ t ∧ T t.

(** The seeds given to [manual_seed], in order. *)
Definition manual_seeds (trace : list event) : list Z :=
  omap (λ ev, match ev with EvManualSeed seed => Some seed | _ => None end)
    trace.

(** No generator is seeded, or one is, once, with the configured seed,
    which is not 0. *)
Definition seeded_once (config : Config) (trace : list event) : Prop :=
  manual_seeds trace = [] ∨
  ∃ seed, cfg_seed config = Some seed ∧ seed ≠ 0 ∧
          manual_seeds trace = [seed].

(** The stage of a run an event belongs to: 0 for a pipeline call of the
    baseline loop, 1 for the loading of the lora weights of the adapter, 2
    for a pipeline call of the loop with the adapter. *)
Definition stage (ev : event) : option nat :=
  match ev with
  | EvPipeline Baselines _ _ => Some 0%nat
  | EvLoadLoraWeights _ _ => Some 1%nat
  | EvPipeline ResAdapter _ _ => Some 2%nat
  | _ => None
  end.

(** The stages never go back. *)
Definition adapter_between (trace : list event) : Prop :=
  StronglySorted le (omap stage trace).

(** The stages never go back and stay between [a] and [b]. *)
Definition within (a b : nat) (trace : list event) : Prop :=
  adapter_between trace ∧ Forall (λ k, a ≤ k ≤ b)%nat (omap stage trace).

(** An event of stage [k], or of no stage. *)
Definition at_stage (k : nat) (ev : event) : Prop :=
  stage ev = None ∨ stage ev = Some k.

(** The output directory of line 51 or 53, for a configuration whose
    experiment name can be read. *)
Definition output_dir_of (E : Env) (config : Config) : string :=
  if bool_decide (cfg_experiment_name config ≠ Some "")
  then "samples/" +:+ py_str (cfg_experiment_name config) +:+ "-" +:+ time_str E
  else "samples/" +:+ path_stem E (config_path E) +:+ "-" +:+ time_str E.

(** The events of steps 1 and 2 of [main]. *)
Definition setup_event (ev : event) : Prop :=
  match ev with
  | EvMakedirs _ | EvPrint _ | EvLoadPipeline _ | EvTo _ | EvEnableXformers =>
      True
  | _ => False
  end.

(** The sub-tasks that the ip_adapter preparation accepts. *)
Definition recognized_sub_tasks : list (option string) :=
  [Some "image_variation"; Some "image_to_image"; Some "inpaint"].

(** An event that generates or writes no image. *)
Definition idle_event (ev : event) : Prop :=
  match ev with
  | EvPipeline _ _ _ | EvStack _ | EvDrawText _ _ | EvSaveImage _ _ => False
  | _ => True
  end.

(** The keyword arguments of the pipeline call of prompt [i], as the
    configuration determines them: none for the text-to-image tasks, and for
    the ip_adapter sub-tasks the images at position [i] of the configured
    lists, each opened and resized as the preparation does. *)
Definition kwargs_of_run (E : Env) (config : Config) (i : nat)
    (kw : gmap string kwarg) : Prop :=
  let refs := get (cfg_ip_adapter_images config) [] in
  let srcs := get (cfg_source_images config) [] in
  let masks := get (cfg_mask_images config) [] in
  (cfg_task config = Some "t2i" ∨ cfg_task config = Some "t2i_accelerate" →
   kw = ∅) ∧
  (cfg_task config = Some "ip_adapter" →
   cfg_sub_task config = Some "image_variation" →
   ∃ r, refs !! i = Some r ∧
        kw = {[ "ip_adapter_image" := KImage (resized_to E config r r) ]}) ∧
  (cfg_task config = Some "ip_adapter" →
   cfg_sub_task config = Some "image_to_image" →
   ∃ r x, refs !! i = Some r ∧ srcs !! i = Some x ∧
          kw = {[ "image" := KImage (resized_to E config x x);
                  "ip_adapter_image" := KImage (resized_to E config r x);
                  "strength" := KFloat float_0_6 ]}) ∧
  (cfg_task config = Some "ip_adapter" →
   cfg_sub_task config = Some "inpaint" →
   ∃ r x m, refs !! i = Some r ∧ srcs !! i = Some x ∧ masks !! i = Some m ∧
            kw = {[ "image" := KImage (resized_to E config x x);
                    "mask_image" := KImage (resized_to E config m x);
                    "ip_adapter_image" := KImage (resized_to E config r x);
                    "strength" := KFloat float_0_5 ]}).

Definition call_kwargs_as_table (E : Env) (config : Config) (ev : event)
    : Prop :=
  ∀ site i args, ev = EvPipeline site i args →
    kwargs_of_run E config i (arg_kwargs args).

(** The locals after the preparation of an ip_adapter run: the sub-task,
    and the lists of the sub-task, hold what the configuration
    determines. *)
Definition prepared_for (E : Env) (config : Config) (s : Locals) : Prop :=
  let refs := get (cfg_ip_adapter_images config) [] in
  let srcs := get (cfg_source_images config) [] in
  let masks := get (cfg_mask_images config) [] in
  cfg_task config = Some "ip_adapter" →
  sub_task s = Some (cfg_sub_task config) ∧
  (cfg_sub_task config = Some "image_variation" →
   ip_adapter_images s = Some ((λ p, resized_to E config p p) <$> refs)) ∧
  (cfg_sub_task config = Some "image_to_image" →
   ip_adapter_images s
   = Some ((λ p, resized_to E config p.1 p.2) <$> zip refs srcs) ∧
   source_images s
   = Some ((λ p, resized_to E config p.2 p.2) <$> zip refs srcs)) ∧
  (cfg_sub_task config = Some "inpaint" →
   source_images s
   = Some ((λ p, resized_to E config p.1.2 p.1.2) <$> zip3 refs srcs masks) ∧
   mask_images s
   = Some ((λ p, resized_to E config p.2 p.1.2) <$> zip3 refs srcs masks) ∧
   ip_adapter_images s
   = Some ((λ p, resized_to E config p.1.1 p.1.2) <$> zip3 refs srcs masks)).

(** The number of prompts the ip_adapter preparation has inputs for: the
    length of the shortest list that the sub-task reads. *)
Definition prepared_count (config : Config) : nat :=
  let refs := length (get (cfg_ip_adapter_images config) []) in
  let srcs := length (get (cfg_source_images config) []) in
  let masks := length (get (cfg_mask_images config) []) in
  if eq_str (cfg_sub_task config) "image_variation" then refs
  else if eq_str (cfg_sub_task config) "image_to_image" then refs `min` srcs
  else (refs `min` srcs) `min` masks.

(** A pipeline call, if the event is one, is for a prompt index below
    [n]. *)
Definition calls_below (n : nat) (ev : event) : Prop :=
  ∀ site i args, ev = EvPipeline site i args → (i < n)%nat.

(** Batch [k] holds the images that the call of prompt [k] in the loop
    [site] returned, in their order. *)
Definition batches_of (site : call_site) (batches : list (list tensor))
    : Prop :=
  ∀ k batch, batches !! k = Some batch →
    ∃ n, batch = Generated site k <$> seq 0 n.

(** The caption of the images of a loop: [texts] of line 259 lists the
    adapter first, as line 262 stacks it first. *)
Definition label (site : call_site) : string :=
  match site with ResAdapter => "ResAdapter" | Baselines => "Baseline" end.

(** Every stacked pair is the image [j] of prompt [i] with the adapter on
    top of the image [j] of prompt [i] without it, and every caption is drawn
    on an image of its loop. *)
Definition compared_pairwise (ev : event) : Prop :=
  match ev with
  | EvStack rows =>
      ∃ i j, rows = [Generated ResAdapter i j; Generated Baselines i j]
  | EvDrawText t text => ∃ site i j, t = Generated site i j ∧ text = label site
  | _ => True
  end.

(** Image [j] of prompt [i] of a loop as the comparison saves it: with its
    caption when captions are drawn. *)
Definition saved_row (config : Config) (site : call_site) (i j : nat)
    : tensor :=
  if flag_truthy (cfg_draw_text config)
  then Labelled (Generated site i j) (label site)
  else Generated site i j.

(** What a run writes, and at which path: the directory it makes is the
    output directory; a condition image is the edge map of a resized source
    image, at [os.path.join] of the output directory and a name made of the
    stem of the source path; a result is image [j] of a prompt, at
    [os.path.join] of the output directory and a name made of the first 100
    code points of the prompt and [j]: a single image without the
    comparison, a pair with it, and one file per loop, named after the loop,
    when pairs are split.  ([os.path.join] keeps the directory unless the
    name starts with a slash.) *)
Definition saved_as_configured (E : Env) (config : Config) (ev : event)
    : Prop :=
  let dir := output_dir_of E config in
  match ev with
  | EvMakedirs d => d = dir
  | EvImageSave im file =>
      ∃ src, src ∈ get (cfg_source_images config) [] ∧
             im = CannyRGB (resized_to E config src src) ∧
             file = os_path_join dir
                      ("condition_" +:+ path_stem E src +:+ ".jpg")
  | EvSaveImage rows file =>
      ∃ i prompt j,
        get (cfg_prompts config) [] !! i = Some prompt ∧
        (j < Z.to_nat (get (cfg_num_images_per_prompt config) 2%Z))%nat ∧
        (¬ compare_enabled config →
         rows = [Generated ResAdapter i j] ∧
         file = os_path_join dir
                  (first_100 prompt +:+ "_" +:+ pretty j +:+ ".jpg")) ∧
        (compare_enabled config →
         flag_truthy (cfg_split_images config) = false →
         rows = [saved_row config ResAdapter i j;
                 saved_row config Baselines i j] ∧
         file = os_path_join dir
                  (first_100 prompt +:+ "_" +:+ pretty j +:+ ".jpg")) ∧
        (compare_enabled config →
         flag_truthy (cfg_split_images config) = true →
         ∃ site, rows = [saved_row config site i j] ∧
                 file = os_path_join dir
                          (first_100 prompt +:+ "_" +:+ pretty j +:+ "_"
                             +:+ label site +:+ ".jpg"))
  | _ => True
  end.

(** An event other than a pipeline call of the loop with the adapter. *)
Definition no_adapted_call (ev : event) : Prop :=
  ∀ i args, ev ≠ EvPipeline ResAdapter i args.

(** Every pipeline call of the loop with the adapter comes after the event
    [a]. *)
Definition preceded_by (a : event) (trace : list event) : Prop :=
  ∀ t1 i args t2, trace = t1 ++ EvPipeline ResAdapter i args :: t2 → a ∈ t1.

(** Lora weights are loaded only from the configured adapter directory,
    which is not empty, and under the name "res_adapter". *)
Definition loads_configured_adapter (config : Config) (ev : event) : Prop :=
  ∀ file name, ev = EvLoadLoraWeights file name →
    get (cfg_res_adapter_model config) "" ≠ "" ∧
    file = os_path_join (get (cfg_res_adapter_model config) "")
             LORA_WEIGHTS_NAME ∧
    name = "res_adapter".

(** The inputs of a run suffice for its prompts: a text-to-image task, or
    an ip_adapter sub-task with no more prompts than prepared inputs. *)
Definition enough_inputs (config : Config) : Prop :=
  (cfg_task config = Some "t2i" ∨ cfg_task config = Some "t2i_accelerate") ∨
  (cfg_task config = Some "ip_adapter" ∧
   cfg_sub_task config ∈ recognized_sub_tasks ∧
   (length (get (cfg_prompts config) []) ≤ prepared_count config)%nat).

(** Every pipeline call returns at least the configured number of images
    per prompt. *)
Definition full_batches (E : Env) (config : Config) : Prop :=
  ∀ h, (Z.to_nat (get (cfg_num_images_per_prompt config) 2%Z)
        ≤ batch_len E h)%nat.

(** One batch per prompt so far, each of a loop's call for its prompt and
    with the configured number of images at least. *)
Definition batches_full (config : Config) (site : call_site) (i : nat)
    (batches : list (list tensor)) : Prop :=
  length batches = i ∧
  ∀ k batch, batches !! k = Some batch →
    ∃ n, batch = Generated site k <$> seq 0 n ∧
         (Z.to_nat (get (cfg_num_images_per_prompt config) 2%Z) ≤ n)%nat.

(** The binary64 value nearest to 0.7. *)
Definition float_0_7 : pyfloat := Float 3152519739159347 (-52).

(** The exact value [a * 2 ^ e], rounded down. *)
Definition exact_floor (a e : Z) : Z :=
  if 0 <=? e then a * 2 ^ e else a `div` 2 ^ (- e).

(** The exact product of [n], not negative, and [x], truncated toward
    zero. *)
Definition exact_trunc (n : Z) (x : pyfloat) : Z :=
  Z.sgn (mant x) * exact_floor (n * Z.abs (mant x)) (expo x).

(** [g] is the exact product of [n] and [x] truncated toward zero, or the
    next integer away from zero, the latter only when the product of [n]
    and the significand of [x] does not fit in 53 bits. *)
Definition truncated_product (g n : Z) (x : pyfloat) : Prop :=
  g = exact_trunc n x
  ∨ (g = exact_trunc n x + Z.sgn (mant x) ∧ 2 ^ 53 ≤ n * Z.abs (mant x)).

(** The prompt indices of the pipeline calls of the baseline loop, in the
    order of the calls. *)
Definition baseline_calls (trace : list event) : list nat :=
  omap (λ ev, match ev with
              | EvPipeline Baselines i _ => Some i
              | _ => None
              end) trace.

(** An event other than a pipeline call of the baseline loop. *)
Definition no_baseline_call (ev : event) : Prop :=
  ∀ i args, ev ≠ EvPipeline Baselines i args.

(** [m] returns, whatever the history: with a value satisfying [R], after
    appending events that satisfy [T]. *)
Definition runs {A} (T : list event → Prop) (R : A → Prop) (m : M A) : Prop :=
  ∀ h, ∃ a t, m h = (Ok a, h ++ t) ∧ T t ∧ R a.

(** ** Rules of the trace monad *)
Section Rules.
Context (E : Env).
Context (P : event → Prop) (X : exn → Prop).

Lemma spec_ret {A} (R : A → Prop) (a : A) : R a → spec P X R (mret a).
Proof. intros HR h. exists []. rewrite app_nil_r. by repeat split. Qed.

Lemma spec_raise {A} (R : A → Prop) (e : exn) : X e → spec P X R (raise e).
Proof. intros HX h. exists []. rewrite app_nil_r. by repeat split. Qed.

Lemma spec_bind {A B} (R1 : A → Prop) (R : B → Prop) (m : M A) (f : A → M B) :
  spec P X R1 m → (∀ a, R1 a → spec P X R (f a)) → spec P X R (m ≫= f).
Proof.
  intros Hm Hf h. destruct (Hm h) as (t1 & E1 & F1 & H1).
  unfold mbind, M_bind. destruct (m h) as [[a|e] h']; simpl in *; subst h'.
  - destruct (Hf a H1 (h ++ t1)) as (t2 & E2 & F2 & H2).
    exists (t1 ++ t2). rewrite E2, app_assoc. split; [done|].
    split; [by apply Forall_app|done].
  - exists t1. by repeat split.
Qed.

Lemma spec_conseq {A} (R R' : A → Prop) (X' : exn → Prop) (m : M A) :
  spec P X' R' m → (∀ a, R' a → R a) → (∀ e, X' e → X e) → spec P X R m.
Proof.
  intros Hm HR HX h. destruct (Hm h) as (t & E1 & F1 & H1).
  exists t. repeat split; [done..|]. destruct (m h).1; auto.
Qed.

Lemma spec_call (ev : event) :
  P ev → (∀ h, fails E h ev = true → X (ExternalError ev)) →
  spec P X any (call E ev).
Proof.
  intros HP HX h. exists [ev]. unfold call; simpl. split; [done|].
  split; [by apply Forall_singleton|].
  destruct (fails E h ev) eqn:Hf; simpl; [by eapply HX|done].
Qed.

Lemma spec_emit (ev : event) : P ev → spec P X any (emit ev).
Proof.
  intros HP h. exists [ev]. unfold emit; simpl. split; [done|].
  split; [by apply Forall_singleton|done].
Qed.

Lemma spec_getattr {A} (key : string) (field : option A) :
  (field = None → strict_attr E = true → X (ConfigAttributeError key)) →
  spec P X (λ v, v = field) (getattr E key field).
Proof.
  intros HX. unfold getattr. destruct field; [by apply spec_ret|].
  destruct (strict_attr E) eqn:Hs; [apply spec_raise; auto|by apply spec_ret].
Qed.

Lemma spec_load_local {A} (name : string) (v : option A) :
  (v = None → X (UnboundLocalError name)) →
  spec P X (λ a, v = Some a) (load_local name v).
Proof.
  intros HX. unfold load_local. destruct v; [by apply spec_ret|].
  apply spec_raise; auto.
Qed.

Lemma spec_index {A} (l : list A) (i : nat) :
  (l !! i = None → X IndexError) →
  spec P X (λ a, l !! i = Some a) (index l i).
Proof.
  intros HX. unfold index. destruct (l !! i); [by apply spec_ret|].
  apply spec_raise; auto.
Qed.

Lemma spec_as_str (v : option string) :
  (v = None → X TypeError) → spec P X (λ s, v = Some s) (as_str v).
Proof.
  intros HX. unfold as_str. destruct v; [by apply spec_ret|].
  apply spec_raise; auto.
Qed.

Lemma spec_pipeline (site : call_site) (i : nat) (args : call_args) :
  P (EvPipeline site i args) →
  (∀ h, fails E h (EvPipeline site i args) = true →
        X (ExternalError (EvPipeline site i args))) →
  spec P X (λ images, ∃ n, images = Generated site i <$> seq 0 n)
    (pipeline E site i args).
Proof.
  intros HP HX h. exists [EvPipeline site i args]. unfold pipeline.
  destruct (fails E h _) eqn:Hf; simpl.
  - repeat split; [by apply Forall_singleton|by eapply HX].
  - repeat split; [by apply Forall_singleton|by eexists].
Qed.

Lemma spec_try_except {A} (R : A → Prop) (m handler : M A) :
  spec P any R m → spec P X R handler → spec P X R (try_except m handler).
Proof.
  intros Hm Hh h. destruct (Hm h) as (t1 & E1 & F1 & H1).
  unfold try_except. destruct (m h) as [[a|e] h']; simpl in *; subst h'.
  - exists t1. by repeat split.
  - destruct (Hh (h ++ t1)) as (t2 & E2 & F2 & H2).
    exists (t1 ++ t2). rewrite E2, app_assoc. split; [done|].
    split; [by apply Forall_app|done].
Qed.

Lemma spec_for_each {A St} (I : St → Prop) (body : A → St → M St)
    (l : list A) (s : St) :
  (∀ x s, I s → spec P X I (body x s)) → I s →
  spec P X I (for_each body l s).
Proof.
  intros Hb. revert s. induction l as [|x l IH]; intros s Hs; simpl.
  - by apply spec_ret.
  - eapply spec_bind; [by apply Hb|]. intros s' Hs'. by apply IH.
Qed.

Lemma spec_for_enumerate {A St} (I : nat → St → Prop)
    (body : nat → A → St → M St) (l : list A) (i : nat) (s : St) :
  (∀ i x s, I i s → spec P X (I (S i)) (body i x s)) → I i s →
  spec P X (λ s', I (i + length l)%nat s') (for_enumerate body i l s).
Proof.
  intros Hb. revert i s. induction l as [|x l IH]; intros i s Hs; simpl.
  - apply spec_ret. by rewrite Nat.add_0_r.
  - eapply spec_bind; [by apply Hb|]. intros s' Hs'.
    replace (i + S (length l))%nat with (S i + length l)%nat by lia.
    by apply IH.
Qed.

End Rules.

Create HintDb prog.
#[export] Hint Unfold run main get_config load_pipeline prepare inference
  inference_from
  enable_compare baseline_loop resadapter_loop save_images
  assemble_kwargs_baseline assemble_kwargs_resadapter
  prepare_ip_adapter prepare_inpaint prepare_image_to_image
  prepare_image_variation prepare_t2i_adapter prepare_controlnet
  image_open resize load_resadapter read_state_dict image_to_image_body
  inpaint_body : prog.

Lemma for_each_cons {A St} (body : A → St → M St) x l s h :
  for_each body (x :: l) s h
  = match body x s h with
    | (Ok s', h') => for_each body l s' h'
    | (Raise e, h') => (Raise e, h')
    end.
Proof. done. Qed.

Lemma spec_mono {A} (P P' : event → Prop) (X X' : exn → Prop)
    (R R' : A → Prop) (m : M A) :
  spec P' X' R' m → (∀ ev, P' ev → P ev) → (∀ a, R' a → R a) →
  (∀ e, X' e → X e) → spec P X R m.
Proof.
  intros Hm HP HR HX h. destruct (Hm h) as (t & E1 & F1 & H1).
  exists t. split_and!; [done|by eapply Forall_impl|].
  destruct (m h).1; auto.
Qed.

Lemma spec_weaken {A} (P : event → Prop) (X : exn → Prop) (R : A → Prop)
    (m : M A) :
  spec P X R m → spec P X any m.
Proof. intros H. by eapply spec_conseq. Qed.

(** Closed comparisons of a task or sub-task with a literal are computed. *)
Ltac eval_eq_str :=
  repeat match goal with
    | |- context [eq_str (Some ?a) ?b] =>
        let v := eval vm_compute in (eq_str (Some a) b) in
        change (eq_str (Some a) b) with v
    | |- context [eq_str None ?b] => change (eq_str None b) with false
    end;
  cbv beta iota zeta delta [orb].

(** One step through a program whose values are not tracked: [solveP]
    proves the property of an event, [solveX] that an exception is allowed. *)
Ltac emits_step solveP solveX :=
  lazymatch goal with
  | |- spec _ _ _ (mbind _ _) =>
      eapply (spec_bind _ _ any); [|intros ? _]
  | |- spec _ _ _ (mret _) => by apply spec_ret
  | |- spec _ _ _ (raise _) => apply spec_raise; solveX
  | |- spec _ _ _ (call _ _) =>
      eapply spec_weaken, spec_call; [solveP|solveX]
  | |- spec _ _ _ (emit _) => eapply spec_weaken, spec_emit; solveP
  | |- spec _ _ _ (getattr _ _ _) => eapply spec_weaken, spec_getattr; solveX
  | |- spec _ _ _ (load_local _ _) =>
      eapply spec_weaken, spec_load_local; solveX
  | |- spec _ _ _ (index _ _) => eapply spec_weaken, spec_index; solveX
  | |- spec _ _ _ (as_str _) => eapply spec_weaken, spec_as_str; solveX
  | |- spec _ _ _ (pipeline _ _ _ _) =>
      eapply spec_weaken, spec_pipeline; [solveP|solveX]
  | |- spec _ _ _ (try_except _ _) => eapply spec_try_except
  | |- spec _ _ _ (for_each _ _ _) =>
      eapply (spec_for_each _ _ any); [intros ? ? _|done]
  | |- spec _ _ _ (for_enumerate _ _ _ _) =>
      eapply spec_weaken, (spec_for_enumerate _ _ (λ _, any));
      [intros ? ? ? _|done]
  | |- spec ?P ?X ?R (if true then ?m else _) => change (spec P X R m)
  | |- spec ?P ?X ?R (if false then _ else ?m) => change (spec P X R m)
  | |- spec _ _ _ (if ?b then _ else _) => destruct b eqn:?
  | |- spec _ _ _ (match ?x with _ => _ end) => destruct x eqn:?
  | |- spec _ _ _ (match ?x with _ => _ end _) => destruct x eqn:?
  | |- spec _ _ _ (match ?x with _ => _ end _ _) => destruct x eqn:?
  end.

Ltac emits_steps solveP solveX := repeat emits_step solveP solveX.

Ltac emits_go solveP :=
  autounfold with prog; emits_steps solveP ltac:(done).

Lemma spec_run E (P : event → Prop) (X : exn → Prop) (R : () → Prop)
    config :
  spec P X R (main E config) →
  Forall P (run E config).2 ∧
  match (run E config).1 with Ok a => R a | Raise e => X e end.
Proof. intros H. destruct (H []) as (t & Ht & HP & Hr). unfold run. by rewrite Ht. Qed.

(** ** Target geometry *)

Lemma round53_exact m e : Z.abs m < 2 ^ 53 → round53 m e = Float m e.
Proof.
  intros Hm. unfold round53.
  assert (Z.log2 (Z.abs m) + 1 ≤ 53) as Hl.
  { destruct (decide (Z.abs m = 0)) as [->|Hne]; [done|].
    assert (Z.log2 (Z.abs m) < 53); [|lia]. apply Z.log2_lt_pow2; lia. }
  destruct (Z.leb_spec (Z.log2 (Z.abs m) + 1) 53); [done|lia].
Qed.

Lemma py_int_le q k : 0 ≤ q → 0 ≤ k → py_int (Float q (- k)) = q `div` 2 ^ k.
Proof.
  intros Hq Hk. unfold py_int; simpl. destruct (Z.leb_spec 0 (- k)).
  - replace k with 0 by lia. simpl. by rewrite Z.mul_1_r, Z.div_1_r.
  - rewrite Z.opp_involutive. apply Z.quot_div_nonneg; [done|].
    apply Z.pow_pos_nonneg; lia.
Qed.

Lemma round53_floor a e :
  0 ≤ a → exact_floor a e < 2 ^ 53 →
  py_int (round53 a e) = exact_floor a e
  ∨ (py_int (round53 a e) = exact_floor a e + 1 ∧ 2 ^ 53 ≤ a).
Proof.
  intros Ha Hb. destruct (Z_lt_le_dec a (2 ^ 53)) as [Hs|Hl].
  - left. rewrite round53_exact by (rewrite Z.abs_eq; lia).
    unfold py_int, exact_floor; simpl. destruct (Z.leb_spec 0 e); [done|].
    apply Z.quot_div_nonneg; [done|]. apply Z.pow_pos_nonneg; lia.
  - assert (e < 0) as He.
    { destruct (Z_lt_le_dec e 0) as [|He]; [done|]. exfalso.
      unfold exact_floor in Hb. destruct (Z.leb_spec 0 e); [|lia].
      assert (0 < 2 ^ e) by (apply Z.pow_pos_nonneg; lia). nia. }
    assert (exact_floor a e = a `div` 2 ^ (- e)) as HF.
    { unfold exact_floor. destruct (Z.leb_spec 0 e); [lia|done]. }
    rewrite HF in Hb |- *.
    unfold round53. rewrite Z.abs_eq by done.
    assert (53 ≤ Z.log2 a) as Hlog by (apply Z.log2_le_pow2; lia).
    destruct (Z.leb_spec (Z.log2 a + 1) 53) as [|_]; [lia|].
    set (s := Z.log2 a + 1 - 53). assert (1 ≤ s) as Hs1 by lia.
    destruct (Z.log2_spec a) as [Hlo _]; [lia|].
    assert (s ≤ - e) as Hse.
    { destruct (Z_le_gt_dec s (- e)) as [|Hgt]; [done|]. exfalso.
      assert (2 ^ 53 ≤ a `div` 2 ^ (- e)); [|lia].
      apply Z.div_le_lower_bound; [apply Z.pow_pos_nonneg; lia|].
      rewrite <- Z.pow_add_r by lia.
      etransitivity; [|exact Hlo]. apply Z.pow_le_mono_r; lia. }
    set (k := - e - s). assert (0 ≤ k) as Hk by lia.
    assert (0 < 2 ^ s) as Hps by (apply Z.pow_pos_nonneg; lia).
    assert (0 < 2 ^ k) as Hpk by (apply Z.pow_pos_nonneg; lia).
    assert (a `div` 2 ^ (- e) = (a `div` 2 ^ s) `div` 2 ^ k) as Hdiv.
    { rewrite Z.div_div by lia. rewrite <- Z.pow_add_r by lia.
      f_equal. f_equal. lia. }
    rewrite Hdiv in Hb |- *.
    assert (0 ≤ a `div` 2 ^ s) as Hq by (apply Z.div_pos; lia).
    set (q := a `div` 2 ^ s) in *.
    rewrite Z.sgn_pos by lia. rewrite Z.mul_1_l.
    replace (e + s) with (- k) by lia.
    match goal with |- context [Float ?x _] => set (q' := x) end.
    assert (q ≤ q' ≤ q + 1) as Hq'.
    { subst q'. repeat case_match; lia. }
    rewrite py_int_le by lia.
    assert (q `div` 2 ^ k ≤ q' `div` 2 ^ k) by (apply Z.div_le_mono; lia).
    assert (q' `div` 2 ^ k ≤ q `div` 2 ^ k + 1).
    { rewrite <- (Z.div_add q 1 (2 ^ k)) by lia.
      apply Z.div_le_mono; lia. }
    lia.
Qed.

Lemma round53_opp m e :
  py_int (round53 (- m) e) = - py_int (round53 m e).
Proof.
  unfold round53. rewrite Z.abs_opp, Z.sgn_opp.
  assert (∀ x y, py_int (Float (- x) y) = - py_int (Float x y)) as Hopp.
  { intros x y. unfold py_int; simpl. destruct (Z.leb_spec 0 y); [lia|].
    apply Z.quot_opp_l. apply Z.pow_nonzero; [done|lia]. }
  destruct (Z.log2 (Z.abs m) + 1 <=? 53); [apply Hopp|].
  rewrite Z.mul_opp_l. apply Hopp.
Qed.

Lemma scaled_trunc n ratio :
  0 ≤ n → mant ratio ≠ 0 → Z.abs (exact_trunc n ratio) < 2 ^ 53 →
  truncated_product (py_int (int_mul_float n ratio)) n ratio.
Proof.
  intros Hn Hm Hb. unfold truncated_product, int_mul_float, exact_trunc in *.
  assert (0 ≤ n * Z.abs (mant ratio)) as Ha by nia.
  assert (0 ≤ exact_floor (n * Z.abs (mant ratio)) (expo ratio)) as HF.
  { unfold exact_floor. destruct (Z.leb_spec 0 (expo ratio)).
    - assert (0 < 2 ^ expo ratio) by (apply Z.pow_pos_nonneg; lia). nia.
    - apply Z.div_pos; [done|]. apply Z.pow_pos_nonneg; lia. }
  destruct (Z_lt_le_dec 0 (mant ratio)) as [Hpos|Hneg].
  - rewrite Z.sgn_pos in * by done. rewrite (Z.abs_eq (mant ratio)) in * by lia.
    rewrite !Z.mul_1_l in *. apply round53_floor; lia.
  - rewrite Z.sgn_neg in * by lia.
    rewrite (Z.abs_neq (mant ratio)) in * by lia.
    replace (n * mant ratio) with (- (n * - mant ratio)) by lia.
    rewrite round53_opp.
    destruct (round53_floor (n * - mant ratio) (expo ratio)) as [->|[-> ?]];
      [lia|lia| |]; [left|right]; lia.
Qed.

(** C4, as amended.  With a non-zero scale ratio each side of the target
    size is [int(side * ratio)], where the product is a binary64 product:
    it is the exact product truncated toward zero or, only when the product
    of the side and the significand of the ratio does not fit in 53 bits and
    is rounded, one further from zero (10 * 0.7 gives 7); it is not the
    nearest integer.  Each image is scaled from its own native size; ratio
    0.5 on 800x600 gives 400x300.  With no scale ratio, or a zero one, the
    target size is the configured width and height, each 512 when absent. *)
Theorem geometry_resolution config w h :
  0 ≤ w → 0 ≤ h →
  (∀ ratio,
     cfg_scale_ratio config = Some ratio → mant ratio ≠ 0 →
     Z.abs (exact_trunc w ratio) < 2 ^ 53 →
     Z.abs (exact_trunc h ratio) < 2 ^ 53 →
     ∃ gw gh, geometry config (w, h) = (gw, gh) ∧
              truncated_product gw w ratio ∧ truncated_product gh h ratio) ∧
  (scale_ratio_truthy (cfg_scale_ratio config) = false →
     geometry config (w, h)
     = (get (cfg_width config) 512, get (cfg_height config) 512)) ∧
  geometry (scaled_config float_0_5) (800, 600) = (400, 300) ∧
  geometry (scaled_config float_0_7) (10, 801) = (7, 560) ∧
  geometry empty_config (w, h) = (512, 512).
Proof.
  intros Hw Hh. repeat split.
  - intros ratio Hr Hm Hbw Hbh. unfold geometry. rewrite Hr.
    unfold float_truthy. destruct (Z.eqb_spec (mant ratio) 0); [done|]. simpl.
    eexists _, _. split; [done|]. by split; apply scaled_trunc.
  - unfold geometry, scale_ratio_truthy.
    destruct (cfg_scale_ratio config) as [r|]; [|done]. by intros ->.
Qed.

Lemma geometry_resolution_witness :
  ∃ gw gh, geometry (scaled_config float_0_7) (801, 601) = (gw, gh) ∧
           truncated_product gw 801 float_0_7 ∧
           truncated_product gh 601 float_0_7.
Proof.
  refine (proj1 (geometry_resolution (scaled_config float_0_7) 801 601 _ _)
            float_0_7 _ _ _ _).
  - lia.
  - lia.
  - reflexivity.
  - simpl. lia.
  - vm_compute. reflexivity.
  - vm_compute. reflexivity.
Defined.

(** C4, as stated, fails: at ratio 0.75 an 801x601 image gets 600x450 where
    rounding 600.75 and 450.75 gives 601x451. *)
Lemma geometry_not_rounded :
  geometry (scaled_config (Float 3 (-2))) (801, 601)
  ≠ spec_geometry (scaled_config (Float 3 (-2))) (801, 601).
Proof. vm_compute. discriminate. Qed.

(** ** Height and width of the pipeline calls *)

Lemma image_open_size E (P : event → Prop) path :
  P (EvImageOpen path) →
  spec P any (λ im, image_size im = native_size E path) (image_open E path).
Proof.
  intros HP. unfold image_open.
  eapply (spec_bind _ _ any); [by apply spec_call|]. intros _ _.
  by apply spec_ret.
Qed.

Lemma resize_spec E (P : event → Prop) im size :
  P (EvResize im size) → spec P any any (resize E im size).
Proof.
  intros HP. unfold resize.
  eapply (spec_bind _ _ any); [by apply spec_call|]. intros _ _.
  by apply spec_ret.
Qed.

(** A step through a preparation loop that keeps track of the size of the
    opened image. *)
Ltac resize_step :=
  lazymatch goal with
  | |- spec _ _ _ (mbind _ (image_open ?E ?p)) =>
      eapply (spec_bind _ _ (λ im, image_size im = native_size E p));
      [by apply image_open_size|intros ? ?]
  | |- spec _ _ _ (mbind _ (resize _ _ _)) =>
      eapply (spec_bind _ _ any);
      [apply resize_spec; intros ? ? [= <- <-]; eexists;
       match goal with
       | H : image_size _ = native_size _ _, Hg : geometry _ _ = _ |- _ =>
           rewrite <- H, Hg; reflexivity
       end
      |intros ? _]
  | _ => emits_step ltac:(done) ltac:(done)
  end.

Lemma prepare_resizes E config output_dir :
  spec (resizes_to_geometry E config) any any (prepare E config output_dir).
Proof.
  unfold prepare, prepare_controlnet, prepare_t2i_adapter, prepare_ip_adapter,
    prepare_image_variation, prepare_image_to_image, prepare_inpaint,
    image_to_image_body, inpaint_body.
  repeat resize_step.
Qed.

Lemma main_resizes E config :
  spec (resizes_to_geometry E config) any any (main E config).
Proof.
  unfold main.
  eapply (spec_bind _ _ any); [emits_go ltac:(done)|intros output_dir _].
  eapply (spec_bind _ _ any); [emits_go ltac:(done)|intros _ _].
  eapply (spec_bind _ _ any); [apply prepare_resizes|intros s _].
  emits_go ltac:(done).
Qed.

(** C10.  In every run, whatever the scale ratio, every pipeline call of
    either loop gets the configured height and width, 512 when absent; the
    target geometry, which is where the scale ratio enters, is the size of
    the resized images and of nothing else. *)
Theorem pipeline_calls_use_configured_size E config :
  Forall (fixed_geometry config) (run E config).2 ∧
  Forall (resizes_to_geometry E config) (run E config).2.
Proof.
  split.
  - refine (proj1 (spec_run E _ any any config _)).
    emits_go ltac:(by (intros ? ? ? [=]; subst)).
  - exact (proj1 (spec_run E _ any any config (main_resizes E config))).
Qed.

(** ** Task dispatch *)

Lemma eq_str_false (v : option string) (lit : string) :
  v ≠ Some lit → eq_str v lit = false.
Proof. intros H. unfold eq_str. by apply bool_decide_eq_false. Qed.

Lemma not_recognized (task : option string) :
  task ∉ recognized_tasks ↔
  task ≠ Some "t2i" ∧ task ≠ Some "t2i_accelerate" ∧
  task ≠ Some "controlnet" ∧ task ≠ Some "ip_adapter".
Proof.
  unfold recognized_tasks. rewrite !not_elem_of_cons.
  split; [by intros (? & ? & ? & ? & _)|].
  intros (? & ? & ? & ?). split_and!; [done..|]. apply not_elem_of_nil.
Qed.

Lemma get_config_spec E config :
  spec pre_dispatch_event (fails_before_dispatch E config) any
    (get_config E config).
Proof.
  unfold get_config.
  emits_steps ltac:(done) ltac:(idtac).
  - intros Hn Hs. by right.
  - intros h Hf. left. by eexists _, _.
Qed.

(** The run of a configuration whose task the dispatch rejects. *)
Lemma dispatch_rejects E config :
  cfg_task config ∉ recognized_tasks →
  spec pre_dispatch_event
    (λ e, e = NotImplementedError ∨ fails_before_dispatch E config e)
    (λ _, False) (main E config).
Proof.
  intros Ht. unfold main.
  eapply (spec_bind _ _ any).
  { eapply spec_conseq; [apply get_config_spec|done|]. intros e He. by right. }
  intros output_dir _. eapply (spec_bind _ _ (λ _, False)); [|done].
  unfold load_pipeline.
  apply not_recognized in Ht as (? & ? & ? & ?).
  rewrite !eq_str_false by done.
  eapply (spec_bind _ _ (λ _, False)); [|done].
  apply spec_raise. by left.
Qed.

Lemma dispatch_rejects_run E config :
  cfg_task config ∉ recognized_tasks →
  ∃ e, (run E config).1 = Raise e ∧
       Forall pre_dispatch_event (run E config).2 ∧
       (e = NotImplementedError ∨ fails_before_dispatch E config e) ∧
       (quiet E → has_experiment_name E config → e = NotImplementedError).
Proof.
  intros Ht. destruct (spec_run E _ _ _ config (dispatch_rejects E config Ht))
    as [HP Hr].
  destruct (run E config).1 as [[]|e]; [done|].
  exists e. repeat split; [done..|].
  intros Hq Hn. destruct Hr as [->|[(dir & h & Hf & _)|(Hs & Hnone & _)]];
    [done| |].
  - by rewrite Hq in Hf.
  - destruct Hn; congruence.
Qed.

(** C7.  A task outside the four recognized values ends the run with an
    exception at the dispatch, where it is [NotImplementedError] unless
    reading the experiment name or creating the output directory already
    failed; no pipeline is loaded and none is called, and the events of the
    run are only the creation of the directory and its message: nothing is
    cleaned up. *)
Theorem unrecognized_task_aborts E config :
  cfg_task config ∉ recognized_tasks →
  ∃ e, (run E config).1 = Raise e ∧
       (∀ loader, EvLoadPipeline loader ∉ (run E config).2) ∧
       (∀ site i args, EvPipeline site i args ∉ (run E config).2) ∧
       Forall pre_dispatch_event (run E config).2 ∧
       (e = NotImplementedError ∨ fails_before_dispatch E config e) ∧
       (quiet E → has_experiment_name E config → e = NotImplementedError).
Proof.
  intros Ht. destruct (dispatch_rejects_run E config Ht) as (e & He & HP & HX).
  destruct HX as [HX HQ]. exists e. pose proof HP as HP'.
  rewrite Forall_forall in HP'. split_and!; [done| | |done..].
  - intros loader Hin. by apply HP' in Hin.
  - intros site i args Hin. by apply HP' in Hin.
Qed.

Lemma unrecognized_task_aborts_witness :
  (run calm_env (task_config (Some "bogus") None ["a"] [] [] [] None None)).1
  = Raise NotImplementedError.
Proof.
  destruct (unrecognized_task_aborts calm_env
              (task_config (Some "bogus") None ["a"] [] [] [] None None))
    as (e & He & _ & _ & _ & _ & Hq).
  - apply (bool_decide_unpack _). vm_compute. exact I.
  - rewrite He. f_equal. apply Hq; [done|]. by right.
Defined.

(** The conversion to grayscale, which only the t2i_adapter preparation
    does, happens in no run. *)
Lemma never_converts E config :
  spec (λ ev, ∀ im, ev ≠ EvConvertL im) any any (main E config).
Proof.
  destruct (decide (cfg_task config = Some "t2i_adapter")) as [Ht|Ht].
  - eapply spec_mono; [apply dispatch_rejects| |done..].
    + rewrite Ht. by apply not_recognized.
    + by intros [] ? ?.
  - apply eq_str_false in Ht. autounfold with prog. rewrite !Ht.
    emits_steps ltac:(by intros ?) ltac:(done).
Qed.

(** C9.  With task "t2i_adapter" the dispatch ends the run: the only events
    are those before the dispatch, so neither the preparation of the
    condition images of lines 100-109 nor the inference loops, with their
    "t2i_adapter" branches, are reached.  And no run of any configuration
    performs the grayscale conversion of that preparation. *)
Theorem t2i_adapter_is_rejected E config :
  (∀ im, EvConvertL im ∉ (run E config).2) ∧
  (cfg_task config = Some "t2i_adapter" →
   ∃ e, (run E config).1 = Raise e ∧
        Forall pre_dispatch_event (run E config).2 ∧
        (∀ path, EvImageOpen path ∉ (run E config).2) ∧
        (∀ site total, EvTqdm site total ∉ (run E config).2) ∧
        (∀ site i args, EvPipeline site i args ∉ (run E config).2) ∧
        (e = NotImplementedError ∨ fails_before_dispatch E config e) ∧
        (quiet E → has_experiment_name E config → e = NotImplementedError)).
Proof.
  split.
  { intros im Hin.
    destruct (spec_run E _ _ _ config (never_converts E config)) as [HP _].
    rewrite Forall_forall in HP. by apply (HP _ Hin im). }
  intros Ht. destruct (dispatch_rejects_run E config) as (e & He & HP & HX).
  { rewrite Ht. by apply not_recognized. }
  destruct HX as [HX HQ]. exists e. pose proof HP as HP'.
  rewrite Forall_forall in HP'. split_and!; [done..| | | |done|done].
  - intros path Hin. by apply HP' in Hin.
  - intros site total Hin. by apply HP' in Hin.
  - intros site i args Hin. by apply HP' in Hin.
Qed.

Lemma t2i_adapter_is_rejected_witness :
  (run calm_env
     (task_config (Some "t2i_adapter") None ["a"] [] [] [] None None)).1
  = Raise NotImplementedError.
Proof.
  destruct (proj2 (t2i_adapter_is_rejected calm_env
              (task_config (Some "t2i_adapter") None ["a"] [] [] [] None
                 None)) eq_refl)
    as (e & He & _ & _ & _ & _ & _ & Hq).
  rewrite He. f_equal. apply Hq; [done|]. by right.
Defined.

(** ** Loading the adapter *)

Lemma last_cons_snoc {A} (x : A) (l : list A) (y z : A) :
  last (x :: l ++ [y; z]) = Some z.
Proof.
  replace (x :: l ++ [y; z]) with ((x :: l ++ [y]) ++ [z])
    by (simpl; by rewrite <- app_assoc).
  apply last_snoc.
Qed.

Lemma read_state_dict_raises E file h e h' :
  read_state_dict E file h = (Raise e, h') →
  ∃ t' key, h' = h ++ t' ++ [EvGetTensor file key] ∧
            Forall norm_event t' ∧
            fails E (h ++ t') (EvGetTensor file key) = true.
Proof.
  unfold read_state_dict. generalize (∅ : gmap string (string * string)).
  revert h. induction (safetensors_keys E file) as [|key keys IH];
    intros h sd Hrun; [done|].
  rewrite for_each_cons in Hrun. unfold mbind, M_bind, call in Hrun.
  destruct (fails E h (EvGetTensor file key)) eqn:Hf; simpl in Hrun.
  - injection Hrun as <- <-. exists [], key. by rewrite app_nil_r.
  - apply IH in Hrun as (t' & key' & -> & Ht' & Hf').
    exists (EvGetTensor file key :: t'), key'.
    rewrite <- app_assoc in Hf'. rewrite <- !app_assoc. simpl.
    split_and!; [done|by constructor|done].
Qed.

(** C6.  Called with an adapter path, [load_resadapter] first works on the
    normalization file: either it prints that the normalization was loaded,
    or one of its external calls raised and, right after it, the message of
    the handler is printed (for a file that cannot be opened the events are
    just the attempt and the message).  In both cases the lora weights are
    loaded next, under the adapter name "res_adapter"; the function raises
    exactly when that call does. *)
Theorem load_resadapter_best_effort E config dir h :
  cfg_res_adapter_model config = Some dir →
  let norm := os_path_join dir NORM_WEIGHTS_NAME in
  let lora :=
    EvLoadLoraWeights (os_path_join dir LORA_WEIGHTS_NAME) "res_adapter" in
  let loaded :=
    EvPrint ("Load normalization safetensors from " +:+ norm +:+ ".") in
  let missing :=
    EvPrint "There is no normalization safetensors, we can only load lora safetensors for resolution interpolation." in
  ∃ t, (load_resadapter E config h).2 = h ++ t ++ [lora] ∧
       Forall norm_event t ∧
       (load_resadapter E config h).1
       = (if fails E (h ++ t) lora then Raise (ExternalError lora)
          else Ok ()) ∧
       (last t = Some loaded ∨
        ∃ t' ev, t = t' ++ [ev; missing] ∧ fails E (h ++ t') ev = true) ∧
       (fails E h (EvSafeOpen norm) = true → t = [EvSafeOpen norm; missing]).
Proof.
  intros Hm norm lora loaded missing.
  unfold load_resadapter. rewrite Hm.
  assert (spec norm_event any any (read_state_dict E norm)) as Hloop
    by (unfold read_state_dict; emits_steps ltac:(done) ltac:(done)).
  pose proof (read_state_dict_raises E norm) as Hraise.
  revert Hloop Hraise. generalize (read_state_dict E). intros loop Hloop Hraise.
  unfold try_except, mbind, M_bind, getattr, as_str, mret, M_ret, call, emit.
  simpl. fold norm lora loaded missing.
  destruct (fails E h (EvSafeOpen norm)) eqn:Hopen; simpl.
  { exists [EvSafeOpen norm; missing].
    rewrite <- ?app_assoc. simpl. split_and!; [done| |done| |done].
    - by repeat constructor.
    - right. exists [], (EvSafeOpen norm). by rewrite app_nil_r. }
  destruct (Hloop (h ++ [EvSafeOpen norm])) as (t1 & Ht1 & HP1 & _).
  specialize (Hraise (h ++ [EvSafeOpen norm])).
  destruct (loop norm (h ++ [EvSafeOpen norm])) as [[sd|e] h1];
    simpl in Ht1; subst h1.
  - destruct (fails E _ (EvLoadStateDict sd)) eqn:Hsd; simpl.
    + exists ([EvSafeOpen norm] ++ t1 ++ [EvLoadStateDict sd; missing]).
      rewrite <- ?app_assoc. simpl. rewrite <- ?app_assoc. simpl.
      split_and!; [done| |done| |done].
      * constructor; [done|]. apply Forall_app; split; [done|].
        by repeat constructor.
      * right. exists (EvSafeOpen norm :: t1), (EvLoadStateDict sd).
        split; [done|]. by rewrite <- app_assoc in Hsd.
    + exists ([EvSafeOpen norm] ++ t1 ++ [EvLoadStateDict sd; loaded]).
      rewrite <- ?app_assoc. simpl. rewrite <- ?app_assoc. simpl.
      split_and!; [done| |done| |done].
      * constructor; [done|]. apply Forall_app; split; [done|].
        by repeat constructor.
      * left. apply last_cons_snoc.
  - destruct (Hraise e _ eq_refl) as (t' & key & Heq & Ht' & Hf).
    apply app_inv_head in Heq. subst t1.
    exists ([EvSafeOpen norm] ++ (t' ++ [EvGetTensor norm key]) ++ [missing]).
    rewrite <- ?app_assoc. simpl. rewrite <- ?app_assoc. simpl.
    split_and!; [done| |done| |done].
    + constructor; [done|]. apply Forall_app; split; [done|].
      by repeat constructor.
    + right. exists (EvSafeOpen norm :: t'), (EvGetTensor norm key).
      split; [done|]. by rewrite <- app_assoc in Hf.
Qed.


Lemma load_resadapter_witness :
  let r := load_resadapter calm_env
             (task_config (Some "t2i") None ["a"] [] [] [] (Some "ra") None)
             [] in
  r.1 = Ok () ∧
  last r.2
  = Some (EvLoadLoraWeights "ra/pytorch_lora_weights.safetensors"
            "res_adapter").
Proof.
  destruct (load_resadapter_best_effort calm_env
              (task_config (Some "t2i") None ["a"] [] [] [] (Some "ra") None)
              "ra" []) as (t & Ht & _ & Hr & _); [reflexivity|].
  intros r. subst r. split; [rewrite Hr; reflexivity|].
  rewrite Ht, app_nil_l. apply last_snoc.
Defined.

(** ** The controlnet task *)

Lemma load_resadapter_spec E (P : event → Prop) (X : exn → Prop) config dir :
  cfg_res_adapter_model config = Some dir →
  (∀ ev, norm_event ev → P ev) →
  P (EvLoadLoraWeights (os_path_join dir LORA_WEIGHTS_NAME) "res_adapter") →
  (∀ ev h, fails E h ev = true → X (ExternalError ev)) →
  spec P X any (load_resadapter E config).
Proof.
  intros Hm HP Hl HX. unfold load_resadapter, read_state_dict. rewrite Hm.
  eapply (spec_bind _ _ any).
  { emits_steps ltac:(by apply HP) ltac:(done). }
  intros _ _. eapply (spec_bind _ _ (λ v, v = Some dir));
    [by apply spec_getattr|].
  intros ? ->. eapply (spec_bind _ _ (λ s, Some dir = Some s));
    [by apply spec_as_str|].
  intros ? [= <-]. apply spec_call; [done|]. intros h. apply HX.
Qed.

Lemma assemble_kwargs_baseline_unbound (P : event → Prop) (X : exn → Prop)
    i s :
  sub_task s = None → X (UnboundLocalError "sub_task") →
  spec P X (λ _, False) (assemble_kwargs_baseline (Some "controlnet") i s).
Proof.
  intros Hs HX. unfold assemble_kwargs_baseline. eval_eq_str.
  eapply (spec_bind _ _ (λ s', s' = s)); [by apply spec_ret|]. intros ? ->.
  do 2 (eapply (spec_bind _ _ (λ _, False)); [|done]).
  rewrite Hs. by apply spec_raise.
Qed.

Lemma assemble_kwargs_resadapter_unbound (P : event → Prop) (X : exn → Prop)
    i s :
  sub_task s = None → X (UnboundLocalError "sub_task") →
  spec P X (λ _, False) (assemble_kwargs_resadapter (Some "controlnet") i s).
Proof.
  intros Hs HX. unfold assemble_kwargs_resadapter. eval_eq_str.
  eapply (spec_bind _ _ (λ s', s' = s)); [by apply spec_ret|]. intros ? ->.
  do 2 (eapply (spec_bind _ _ (λ _, False)); [|done]).
  rewrite Hs. by apply spec_raise.
Qed.

(** The preparation of the controlnet task leaves [sub_task] unbound. *)
Lemma prepare_controlnet_unbound E (X : exn → Prop) config output_dir :
  cfg_task config = Some "controlnet" →
  (∀ ev h, fails E h ev = true → X (ExternalError ev)) →
  spec no_pipeline_call X (λ s, sub_task s = None)
    (prepare E config output_dir).
Proof.
  intros Ht HX. unfold prepare. rewrite Ht. eval_eq_str.
  eapply (spec_bind _ _ (λ s, sub_task s = None)).
  { unfold prepare_controlnet, image_open, resize.
    eapply (spec_bind _ _ any).
    - emits_steps ltac:(by intros ? ? ?) ltac:(intros ?; apply HX).
    - intros [cs ss] _. by apply spec_ret. }
  intros s Hs. eapply (spec_bind _ _ (λ s', s' = s)); [by apply spec_ret|].
  intros ? ->. by apply spec_ret.
Qed.

Lemma controlnet_run_spec E config prompt prompts :
  cfg_task config = Some "controlnet" →
  cfg_prompts config = Some (prompt :: prompts) →
  spec no_pipeline_call
    (λ e, e = UnboundLocalError "sub_task" ∨ fails_before_loops E config e)
    (λ _, False) (main E config).
Proof.
  intros Ht Hp.
  assert (∀ ev h, fails E h ev = true →
            ExternalError ev = UnboundLocalError "sub_task"
            ∨ fails_before_loops E config (ExternalError ev)) as HX.
  { intros ev h Hf. right. left. by eexists _, _. }
  unfold main.
  eapply (spec_bind _ _ any).
  { eapply spec_mono; [apply get_config_spec|by intros [] ? ? ? ?|done|].
    intros e [(dir & h & Hf & ->)|(Hs & Hn & ->)]; [by eapply HX|].
    right. right. split; [done|]. by left. }
  intros output_dir _. eapply (spec_bind _ _ any).
  { unfold load_pipeline. rewrite Ht. eval_eq_str.
    emits_steps ltac:(by intros ? ? ?) ltac:(intros ?; apply HX). }
  intros _ _. eapply spec_bind; [by apply prepare_controlnet_unbound|].
  intros s Hs. unfold inference, inference_from.
  eapply (spec_bind _ _ any).
  { destruct (cfg_seed config) as [seed|] eqn:Hseed; simpl; [|by apply spec_ret].
    emits_steps ltac:(by intros ? ? ?) ltac:(first [done|intros ?; apply HX]). }
  intros generator _. eapply (spec_bind _ _ any).
  { unfold enable_compare.
    emits_steps ltac:(by intros ? ? ?) ltac:(idtac).
    intros Hn Hst. right. right. split; [done|]. by right. }
  intros [] _.
  - (* the baseline loop *)
    eapply (spec_bind _ _ (λ _, False)); [|done].
    eapply (spec_bind _ _ (λ _, False)); [|done].
    unfold baseline_loop. rewrite Hp, Ht. simpl.
    eapply (spec_bind _ _ any); [by apply spec_emit|]. intros _ _.
    eapply (spec_bind _ _ (λ _, False)); [|done].
    eapply (spec_bind _ _ (λ _, False)); [|done].
    apply assemble_kwargs_baseline_unbound; [done|by left].
  - eapply (spec_bind _ _ (λ r, r = (s, None))); [by apply spec_ret|].
    intros ? ->. eapply (spec_bind _ _ any).
    { destruct (cfg_res_adapter_model config) as [dir|] eqn:Hm; simpl;
        [|by apply spec_ret].
      case_bool_decide; [|by apply spec_ret].
      eapply (spec_bind _ _ any).
      { eapply load_resadapter_spec; [done| |by intros ? ? ?|done].
        intros [] Hev; try done; by intros ? ? ?. }
      intros _ _.
      emits_steps ltac:(by intros ? ? ?) ltac:(first [done|intros ?; apply HX]). }
    intros _ _. rewrite Ht. eapply (spec_bind _ _ any).
    { by eapply spec_weaken, spec_getattr. }
    intros task _. eapply (spec_bind _ _ any).
    { emits_steps ltac:(by intros ? ? ?) ltac:(intros ?; apply HX). }
    intros _ _. eapply (spec_bind _ _ (λ _, False)); [|done].
    unfold resadapter_loop. rewrite Hp, Ht. simpl.
    eapply (spec_bind _ _ any); [by apply spec_emit|]. intros _ _.
    eapply (spec_bind _ _ (λ _, False)); [|done].
    eapply (spec_bind _ _ (λ _, False)); [|done].
    apply assemble_kwargs_resadapter_unbound; [done|by left].
Qed.

(** C3.  With task "controlnet" and at least one prompt the run never
    returns: it ends with an exception, which is the unbound local
    [sub_task] of the first iteration unless an earlier step already failed
    (an external call, or a missing attribute); no pipeline call is made,
    not even for the first prompt. *)
Theorem controlnet_aborts_unbound_sub_task E config prompt prompts :
  cfg_task config = Some "controlnet" →
  cfg_prompts config = Some (prompt :: prompts) →
  ∃ e, (run E config).1 = Raise e ∧
       (∀ site i args, EvPipeline site i args ∉ (run E config).2) ∧
       (e = UnboundLocalError "sub_task" ∨ fails_before_loops E config e) ∧
       (quiet E → has_attributes E config → e = UnboundLocalError "sub_task").
Proof.
  intros Ht Hp.
  destruct (spec_run E _ _ _ config
              (controlnet_run_spec E config prompt prompts Ht Hp))
    as [HP Hr].
  destruct (run E config).1 as [[]|e]; [done|].
  exists e. split_and!; [done| |done|].
  - intros site i args Hin. rewrite Forall_forall in HP.
    by apply (HP _ Hin site i args).
  - intros Hq Ha.
    destruct Hr as [->|[(ev & h & Hf & _)|(Hs & Hn)]]; [done| |].
    + by rewrite Hq in Hf.
    + destruct Ha as [Ha|[Ha1 Ha2]]; [congruence|].
      by destruct Hn as [[Hn _]|[Hn _]].
Qed.

Lemma controlnet_aborts_unbound_sub_task_witness :
  (run calm_env
     (task_config (Some "controlnet") (Some "text_to_image")
        ["a prompt"] ["source.png"] [] [] None (Some false))).1
  = Raise (UnboundLocalError "sub_task").
Proof.
  destruct (controlnet_aborts_unbound_sub_task calm_env
              (task_config (Some "controlnet") (Some "text_to_image")
                 ["a prompt"] ["source.png"] [] [] None (Some false))
              "a prompt" [] eq_refl eq_refl)
    as (e & He & _ & _ & Hq).
  rewrite He. f_equal. apply Hq; [done|]. by right.
Defined.

(** ** The keyword arguments *)

(** C1, at the failing input.  A controlnet / text_to_image run with one
    prompt and one source image prepares the condition image, starts the
    loop, and raises on reading [sub_task]: the pipeline is never called, so
    [image = condition_images[0]] is never passed. *)
Theorem controlnet_text_to_image_run :
  run calm_env
    (task_config (Some "controlnet") (Some "text_to_image")
       ["a prompt"] ["inputs/source.png"] [] [] None None)
  = (Raise (UnboundLocalError "sub_task"),
     [EvMakedirs "samples/demo-2024-01-01T00-00-00";
      EvPrint "Create samples/demo-2024-01-01T00-00-00";
      EvLoadPipeline "load_controlnet_pipeline";
      EvTo "cuda:0";
      EvImageOpen "inputs/source.png";
      EvResize (Opened "inputs/source.png" (801, 601)) (512, 512);
      EvCanny (Resized (Opened "inputs/source.png" (801, 601)) (512, 512)) 100 200;
      EvImageSave
        (CannyRGB (Resized (Opened "inputs/source.png" (801, 601)) (512, 512)))
        "samples/demo-2024-01-01T00-00-00/condition_source.jpg";
      EvTqdm ResAdapter 1]).
Proof. vm_compute. reflexivity. Qed.

(** ** The decision to compare with the baseline *)

Lemma enable_compare_spec E (P : event → Prop) config :
  spec P any (λ b, b = true → compare_enabled config)
    (enable_compare E config).
Proof.
  unfold enable_compare, compare_enabled. case_bool_decide as Hm.
  - by apply spec_ret.
  - eapply (spec_bind _ _ (λ v, v = cfg_enable_compare config));
      [by apply spec_getattr|].
    intros ? ->. apply spec_ret.
    by destruct (cfg_enable_compare config) as [[]|].
Qed.

(** Without the comparison, no event of the comparison occurs. *)
Lemma no_compare_spec E config :
  ¬ compare_enabled config →
  spec (λ ev, ¬ compare_event ev) any any (main E config).
Proof.
  intros Hen. unfold main.
  eapply (spec_bind _ _ any);
    [emits_go ltac:(by intros ?)|intros output_dir _].
  eapply (spec_bind _ _ any); [emits_go ltac:(by intros ?)|intros _ _].
  eapply (spec_bind _ _ any); [emits_go ltac:(by intros ?)|intros s _].
  unfold inference, inference_from.
  eapply (spec_bind _ _ any); [emits_go ltac:(by intros ?)|intros generator _].
  eapply (spec_bind _ _ (λ b, b = false)).
  { eapply spec_conseq; [apply enable_compare_spec| |done].
    intros [] Hb; [by destruct Hen; apply Hb|done]. }
  intros ? ->. emits_go ltac:(by intros ?).
Qed.

Lemma spec_ok {A} (P : event → Prop) (R : A → Prop) (m : M A) h :
  spec P (λ _, False) R m → ∃ a t, m h = (Ok a, h ++ t) ∧ R a.
Proof.
  intros Hm. destruct (Hm h) as (t & Ht & _ & Hr).
  destruct (m h) as [[a|e] h']; simpl in *; [|done]. subst h'. by eexists _, _.
Qed.

Lemma bind_run {A B} (m : M A) (f : A → M B) h a h' :
  m h = (Ok a, h') → (m ≫= f) h = f a h'.
Proof. intros Hm. unfold mbind, M_bind. by rewrite Hm. Qed.

Lemma starts_with_emit {A} (ev : event) (f : () → M A) :
  (∀ u, spec any any any (f u)) → starts_with ev (emit ev ≫= f).
Proof.
  intros Hf h. destruct (Hf () (h ++ [ev])) as (t & Ht & _).
  exists t. unfold mbind, M_bind, emit. rewrite Ht. by rewrite <- app_assoc.
Qed.

Lemma starts_with_bind {A B} (ev : event) (m : M A) (f : A → M B) :
  starts_with ev m → (∀ a, spec any any any (f a)) →
  starts_with ev (m ≫= f).
Proof.
  intros Hm Hf h. destruct (Hm h) as (t & Ht).
  unfold mbind, M_bind. destruct (m h) as [[a|e] h']; simpl in *; subst h'.
  - destruct (Hf a (h ++ ev :: t)) as (t' & Ht' & _).
    exists (t ++ t'). rewrite Ht'. by rewrite <- app_assoc.
  - by exists t.
Qed.

(** Steps 1 to 3 of [main] succeed when no external call raises. *)
Ltac quiet_steps Hq :=
  emits_steps ltac:(done)
    ltac:(first [ done
                | by (let Hf := fresh in intros ? Hf; rewrite Hq in Hf)
                | by (let Hn := fresh in
                      intros Hn _; rewrite Hn in *; simpl in *) ]).

Lemma get_config_ok E config :
  quiet E → has_experiment_name E config →
  spec any (λ _, False) any (get_config E config).
Proof.
  intros Hq Hn. unfold get_config. eapply (spec_bind _ _ any).
  { eapply spec_weaken, spec_getattr. intros Hnone Hs.
    destruct Hn; congruence. }
  intros experiment_name _. quiet_steps Hq.
Qed.

Lemma load_pipeline_ok E config :
  quiet E → cfg_task config ∈ recognized_tasks →
  spec any (λ _, False) any (load_pipeline E config).
Proof.
  intros Hq Ht. unfold recognized_tasks in Ht.
  rewrite !elem_of_cons, elem_of_nil in Ht.
  unfold load_pipeline.
  destruct Ht as [Ht|[Ht|[Ht|[Ht|[]]]]]; rewrite Ht; eval_eq_str;
    quiet_steps Hq.
Qed.

Lemma prepare_ok E config output_dir :
  quiet E → accepted config →
  spec any (λ _, False) any (prepare E config output_dir).
Proof.
  intros Hq [Ht Hsub]. unfold recognized_tasks in Ht.
  rewrite !elem_of_cons, elem_of_nil in Ht.
  unfold prepare.
  destruct Ht as [Ht|[Ht|[Ht|[Ht|[]]]]]; rewrite Ht; eval_eq_str.
  - quiet_steps Hq.
  - quiet_steps Hq.
  - autounfold with prog. quiet_steps Hq.
  - specialize (Hsub Ht). rewrite !elem_of_cons, elem_of_nil in Hsub.
    eapply (spec_bind _ _ any); [by apply spec_ret|]. intros s _.
    eapply (spec_bind _ _ any); [by apply spec_ret|]. intros s' _.
    unfold prepare_ip_adapter.
    destruct Hsub as [Hs|[Hs|[Hs|[]]]]; rewrite Hs; eval_eq_str;
      autounfold with prog; quiet_steps Hq.
Qed.

Lemma reaches_baseline_loop E config :
  quiet E → has_attributes E config → accepted config →
  compare_enabled config →
  ∃ h t, (run E config).2
         = h ++ EvTqdm Baselines (length (get (cfg_prompts config) [])) :: t.
Proof.
  intros Hq Ha Hacc [Hm Hf]. unfold run, main.
  destruct (spec_ok any any (get_config E config) [])
    as (output_dir & t0 & H0 & _).
  { apply get_config_ok; [done|]. destruct Ha as [?|[? ?]]; [by left|by right]. }
  rewrite (bind_run _ _ _ _ _ H0).
  destruct (spec_ok any any (load_pipeline E config) ([] ++ t0))
    as ([] & t1 & H1 & _).
  { apply load_pipeline_ok; [done|apply Hacc]. }
  rewrite (bind_run _ _ _ _ _ H1).
  destruct (spec_ok any any (prepare E config output_dir) (([] ++ t0) ++ t1))
    as (s & t2 & H2 & _).
  { by apply prepare_ok. }
  rewrite (bind_run _ _ _ _ _ H2). unfold inference, inference_from.
  match goal with |- context [mbind _ ?m _] =>
    destruct (spec_ok any any m ((([] ++ t0) ++ t1) ++ t2))
      as (generator & t3 & H3 & _)
  end.
  { quiet_steps Hq. }
  rewrite (bind_run _ _ _ _ _ H3).
  destruct (spec_ok any (λ b, b = true) (enable_compare E config)
              (((([] ++ t0) ++ t1) ++ t2) ++ t3)) as (? & t4 & H4 & ->).
  { unfold enable_compare. rewrite bool_decide_eq_false_2 by done. rewrite Hf.
    eapply (spec_bind _ _ (λ v, v = Some true)); [by apply spec_getattr|].
    intros ? ->. by apply spec_ret. }
  rewrite (bind_run _ _ _ _ _ H4).
  eexists. eapply starts_with_bind; [|intros; emits_go ltac:(done)].
  eapply starts_with_bind; [|intros; emits_go ltac:(done)].
  unfold baseline_loop. apply starts_with_emit.
  intros. emits_go ltac:(done).
Qed.

(** With an empty adapter path the compare flag is not read: the run is the
    same whatever the flag, present or absent. *)
Lemma enable_compare_not_read E config flag :
  get (cfg_res_adapter_model config) "" = "" →
  run E (with_enable_compare flag config) = run E config.
Proof.
  intros Hm. unfold run, main.
  change (get_config E (with_enable_compare flag config))
    with (get_config E config).
  change (load_pipeline E (with_enable_compare flag config))
    with (load_pipeline E config).
  unfold mbind, M_bind.
  destruct (get_config E config []) as [[output_dir|e] h0]; [|done].
  destruct (load_pipeline E config h0) as [[[]|e] h1]; [|done].
  change (prepare E (with_enable_compare flag config))
    with (prepare E config).
  destruct (prepare E config output_dir h1) as [[s|e] h2]; [|done].
  unfold inference, inference_from, enable_compare. simpl cfg_res_adapter_model.
  rewrite (bool_decide_eq_true_2 _ Hm).
  rewrite (bool_decide_eq_false_2 (get (cfg_res_adapter_model config) "" ≠ ""))
    by (intros Hne; apply Hne, Hm).
  reflexivity.
Qed.

Lemma compare_enabled_dec config :
  compare_enabled config ∨ ¬ compare_enabled config.
Proof.
  unfold compare_enabled.
  destruct (decide (get (cfg_res_adapter_model config) "" = "")) as [Hm|Hm];
    [right; by intros [? _]|].
  destruct (cfg_enable_compare config) as [[]|];
    [by left|right; by intros [_ ?]..].
Qed.

(** ** Preparation of paired inputs *)

Lemma zip_take {A B} (l : list A) (k : list B) :
  zip l k = zip (take (length l `min` length k)%nat l)
                (take (length l `min` length k)%nat k).
Proof.
  revert k. induction l as [|x l IH]; intros [|y k]; simpl; [done..|].
  by rewrite <- IH.
Qed.

Lemma fmap_zip_snd {A B C} (f : B → C) (l : list A) (k : list B) :
  (λ p, f p.2) <$> zip l k = f <$> take (length l `min` length k)%nat k.
Proof.
  revert k. induction l as [|x l IH]; intros [|y k]; simpl; [done..|].
  by rewrite <- IH.
Qed.

Lemma length_zip {A B} (l : list A) (k : list B) :
  length (zip l k) = (length l `min` length k)%nat.
Proof.
  revert k. induction l as [|x l IH]; intros [|y k]; simpl; [done..|].
  by rewrite IH.
Qed.

Lemma image_to_image_body_quiet E config (Hq : quiet E) ip_image_path
    image_path (ips srcs : list image) h :
  image_to_image_body E config (ip_image_path, image_path) (ips, srcs) h
  = (Ok (ips ++ [resized_to E config ip_image_path image_path],
         srcs ++ [resized_to E config image_path image_path]),
     h ++ pair_events E config (ip_image_path, image_path)).
Proof.
  unfold image_to_image_body, image_open, resize, resized_to, pair_events,
    open_resize.
  unfold mbind, M_bind, mret, M_ret, call. simpl. rewrite Hq. simpl.
  destruct (geometry config (native_size E image_path)) as [width height].
  rewrite ?Hq. simpl. rewrite ?Hq. simpl. by rewrite <- ?app_assoc.
Qed.

Lemma inpaint_body_quiet E config (Hq : quiet E) ip_image_path image_path
    mask_path (srcs masks ips : list image) h :
  inpaint_body E config (ip_image_path, image_path, mask_path)
    (srcs, masks, ips) h
  = (Ok (srcs ++ [resized_to E config image_path image_path],
         masks ++ [resized_to E config mask_path image_path],
         ips ++ [resized_to E config ip_image_path image_path]),
     h ++ triple_events E config (ip_image_path, image_path, mask_path)).
Proof.
  unfold inpaint_body, image_open, resize, resized_to, triple_events,
    open_resize.
  unfold mbind, M_bind, mret, M_ret, call. simpl. rewrite Hq. simpl.
  destruct (geometry config (native_size E image_path)) as [width height].
  rewrite ?Hq. simpl. rewrite ?Hq. simpl. rewrite ?Hq. simpl.
  by rewrite <- ?app_assoc.
Qed.

Lemma image_to_image_loop E config (Hq : quiet E)
    (l : list (string * string)) (ips srcs : list image) h :
  for_each (image_to_image_body E config) l (ips, srcs) h
  = (Ok (ips ++ ((λ p, resized_to E config p.1 p.2) <$> l),
         srcs ++ ((λ p, resized_to E config p.2 p.2) <$> l)),
     h ++ (l ≫= pair_events E config)).
Proof.
  revert ips srcs h.
  induction l as [|[ip_image_path image_path] l IH]; intros ips srcs h.
  - simpl. by rewrite !app_nil_r.
  - rewrite for_each_cons, image_to_image_body_quiet by done.
    rewrite IH, bind_cons, !fmap_cons. simpl. by rewrite <- !app_assoc.
Qed.

Lemma inpaint_loop E config (Hq : quiet E)
    (l : list (string * string * string)) (srcs masks ips : list image) h :
  for_each (inpaint_body E config) l (srcs, masks, ips) h
  = (Ok (srcs ++ ((λ p, resized_to E config p.1.2 p.1.2) <$> l),
         masks ++ ((λ p, resized_to E config p.2 p.1.2) <$> l),
         ips ++ ((λ p, resized_to E config p.1.1 p.1.2) <$> l)),
     h ++ (l ≫= triple_events E config)).
Proof.
  revert srcs masks ips h.
  induction l as [|[[ip_image_path image_path] mask_path] l IH];
    intros srcs masks ips h.
  - simpl. by rewrite !app_nil_r.
  - rewrite for_each_cons, inpaint_body_quiet by done.
    rewrite IH, bind_cons, !fmap_cons. simpl. by rewrite <- !app_assoc.
Qed.

Lemma zip3_take {A B C} (a : list A) (b : list B) (c : list C) :
  zip3 a b c
  = zip3 (take ((length a `min` length b) `min` length c)%nat a)
         (take ((length a `min` length b) `min` length c)%nat b)
         (take ((length a `min` length b) `min` length c)%nat c).
Proof.
  unfold zip3. revert b c.
  induction a as [|x a IH]; intros [|y b] [|z c]; simpl;
    rewrite ?Nat.min_0_r; try done.
  specialize (IH b c). simpl in IH. by rewrite <- IH.
Qed.

Lemma fmap_zip3_mid {A B C D} (f : B → D) (a : list A) (b : list B)
    (c : list C) :
  (λ p, f p.1.2) <$> zip3 a b c
  = f <$> take ((length a `min` length b) `min` length c)%nat b.
Proof.
  unfold zip3. revert b c.
  induction a as [|x a IH]; intros [|y b] [|z c]; simpl;
    rewrite ?Nat.min_0_r; try done.
  by rewrite <- IH.
Qed.

Lemma length_zip3 {A B C} (a : list A) (b : list B) (c : list C) :
  length (zip3 a b c) = ((length a `min` length b) `min` length c)%nat.
Proof. unfold zip3. by rewrite !length_zip. Qed.

(** C8.  When no external call raises, the preparation of the ip_adapter
    sub-task image_to_image returns normally, having opened and resized
    exactly the first [n] reference and source images, paired by position,
    where [n] is the length of the shorter list; that of the sub-task
    inpaint does the same on triples, with [n] the length of the shortest of
    the three lists.  The entries after the first [n] are not touched, and
    nothing is raised. *)
Theorem zip_truncates_to_shortest E config s h :
  quiet E →
  let refs := get (cfg_ip_adapter_images config) [] in
  let srcs := get (cfg_source_images config) [] in
  let masks := get (cfg_mask_images config) [] in
  (cfg_sub_task config = Some "image_to_image" →
   let n := (length refs `min` length srcs)%nat in
   let pairs := zip (take n refs) (take n srcs) in
   ∃ s', prepare_ip_adapter E config s h
         = (Ok s', h ++ (pairs ≫= pair_events E config)) ∧
         source_images s'
         = Some ((λ p, resized_to E config p p) <$> take n srcs) ∧
         ip_adapter_images s'
         = Some ((λ p, resized_to E config p.1 p.2) <$> pairs) ∧
         length pairs = n) ∧
  (cfg_sub_task config = Some "inpaint" →
   let n := ((length refs `min` length srcs) `min` length masks)%nat in
   let triples := zip3 (take n refs) (take n srcs) (take n masks) in
   ∃ s', prepare_ip_adapter E config s h
         = (Ok s', h ++ (triples ≫= triple_events E config)) ∧
         source_images s'
         = Some ((λ p, resized_to E config p p) <$> take n srcs) ∧
         mask_images s'
         = Some ((λ p, resized_to E config p.2 p.1.2) <$> triples) ∧
         ip_adapter_images s'
         = Some ((λ p, resized_to E config p.1.1 p.1.2) <$> triples) ∧
         length triples = n).
Proof.
  intros Hq refs srcs masks. split.
  - intros Hsub n pairs.
    assert (zip refs srcs = pairs) as Hz by apply zip_take.
    unfold prepare_ip_adapter. rewrite Hsub. eval_eq_str.
    unfold prepare_image_to_image. fold refs srcs. rewrite Hz.
    unfold mbind at 1, M_bind. rewrite image_to_image_loop by done.
    eexists. split; [done|]. simpl. split_and!; [|done|].
    + f_equal. rewrite <- Hz.
      apply (fmap_zip_snd (λ p, resized_to E config p p)).
    + rewrite <- Hz. apply length_zip.
  - intros Hsub n triples.
    assert (zip3 refs srcs masks = triples) as Hz by apply zip3_take.
    unfold prepare_ip_adapter. rewrite Hsub. eval_eq_str.
    unfold prepare_inpaint. fold refs srcs masks. rewrite Hz.
    unfold mbind at 1, M_bind. rewrite inpaint_loop by done.
    eexists. split; [done|]. simpl. split_and!; [|done..|].
    + f_equal. rewrite <- Hz.
      apply (fmap_zip3_mid (λ p, resized_to E config p p)).
    + rewrite <- Hz. apply length_zip3.
Qed.

Lemma zip_truncates_to_shortest_witness :
  ∃ s',
    prepare_ip_adapter calm_env
      (task_config (Some "ip_adapter") (Some "image_to_image")
         ["a"; "b"; "c"] ["s0.png"; "s1.png"; "s2.png"] [] ["r0.png"]
         None None)
      no_locals []
    = (Ok s',
       [EvImageOpen "s0.png";
        EvResize (Opened "s0.png" (801, 601)) (512, 512);
        EvImageOpen "r0.png";
        EvResize (Opened "r0.png" (801, 601)) (512, 512)]) ∧
    source_images s'
    = Some [Resized (Opened "s0.png" (801, 601)) (512, 512)].
Proof.
  destruct (proj1 (zip_truncates_to_shortest calm_env
              (task_config (Some "ip_adapter") (Some "image_to_image")
                 ["a"; "b"; "c"] ["s0.png"; "s1.png"; "s2.png"] []
                 ["r0.png"] None None)
              no_locals [] (λ _ _, eq_refl)) eq_refl)
    as (s' & Hrun & Hsrc & _).
  exists s'. split; [exact Hrun|exact Hsrc].
Defined.

(** ** The order of the two passes *)

(** C2, as stated, fails: with the comparison on and two prompts, the
    baseline call for prompt 1 is made before anything of the adapter pass
    for prompt 0. *)
Lemma baseline_pass_runs_first :
  let config := task_config (Some "t2i") None ["a"; "b"] [] [] []
                  (Some "ra") (Some true) in
  compare_enabled config ∧
  length (get (cfg_prompts config) []) = 2%nat ∧
  omap prompt_index (run calm_env config).2
  = [0; 1; 0; 0; 0; 1; 1; 1]%nat ∧
  ¬ one_prompt_at_a_time (run calm_env config).2.
Proof.
  split_and!; [by split|done|by vm_compute|].
  unfold one_prompt_at_a_time. intros Hs. vm_compute in Hs.
  apply StronglySorted_cons in Hs as [_ Hs].
  apply StronglySorted_cons in Hs as [Hs _].
  apply Forall_cons in Hs as [Hs _]. lia.
Qed.

Lemma phase_le_refl p : phase_le p p.
Proof. unfold phase_le. lia. Qed.

Lemma phase_le_trans p q r : phase_le p q → phase_le q r → phase_le p r.
Proof. unfold phase_le. lia. Qed.

Lemma omap_at_phase p t :
  Forall (at_phase p) t → Forall (λ q, q = p) (omap phase t).
Proof.
  induction 1 as [|ev t [[Hev|Hev] _] _ IH]; simpl; [done|by rewrite Hev|].
  rewrite Hev. by constructor.
Qed.

Lemma constant_sorted p (l : list (nat * nat * nat)) :
  Forall (λ q, q = p) l → StronglySorted phase_le l.
Proof.
  induction 1 as [|q l -> Hl IH]; constructor; [done|].
  eapply Forall_impl; [done|]. intros ? ->. apply phase_le_refl.
Qed.

Lemma below_mono p q h : below p h → phase_le p q → below q h.
Proof.
  intros [Hs Hb] Hpq. split; [done|].
  eapply Forall_impl; [done|]. intros r Hr.
  exact (phase_le_trans _ _ _ Hr Hpq).
Qed.

Lemma below_app p h t : below p h → Forall (at_phase p) t → below p (h ++ t).
Proof.
  intros [[Hs Hrows] Hb] Ht.
  assert (Forall rows_of_one_prompt t) as Hrows'
    by (eapply Forall_impl; [done|]; by intros ? [_ ?]).
  apply omap_at_phase in Ht.
  unfold below, pass_by_pass. rewrite omap_app. split_and!.
  - apply StronglySorted_app. split_and!; [|done|by eapply constant_sorted].
    intros x1 x2 H1 H2. rewrite Forall_forall in Hb, Ht.
    rewrite (Ht x2 H2). by apply Hb.
  - by apply Forall_app.
  - apply Forall_app. split; [done|].
    eapply Forall_impl; [done|]. intros ? ->. apply phase_le_refl.
Qed.

Lemma keeps_spec {A} p (X : exn → Prop) (R : A → Prop) (m : M A) :
  spec (at_phase p) X R m → keeps p p R m.
Proof.
  intros Hm h Hh. destruct (Hm h) as (t & Ht & HP & Hr).
  rewrite Ht. split; [by apply below_app|].
  intros a Ha. by rewrite Ha in Hr.
Qed.

Lemma keeps_mono {A} p p' q q' (R R' : A → Prop) (m : M A) :
  keeps p q R m → phase_le p' p → phase_le q q' → (∀ a, R a → R' a) →
  keeps p' q' R' m.
Proof.
  intros Hm Hp Hq HR h Hh. destruct (Hm h) as [Hb Hr].
  { by eapply below_mono. }
  split; [by eapply below_mono|]. intros a Ha. by apply HR, Hr.
Qed.

Lemma keeps_bind {A B} p q r (R1 : A → Prop) (R : B → Prop) (m : M A)
    (f : A → M B) :
  keeps p q R1 m → (∀ a, R1 a → keeps q r R (f a)) → phase_le q r →
  keeps p r R (m ≫= f).
Proof.
  intros Hm Hf Hqr h Hh. destruct (Hm h Hh) as [Hb Hr].
  unfold mbind, M_bind. destruct (m h) as [[a|e] h']; simpl in *.
  - by apply Hf; [apply Hr|].
  - split; [by eapply below_mono|done].
Qed.

(** A loop over the prompts: the iteration of prompt [i] goes from the
    call of prompt [i] to the saves of prompt [i] at most. *)
Lemma keeps_for_enumerate {A St} (c : nat) (I : nat → St → Prop)
    (body : nat → A → St → M St) (l : list A) (i : nat) (s : St) :
  (∀ i x s, I i s →
            keeps (c, i, 0)%nat (c, i, 1)%nat (I (S i)) (body i x s)) →
  I i s →
  keeps (c, i, 0)%nat (c, i + length l, 0)%nat (I (i + length l)%nat)
    (for_enumerate body i l s).
Proof.
  intros Hb. revert i s. induction l as [|x l IH]; intros i s Hs; simpl.
  - rewrite Nat.add_0_r. apply (keeps_spec _ any). by apply spec_ret.
  - replace (i + S (length l))%nat with (S i + length l)%nat by lia.
    eapply keeps_bind; [by apply Hb| |unfold phase_le; simpl; lia].
    intros s' Hs'. eapply keeps_mono; [by apply IH| |apply phase_le_refl|done].
    unfold phase_le; simpl; lia.
Qed.

Lemma batches_indexed_snoc batches site n :
  batches_indexed batches →
  batches_indexed (batches ++ [Generated site (length batches) <$> seq 0 n]).
Proof.
  intros Hb k batch Hk. apply lookup_snoc_Some in Hk as [[_ Hk]|[<- <-]].
  - by apply Hb.
  - apply Forall_fmap, Forall_forall. by intros j _.
Qed.

Lemma rows_one_prompt (i : nat) (rows : list tensor) :
  Forall (λ t, tensor_index t = i) rows → rows ≠ [] →
  ∃ t rest, rows = t :: rest ∧ tensor_index t = i ∧
            Forall (λ t', tensor_index t' = tensor_index t) rest.
Proof.
  intros [|t rest Ht Hrest] Hne; [done|]. exists t, rest.
  split_and!; [done..|]. eapply Forall_impl; [done|]. simpl. congruence.
Qed.

Lemma at_phase_save (i : nat) (rows : list tensor) file :
  Forall (λ t, tensor_index t = i) rows → rows ≠ [] →
  at_phase (1, i, 1)%nat (EvSaveImage rows file).
Proof.
  intros Hrows Hne.
  destruct (rows_one_prompt i rows Hrows Hne) as (t & rest & -> & <- & Hrest).
  split; [by right|by exists t, rest].
Qed.

Lemma at_phase_stack (i : nat) (rows : list tensor) :
  Forall (λ t, tensor_index t = i) rows → rows ≠ [] →
  at_phase (1, i, 1)%nat (EvStack rows).
Proof.
  intros Hrows Hne.
  destruct (rows_one_prompt i rows Hrows Hne) as (t & rest & -> & <- & Hrest).
  split; [by right|by exists t, rest].
Qed.

(** The events of saving the images of prompt [i] belong to pass 1, prompt
    [i] and step 1, and all their images to prompt [i]. *)
Lemma save_images_spec E config output_dir compare original_images
    resadapter_images i prompt :
  (∀ batch, resadapter_images !! i = Some batch →
            Forall (λ t, tensor_index t = i) batch) →
  (∀ l, original_images = Some l → batches_indexed l) →
  spec (at_phase (1, i, 1)%nat) any any
    (save_images E config output_dir compare original_images
       resadapter_images i prompt).
Proof.
  intros Hr Ho. unfold save_images.
  eapply (spec_bind _ _ any);
    [|intros _ _; by apply spec_emit; split; [left|]].
  destruct compare.
  - apply (spec_for_each _ _ any); [|done]. intros j [] _.
    eapply spec_bind; [by apply spec_index|]. intros ri Hri.
    eapply spec_bind; [by apply spec_index|]. intros a Ha.
    eapply spec_bind; [by apply spec_load_local|]. intros oi Hoi.
    eapply spec_bind; [by apply spec_index|]. intros oi_i Hoi_i.
    eapply spec_bind; [by apply spec_index|]. intros b Hb.
    assert (tensor_index a = i) as Hia
      by exact (Forall_lookup_1 _ _ _ _ (Hr _ Hri) Ha).
    assert (tensor_index b = i) as Hib
      by exact (Forall_lookup_1 _ _ _ _ (Ho _ Hoi _ _ Hoi_i) Hb).
    eapply (spec_bind _ _ any).
    { apply spec_call; [|done]. apply at_phase_stack; [|done].
      by repeat constructor. }
    intros _ _.
    eapply (spec_bind _ _
              (λ ci, Forall (λ t, tensor_index t = i) ci ∧ ci ≠ [])).
    { destruct (flag_truthy (cfg_draw_text config)).
      - apply spec_for_each; [|split; [by repeat constructor|done]].
        intros k compare_image [Hc Hne].
        eapply spec_bind; [by apply spec_index|]. intros row Hrow.
        eapply (spec_bind _ _ any); [by eapply spec_weaken, spec_index|].
        intros text _.
        assert (tensor_index row = i) as Hir
          by exact (Forall_lookup_1 _ _ _ _ Hc Hrow).
        eapply (spec_bind _ _ any).
        { apply spec_call; [|done]. split; [|done]. right. simpl.
          by rewrite Hir. }
        intros _ _. apply spec_ret. split; [by apply Forall_insert|].
        intros Hnil. apply (f_equal length) in Hnil.
        rewrite length_insert in Hnil. by destruct compare_image.
      - apply spec_ret. split; [by repeat constructor|done]. }
    intros compare_image [Hc Hne].
    destruct (flag_truthy (cfg_split_images config)).
    + apply (spec_for_each _ _ any); [|done]. intros q [] _.
      eapply spec_bind; [by apply spec_index|]. intros row Hrow.
      eapply (spec_bind _ _ any); [by eapply spec_weaken, spec_index|].
      intros text _.
      apply spec_call; [|done]. apply at_phase_save; [|done].
      constructor; [|done]. exact (Forall_lookup_1 _ _ _ _ Hc Hrow).
    + apply spec_call; [|done]. by apply at_phase_save.
  - eapply spec_bind; [by apply spec_index|]. intros compare_image Hc.
    apply (spec_for_each _ _ any); [|done]. intros m [] _.
    eapply spec_bind; [by apply spec_index|]. intros t Ht.
    apply spec_call; [|done]. apply at_phase_save; [|done].
    constructor; [|done]. exact (Forall_lookup_1 _ _ _ _ (Hr _ Hc) Ht).
Qed.

Ltac no_phase := emits_go ltac:(by split; [left|]).

Lemma baseline_loop_keeps E config n_prompt generator s :
  keeps (0, 0, 0)%nat (0, length (get (cfg_prompts config) []), 0)%nat
    (λ state, batches_indexed state.2)
    (baseline_loop E config n_prompt generator s).
Proof.
  unfold baseline_loop.
  eapply (keeps_bind _ (0, 0, 0)%nat _ any);
    [apply (keeps_spec _ any), spec_emit; by split; [left|]|
    |unfold phase_le; simpl; lia].
  intros _ _.
  eapply keeps_mono;
    [apply (keeps_for_enumerate 0 loop_state)|apply phase_le_refl
    |apply phase_le_refl|by intros ? [_ ?]]; [|done].
  intros i prompt [s' original_images] [Hlen Hb]. simpl in Hlen, Hb.
  eapply (keeps_mono (0, i, 0)%nat _ (0, i, 0)%nat);
    [|apply phase_le_refl|unfold phase_le; simpl; lia|intros a Ha; exact Ha].
  apply (keeps_spec (0, i, 0)%nat any).
  eapply (spec_bind _ _ any); [no_phase|]. intros s'' _.
  eapply (spec_bind _ _ any); [by eapply spec_weaken, spec_load_local|].
  intros kw _.
  eapply spec_bind; [apply spec_pipeline; [by split; [right|]|done]|].
  intros images [n ->]. apply spec_ret. split; simpl.
  - rewrite length_app. simpl. lia.
  - subst i. by apply batches_indexed_snoc.
Qed.

Lemma resadapter_loop_keeps E config output_dir n_prompt generator compare
    original_images s :
  (∀ l, original_images = Some l → batches_indexed l) →
  keeps (1, 0, 0)%nat (1, length (get (cfg_prompts config) []), 0)%nat any
    (resadapter_loop E config output_dir n_prompt generator compare
       original_images s).
Proof.
  intros Ho. unfold resadapter_loop.
  eapply (keeps_bind _ (1, 0, 0)%nat _ any);
    [apply (keeps_spec _ any), spec_emit; by split; [left|]|
    |unfold phase_le; simpl; lia].
  intros _ _.
  eapply keeps_mono;
    [apply (keeps_for_enumerate 1 loop_state)|apply phase_le_refl
    |apply phase_le_refl|done]; [|done].
  intros i prompt [s' resadapter_images] [Hlen Hb]. simpl in Hlen, Hb.
  eapply (keeps_bind _ (1, i, 0)%nat _ any);
    [apply (keeps_spec _ any); no_phase| |unfold phase_le; simpl; lia].
  intros s'' _.
  eapply (keeps_bind _ (1, i, 0)%nat _ any);
    [apply (keeps_spec _ any); by eapply spec_weaken, spec_load_local|
    |unfold phase_le; simpl; lia].
  intros kw _.
  eapply (keeps_bind _ (1, i, 0)%nat _
            (λ images, ∃ n, images = Generated ResAdapter i <$> seq 0 n));
    [apply (keeps_spec _ any), spec_pipeline; [by split; [right|]|done]|
    |unfold phase_le; simpl; lia].
  intros images [n ->]. subst i.
  eapply (keeps_mono (1, length resadapter_images, 1)%nat _
            (1, length resadapter_images, 1)%nat);
    [apply (keeps_spec (1, length resadapter_images, 1)%nat any)
    |unfold phase_le; simpl; lia|apply phase_le_refl|intros a Ha; exact Ha].
  eapply (spec_bind _ _ any).
  { apply save_images_spec; [|done].
    intros batch. by apply batches_indexed_snoc. }
  intros _ _. apply spec_ret. split; simpl.
  - rewrite length_app. simpl. lia.
  - by apply batches_indexed_snoc.
Qed.

Lemma main_keeps E config :
  keeps (0, 0, 0)%nat (1, length (get (cfg_prompts config) []), 0)%nat any
    (main E config).
Proof.
  set (n := length (get (cfg_prompts config) [])).
  assert (phase_le (0, 0, 0)%nat (1, n, 0)%nat) as H01
    by (unfold phase_le; simpl; lia).
  unfold main.
  eapply (keeps_bind _ (0, 0, 0)%nat _ any);
    [apply (keeps_spec _ any); no_phase| |done].
  intros output_dir _.
  eapply (keeps_bind _ (0, 0, 0)%nat _ any);
    [apply (keeps_spec _ any); no_phase| |done].
  intros _ _.
  eapply (keeps_bind _ (0, 0, 0)%nat _ any);
    [apply (keeps_spec _ any); no_phase| |done].
  intros s _. unfold inference.
  eapply (keeps_bind _ (0, 0, 0)%nat _ any);
    [apply (keeps_spec _ any); no_phase| |done].
  intros generator _.
  eapply (keeps_bind _ (0, 0, 0)%nat _ any);
    [apply (keeps_spec _ any); no_phase| |done].
  intros compare _. unfold inference_from.
  eapply (keeps_bind _ (0, n, 0)%nat _
            (λ state, ∀ l, state.2 = Some l → batches_indexed l));
    [| |unfold phase_le; simpl; lia].
  { destruct compare.
    - eapply keeps_bind;
        [apply baseline_loop_keeps| |apply phase_le_refl].
      intros [s' original_images] Hb. apply (keeps_spec _ any), spec_ret.
      by intros l [= <-].
    - eapply (keeps_mono (0, 0, 0)%nat _ (0, 0, 0)%nat _
                (λ state, ∀ l, state.2 = Some l → batches_indexed l));
        [|apply phase_le_refl|unfold phase_le; simpl; lia|done].
      apply (keeps_spec _ any), spec_ret. by intros l [=]. }
  intros [s' original_images] Hb. simpl in Hb.
  eapply (keeps_bind _ (1, 0, 0)%nat _ any);
    [| |unfold phase_le; simpl; lia].
  { eapply keeps_mono;
      [apply (keeps_spec (1, 0, 0)%nat any); no_phase
      |unfold phase_le; simpl; lia|apply phase_le_refl|done]. }
  intros _ _.
  eapply (keeps_bind _ (1, 0, 0)%nat _ any);
    [apply (keeps_spec _ any); no_phase| |unfold phase_le; simpl; lia].
  intros task _.
  eapply (keeps_bind _ (1, 0, 0)%nat _ any);
    [apply (keeps_spec _ any); no_phase| |unfold phase_le; simpl; lia].
  intros _ _.
  eapply (keeps_bind _ (1, n, 0)%nat _ any);
    [by apply resadapter_loop_keeps| |apply phase_le_refl].
  intros _ _. apply (keeps_spec _ any). by apply spec_ret.
Qed.

(** C2, as amended.  In every run a baseline pipeline call is made only
    with the comparison enabled, and along the trace the triple (pass,
    prompt index, step) never goes back: the baseline calls come first, in
    the order of the prompts, in a pass of their own; the adapter pass
    follows, and in it the pipeline call of a prompt comes before the
    stacking, labelling and saving of its images, which all come before the
    call of the next prompt.  Whatever is stacked or saved at once is not
    empty and holds images of one prompt only. *)
Theorem passes_in_order E config :
  pass_by_pass (run E config).2 ∧
  Forall (baseline_if_enabled config) (run E config).2.
Proof.
  split.
  - destruct (main_keeps E config []) as [[Hs _] _]; [|done].
    split; [by split; constructor|done].
  - destruct (compare_enabled_dec config) as [Hen|Hen].
    + apply Forall_forall. by intros ev _ i args _.
    + eapply Forall_impl;
        [exact (proj1 (spec_run E _ _ _ config (no_compare_spec E config Hen)))|].
      intros ev Hev i args ->. by destruct Hev.
Qed.

(** ** The keyword arguments, block by block *)

(** The two blocks of lines 185-200 and 228-243 are the same function. *)
Lemma kwargs_sites_agree :
  assemble_kwargs_baseline = assemble_kwargs_resadapter.
Proof. reflexivity. Qed.

(** Started with every local it reads bound, and with index [i] in range,
    the block assembles the row of the table: what keeps the controlnet rows
    from any run is only that [main] never binds [sub_task] for them. *)
Lemma kwargs_block_table task sub kw s i cs ss ms rs c x m r h :
  (task, sub, kw) ∈ kwargs_table c x m r →
  sub_task s = Some sub →
  condition_images s = Some cs → cs !! i = Some c →
  source_images s = Some ss → ss !! i = Some x →
  mask_images s = Some ms → ms !! i = Some m →
  ip_adapter_images s = Some rs → rs !! i = Some r →
  assemble_kwargs_baseline (Some task) i s h = (Ok (set_kwargs kw s), h).
Proof.
  intros Hrow Hsub Hcs Hc Hss Hx Hms Hm Hrs Hr.
  unfold kwargs_table in Hrow. rewrite !elem_of_cons, elem_of_nil in Hrow.
  destruct s as [st0 cs0 ss0 ms0 rs0 kw0]. simpl in *. subst.
  unfold assemble_kwargs_baseline, load_local, index, mbind, M_bind, mret,
    M_ret.
  destruct Hrow as [Hrow|[Hrow|[Hrow|[Hrow|[Hrow|[Hrow|[Hrow|[Hrow|[]]]]]]]]];
    injection Hrow as -> -> ->; eval_eq_str; simpl;
    rewrite ?Hc, ?Hx, ?Hm, ?Hr; reflexivity.
Qed.

(** * Further properties of the driver *)

(** ** The common arguments of the pipeline calls *)

(** A loop over [enumerate(l)]: the body is only ever run on an index and
    the element at that index. *)
Lemma spec_for_enumerate_at {A St} (P : event → Prop) (X : exn → Prop)
    (I : nat → St → Prop) (body : nat → A → St → M St) (l0 l : list A)
    (i : nat) (s : St) :
  (∀ k x s, l0 !! k = Some x → I k s → spec P X (I (S k)) (body k x s)) →
  (∀ k x, l !! k = Some x → l0 !! (i + k)%nat = Some x) → I i s →
  spec P X (I (i + length l)%nat) (for_enumerate body i l s).
Proof.
  intros Hb. revert i s. induction l as [|x l IH]; intros i s Hl Hs; simpl.
  - apply spec_ret. by rewrite Nat.add_0_r.
  - eapply spec_bind.
    { apply Hb; [|done]. specialize (Hl 0%nat x eq_refl).
      by rewrite Nat.add_0_r in Hl. }
    intros s' Hs'.
    replace (i + S (length l))%nat with (S i + length l)%nat by lia.
    apply IH; [|done]. intros k y Hk.
    replace (S i + k)%nat with (i + S k)%nat by lia. by apply Hl.
Qed.

Lemma baseline_loop_as_configured E config s :
  spec (call_as_configured config) any any
    (baseline_loop E config (get (cfg_n_prompt config) "")
       (if int_truthy (cfg_seed config) then cfg_seed config else None) s).
Proof.
  unfold baseline_loop.
  eapply (spec_bind _ _ any); [by apply spec_emit|]. intros _ _.
  eapply spec_weaken,
    (spec_for_enumerate_at _ _ (λ _, any) _ (get (cfg_prompts config) []));
    [|by intros k x Hk|done].
  intros i prompt [s' original_images] Hi _.
  eapply (spec_bind _ _ any); [emits_go ltac:(done)|]. intros s'' _.
  eapply (spec_bind _ _ any); [by eapply spec_weaken, spec_load_local|].
  intros kw _.
  eapply (spec_bind _ _ any); [|intros; by apply spec_ret].
  eapply spec_weaken, spec_pipeline; [|done].
  by intros ? ? ? [= <- <- <-].
Qed.

Lemma resadapter_loop_as_configured E config output_dir compare
    original_images s :
  spec (call_as_configured config) any any
    (resadapter_loop E config output_dir (get (cfg_n_prompt config) "")
       (if int_truthy (cfg_seed config) then cfg_seed config else None)
       compare original_images s).
Proof.
  unfold resadapter_loop.
  eapply (spec_bind _ _ any); [by apply spec_emit|]. intros _ _.
  eapply spec_weaken,
    (spec_for_enumerate_at _ _ (λ _, any) _ (get (cfg_prompts config) []));
    [|by intros k x Hk|done].
  intros i prompt [s' resadapter_images] Hi _.
  eapply (spec_bind _ _ any); [emits_go ltac:(done)|]. intros s'' _.
  eapply (spec_bind _ _ any); [by eapply spec_weaken, spec_load_local|].
  intros kw _.
  eapply (spec_bind _ _ any).
  { eapply spec_weaken, spec_pipeline; [|done].
    by intros ? ? ? [= <- <- <-]. }
  intros images _.
  eapply (spec_bind _ _ any); [emits_go ltac:(done)|].
  intros; by apply spec_ret.
Qed.

(** The generator of lines 171-174: the seed, unless it is absent or 0. *)
Lemma generator_spec E (P : event → Prop) config :
  (∀ seed, P (EvManualSeed seed)) →
  spec P any
    (λ g, g = if int_truthy (cfg_seed config) then cfg_seed config else None)
    (if int_truthy (cfg_seed config)
     then seed ← getattr E "seed" (cfg_seed config);
          call E (EvManualSeed (get seed 0));;
          mret seed
     else mret None).
Proof.
  intros HP. destruct (int_truthy (cfg_seed config)); [|by apply spec_ret].
  eapply spec_bind; [by apply spec_getattr|]. intros ? ->.
  eapply (spec_bind _ _ any); [by apply spec_call|]. intros _ _.
  by apply spec_ret.
Qed.

Lemma main_as_configured E config :
  spec (call_as_configured config) any any (main E config).
Proof.
  unfold main.
  eapply (spec_bind _ _ any); [emits_go ltac:(done)|intros output_dir _].
  eapply (spec_bind _ _ any); [emits_go ltac:(done)|intros _ _].
  eapply (spec_bind _ _ any); [emits_go ltac:(done)|intros s _].
  unfold inference, inference_from.
  eapply spec_bind; [by apply generator_spec|]. intros ? ->.
  eapply (spec_bind _ _ any); [emits_go ltac:(done)|intros compare _].
  eapply (spec_bind _ _ any).
  { destruct compare; [|by apply spec_ret].
    eapply (spec_bind _ _ any); [apply baseline_loop_as_configured|].
    intros [? ?] _. by apply spec_ret. }
  intros [s' original_images] _.
  eapply (spec_bind _ _ any); [emits_go ltac:(done)|intros _ _].
  eapply (spec_bind _ _ any); [emits_go ltac:(done)|intros task _].
  eapply (spec_bind _ _ any); [emits_go ltac:(done)|intros _ _].
  eapply (spec_bind _ _ any); [apply resadapter_loop_as_configured|].
  intros; by apply spec_ret.
Qed.

(** X1.  In every run, the pipeline call of iteration [i] of either loop
    gets the [i]-th prompt, the configured negative prompt (default empty),
    step count (default 25), images per prompt (default 2) and guidance scale
    (default 7.5), the output type "pt", and as generator the configured
    seed, or none when the seed is absent or 0. *)
Theorem pipeline_calls_as_configured E config :
  Forall (call_as_configured config) (run E config).2.
Proof. exact (proj1 (spec_run E _ any any config (main_as_configured E config))). Qed.

(** ** Seeding *)

Lemma appends_spec {A} (P : event → Prop) (X : exn → Prop) (R : A → Prop)
    (m : M A) :
  spec P X R m → appends (Forall P) m.
Proof. intros Hm h. destruct (Hm h) as (t & Ht & HP & _). by exists t. Qed.

Lemma appends_mono {A} (T T' : list event → Prop) (m : M A) :
  appends T m → (∀ t, T t → T' t) → appends T' m.
Proof. intros Hm HT h. destruct (Hm h) as (t & Ht & H). exists t. auto. Qed.

Lemma appends_bind {A B} (T1 T2 T : list event → Prop) (m : M A)
    (f : A → M B) :
  appends T1 m → (∀ a, appends T2 (f a)) →
  (∀ t1, T1 t1 → T t1) → (∀ t1 t2, T1 t1 → T2 t2 → T (t1 ++ t2)) →
  appends T (m ≫= f).
Proof.
  intros Hm Hf H1 H12 h. destruct (Hm h) as (t1 & Ht1 & HT1).
  unfold mbind, M_bind. destruct (m h) as [[a|e] h']; simpl in *; subst h'.
  - destruct (Hf a (h ++ t1)) as (t2 & Ht2 & HT2).
    exists (t1 ++ t2). rewrite Ht2, app_assoc. auto.
  - exists t1. auto.
Qed.

Lemma appends_run E (T : list event → Prop) config :
  appends T (main E config) → T (run E config).2.
Proof. intros H. destruct (H []) as (t & Ht & HT). unfold run. by rewrite Ht. Qed.

Lemma unseeded (t : list event) :
  Forall (λ ev, ∀ seed, ev ≠ EvManualSeed seed) t → manual_seeds t = [].
Proof.
  unfold manual_seeds. induction 1 as [|ev t Hev _ IH]; [done|].
  destruct ev; simpl; try done. by destruct (Hev seed).
Qed.

Lemma appends_unseeded {A} (m : M A) :
  spec (λ ev, ∀ seed, ev ≠ EvManualSeed seed) any any m →
  appends (λ t, manual_seeds t = []) m.
Proof.
  intros Hm. eapply appends_mono; [by eapply appends_spec|]. apply unseeded.
Qed.

Lemma seeded_once_app_l config t1 t2 :
  manual_seeds t1 = [] → seeded_once config t2 → seeded_once config (t1 ++ t2).
Proof.
  unfold seeded_once, manual_seeds. rewrite omap_app. by intros ->.
Qed.

Lemma seeded_once_app_r config t1 t2 :
  seeded_once config t1 → manual_seeds t2 = [] → seeded_once config (t1 ++ t2).
Proof.
  unfold seeded_once, manual_seeds. rewrite omap_app. intros H ->.
  by rewrite app_nil_r.
Qed.

Lemma main_seeded_once E config : appends (seeded_once config) (main E config).
Proof.
  assert (∀ t, manual_seeds t = [] → seeded_once config t) as H0
    by (intros; by left).
  unfold main.
  eapply appends_bind;
    [apply appends_unseeded; emits_go ltac:(done)| |exact H0
    |apply seeded_once_app_l]. intros output_dir.
  eapply appends_bind;
    [apply appends_unseeded; emits_go ltac:(done)| |exact H0
    |apply seeded_once_app_l]. intros _.
  eapply appends_bind;
    [apply appends_unseeded; emits_go ltac:(done)| |exact H0
    |apply seeded_once_app_l]. intros s.
  unfold inference, inference_from.
  eapply appends_bind; [| |intros t1 H1; exact H1|apply seeded_once_app_r].
  - destruct (cfg_seed config) as [seed|] eqn:Hseed; simpl;
      [|intros h; exists []; rewrite app_nil_r; split; [done|by left]].
    destruct (Z.eqb_spec seed 0) as [->|Hne]; simpl;
      [intros h; exists []; rewrite app_nil_r; split; [done|by left]|].
    intros h. exists [EvManualSeed seed].
    unfold mbind, M_bind, getattr, call, mret, M_ret. simpl.
    split; [by destruct (fails E h _)|]. right. by exists seed.
  - intros generator. apply appends_unseeded.
    eapply (spec_bind _ _ any); [emits_go ltac:(done)|intros compare _].
    emits_go ltac:(done).
Qed.

(** X2.  In every run the random generator is seeded at most once, before
    both loops, with the configured seed; a seed that is absent or 0 seeds
    nothing (and every pipeline call then gets no generator). *)
Theorem generator_seeded_once E config : seeded_once config (run E config).2.
Proof. apply appends_run, main_seeded_once. Qed.

(** ** The adapter is loaded between the two loops *)

Lemma within_at (k : nat) t : Forall (at_stage k) t → within k k t.
Proof.
  intros Ht.
  assert (Forall (λ j, j = k) (omap stage t)) as Hk.
  { induction Ht as [|ev t [Hev|Hev] _ IH]; simpl; rewrite ?Hev; [done..|].
    by constructor. }
  split.
  - unfold adapter_between. induction Hk as [|j l -> Hl IH]; constructor;
      [done|]. eapply Forall_impl; [done|]. by intros ? ->.
  - eapply Forall_impl; [done|]. intros ? ->. simpl. lia.
Qed.

Lemma within_mono (a b a' b' : nat) t :
  within a b t → (a' ≤ a)%nat → (b ≤ b')%nat → within a' b' t.
Proof.
  intros [Hs Hb] Ha Hb'. split; [done|].
  eapply Forall_impl; [done|]. simpl. lia.
Qed.

Lemma within_app (a b c : nat) t1 t2 :
  (a ≤ b)%nat → (b ≤ c)%nat →
  within a b t1 → within b c t2 → within a c (t1 ++ t2).
Proof.
  intros Hab Hbc [Hs1 Hb1] [Hs2 Hb2]. unfold within, adapter_between.
  rewrite omap_app. rewrite Forall_forall in Hb1, Hb2. split.
  - apply StronglySorted_app. split_and!; [|done..].
    intros x1 x2 H1 H2. apply Hb1 in H1. apply Hb2 in H2. lia.
  - apply Forall_app. rewrite !Forall_forall. split.
    + intros x Hx. apply Hb1 in Hx. lia.
    + intros x Hx. apply Hb2 in Hx. lia.
Qed.

Lemma appends_within_bind {A B} (a b c : nat) (m : M A) (f : A → M B) :
  (a ≤ b)%nat → (b ≤ c)%nat →
  appends (within a b) m → (∀ x, appends (within b c) (f x)) →
  appends (within a c) (m ≫= f).
Proof.
  intros Hab Hbc Hm Hf. eapply appends_bind; [done|done| |].
  - intros t1 H1. eapply within_mono; [done|lia..].
  - intros t1 t2. by apply within_app.
Qed.

Lemma appends_at_stage {A} (k : nat) (m : M A) :
  spec (at_stage k) any any m → appends (within k k) m.
Proof.
  intros Hm. eapply appends_mono; [by eapply appends_spec|]. apply within_at.
Qed.

Ltac at_stage_go :=
  apply appends_at_stage; emits_go ltac:(first [by left|by right]).

Lemma main_adapter_between E config : appends (within 0 2) (main E config).
Proof.
  unfold main.
  apply (appends_within_bind 0 0 2); [lia..|at_stage_go|intros output_dir].
  apply (appends_within_bind 0 0 2); [lia..|at_stage_go|intros _].
  apply (appends_within_bind 0 0 2); [lia..|at_stage_go|intros s].
  unfold inference, inference_from.
  apply (appends_within_bind 0 0 2); [lia..|at_stage_go|intros generator].
  apply (appends_within_bind 0 0 2); [lia..|at_stage_go|intros compare].
  apply (appends_within_bind 0 0 2); [lia..|at_stage_go|intros [s' oi]].
  apply (appends_within_bind 0 1 2); [lia..| |intros _].
  { eapply appends_mono; [at_stage_go|].
    intros t Ht. eapply within_mono; [exact Ht|lia..]. }
  apply (appends_within_bind 1 1 2); [lia..|at_stage_go|intros task].
  apply (appends_within_bind 1 1 2); [lia..|at_stage_go|intros _].
  eapply appends_mono; [at_stage_go|].
  intros t Ht. eapply within_mono; [exact Ht|lia..].
Qed.

(** X3.  In every run the lora weights of the adapter are loaded after all
    pipeline calls of the baseline loop and before all pipeline calls of
    the second loop: the baseline images are made by the pipeline without
    the adapter. *)
Theorem adapter_loaded_between_loops E config :
  adapter_between (run E config).2.
Proof. exact (proj1 (appends_run E _ config (main_adapter_between E config))). Qed.

(** ** An ip_adapter run with an unknown sub-task *)

Lemma not_recognized_sub_task (sub : option string) :
  sub ∉ recognized_sub_tasks ↔
  sub ≠ Some "image_variation" ∧ sub ≠ Some "image_to_image" ∧
  sub ≠ Some "inpaint".
Proof.
  unfold recognized_sub_tasks. rewrite !not_elem_of_cons.
  split; [by intros (? & ? & ? & _)|].
  intros (? & ? & ?). split_and!; [done..|]. apply not_elem_of_nil.
Qed.

Lemma unknown_sub_task_spec E config :
  cfg_task config = Some "ip_adapter" →
  cfg_sub_task config ∉ recognized_sub_tasks →
  spec setup_event
    (λ e, e = NotImplementedError ∨
          (∃ ev h, fails E h ev = true ∧ e = ExternalError ev) ∨
          (strict_attr E = true ∧ cfg_experiment_name config = None))
    (λ _, False) (main E config).
Proof.
  intros Ht Hsub. apply not_recognized_sub_task in Hsub as (? & ? & ?).
  unfold main.
  eapply (spec_bind _ _ any).
  { unfold get_config.
    emits_steps ltac:(done) ltac:(idtac).
    - intros Hn Hs. right. by right.
    - intros h Hf. right. left. by eexists _, _. }
  intros output_dir _. eapply (spec_bind _ _ any).
  { unfold load_pipeline. rewrite Ht. eval_eq_str.
    emits_steps ltac:(done) ltac:(idtac);
      intros h Hf; right; left; by eexists _, _. }
  intros _ _. eapply (spec_bind _ _ (λ _, False)); [|done].
  unfold prepare. rewrite Ht. eval_eq_str.
  eapply (spec_bind _ _ any); [by apply spec_ret|]. intros s _.
  eapply (spec_bind _ _ any); [by apply spec_ret|]. intros s' _.
  unfold prepare_ip_adapter. rewrite !eq_str_false by done.
  apply spec_raise. by left.
Qed.

(** X4.  With task "ip_adapter" and a sub-task that is none of
    image_variation, image_to_image and inpaint, the run ends with an
    exception before any image is opened or generated; the pipeline,
    unlike for an unknown task, has been loaded and moved to the device by
    then.  When no external call raises, the exception is
    [NotImplementedError] and these are all the events. *)
Theorem unknown_sub_task_aborts E config :
  cfg_task config = Some "ip_adapter" →
  cfg_sub_task config ∉ recognized_sub_tasks →
  (∃ e, (run E config).1 = Raise e) ∧
  Forall setup_event (run E config).2 ∧
  (quiet E → has_experiment_name E config →
   run E config
   = (Raise NotImplementedError,
      [EvMakedirs (output_dir_of E config);
       EvPrint ("Create " +:+ output_dir_of E config);
       EvLoadPipeline "load_ip_adapter_pipeline";
       EvTo ("cuda:" +:+ pretty (get (cfg_device config) 0))]
      ++ (if flag_truthy (cfg_enable_xformers config)
          then [EvPrint "Enable xformers successfully."; EvEnableXformers]
          else []))).
Proof.
  intros Ht Hsub.
  destruct (spec_run E _ _ _ config (unknown_sub_task_spec E config Ht Hsub))
    as [HP Hr].
  split_and!; [|done|].
  { destruct (run E config).1 as [[]|e]; [done|by exists e]. }
  intros Hq Hn. apply not_recognized_sub_task in Hsub as (? & ? & ?).
  unfold run, main, get_config, load_pipeline, prepare, prepare_ip_adapter,
    output_dir_of.
  rewrite Ht. eval_eq_str. rewrite !eq_str_false by done.
  unfold mbind, M_bind, getattr, call, emit, mret, M_ret, raise.
  destruct (cfg_experiment_name config) as [name|] eqn:Hname.
  - rewrite !Hq. simpl. rewrite ?Hq. simpl.
    destruct (flag_truthy (cfg_enable_xformers config)); simpl;
      by rewrite ?Hq.
  - destruct Hn as [Hn|Hn]; [|done]. rewrite Hn.
    rewrite !Hq. simpl. rewrite ?Hq. simpl.
    destruct (flag_truthy (cfg_enable_xformers config)); simpl;
      by rewrite ?Hq.
Qed.

Lemma unknown_sub_task_aborts_witness :
  (run calm_env
     (task_config (Some "ip_adapter") (Some "upscale") ["a"] [] [] ["r.png"]
        None None)).1
  = Raise NotImplementedError.
Proof.
  destruct (unknown_sub_task_aborts calm_env
              (task_config (Some "ip_adapter") (Some "upscale") ["a"] [] []
                 ["r.png"] None None) eq_refl) as (_ & _ & Hq).
  - apply (bool_decide_unpack _). vm_compute. exact I.
  - rewrite Hq; [reflexivity|by intros ? ?|by right].
Defined.

(** ** A run without prompts *)

Lemma inference_without_prompts E config output_dir s :
  quiet E → has_attributes E config → cfg_task config ∈ recognized_tasks →
  get (cfg_prompts config) [] = [] →
  spec any (λ _, False) any (inference E config output_dir s).
Proof.
  intros Hq Ha Ht Hp.
  assert (∀ ev h, fails E h ev = true → False) as Hnever
    by (intros ev h Hf; by rewrite Hq in Hf).
  unfold inference, inference_from, baseline_loop, resadapter_loop. rewrite Hp.
  cbn [for_enumerate].
  eapply (spec_bind _ _ any); [quiet_steps Hq|]. intros generator _.
  eapply (spec_bind _ _ any).
  { unfold enable_compare. case_bool_decide; [by apply spec_ret|].
    eapply (spec_bind _ _ any); [|intros; by apply spec_ret].
    eapply spec_weaken, spec_getattr. intros Hn Hs.
    destruct Ha as [?|[_ ?]]; congruence. }
  intros compare _.
  eapply (spec_bind _ _ any); [quiet_steps Hq|]. intros [s' oi] _.
  eapply (spec_bind _ _ any).
  { case_bool_decide as Hm; [|by apply spec_ret].
    destruct (cfg_res_adapter_model config) as [dir|] eqn:Hdir; [|done].
    eapply (spec_bind _ _ any);
      [by eapply load_resadapter_spec|intros _ _].
    quiet_steps Hq. }
  intros _ _.
  eapply (spec_bind _ _ any).
  { eapply spec_weaken, spec_getattr. intros Hn _. rewrite Hn in Ht.
    by apply not_recognized in Ht. }
  intros task _. quiet_steps Hq.
Qed.

Lemma main_without_prompts E config :
  get (cfg_prompts config) [] = [] →
  spec idle_event any any (main E config).
Proof.
  intros Hp. autounfold with prog. rewrite Hp. cbn [for_enumerate].
  emits_steps ltac:(done) ltac:(done).
Qed.

(** X5.  With an empty (or absent) prompt list a run of any accepted task
    returns normally when no external call raises, the controlnet task
    included: nothing is generated, stacked, labelled or saved by the
    loops. *)
Theorem no_prompts_no_images E config :
  quiet E → has_attributes E config → accepted config →
  get (cfg_prompts config) [] = [] →
  (run E config).1 = Ok () ∧ Forall idle_event (run E config).2.
Proof.
  intros Hq Ha Hacc Hp. split.
  - assert (spec any (λ _, False) any (main E config)) as Hok.
    { unfold main.
      eapply (spec_bind _ _ any).
      { apply get_config_ok; [done|]. destruct Ha as [?|[? _]]; [by left|by right]. }
      intros output_dir _.
      eapply (spec_bind _ _ any); [apply load_pipeline_ok; [done|apply Hacc]|].
      intros _ _.
      eapply (spec_bind _ _ any); [by apply prepare_ok|]. intros s _.
      apply inference_without_prompts; [done..|apply Hacc|done]. }
    destruct (spec_run E _ _ _ config Hok) as [_ Hr].
    by destruct (run E config).1 as [[]|e].
  - exact (proj1 (spec_run E _ _ _ config (main_without_prompts E config Hp))).
Qed.

Lemma no_prompts_no_images_witness :
  (run calm_env
     (task_config (Some "controlnet") None [] ["inputs/source.png"] [] []
        None (Some false))).1
  = Ok ().
Proof.
  refine (proj1 (no_prompts_no_images calm_env
                   (task_config (Some "controlnet") None []
                      ["inputs/source.png"] [] [] None (Some false))
                   _ _ _ _)).
  - by intros ? ?.
  - right. split; discriminate.
  - split; [apply (bool_decide_unpack _); vm_compute; exact I|discriminate].
  - reflexivity.
Defined.

(** ** The keyword arguments in whole runs *)

(** A result that holds whenever the computation returns. *)
Lemma spec_result {A} (P : event → Prop) (X : exn → Prop) (R : A → Prop)
    (m : M A) :
  spec P X any m → (∀ h a h', m h = (Ok a, h') → R a) → spec P X R m.
Proof.
  intros Hm HR h. destruct (Hm h) as (t & Ht & HP & Hr).
  exists t. split_and!; [done..|].
  destruct (m h) as [[a|e] h'] eqn:Hrun; simpl in *; [by eapply HR|done].
Qed.

(** A computation that touches nothing outside. *)
Lemma spec_pure {A} (P : event → Prop) (X : exn → Prop) (R : A → Prop)
    (m : M A) (r : result A) :
  (∀ h, m h = (r, h)) →
  match r with Ok a => R a | Raise e => X e end → spec P X R m.
Proof.
  intros Hm Hr h. exists []. rewrite Hm, app_nil_r. by split_and!.
Qed.

Lemma assemble_t2i task i s h :
  task = "t2i" ∨ task = "t2i_accelerate" →
  assemble_kwargs_baseline (Some task) i s h = (Ok (set_kwargs ∅ s), h).
Proof. by intros [-> | ->]. Qed.

Lemma assemble_image_variation i s rs h :
  sub_task s = Some (Some "image_variation") →
  ip_adapter_images s = Some rs →
  assemble_kwargs_baseline (Some "ip_adapter") i s h
  = (match rs !! i with
     | Some r => Ok (set_kwargs {[ "ip_adapter_image" := KImage r ]} s)
     | None => Raise IndexError
     end, h).
Proof.
  destruct s as [st0 cs0 ss0 ms0 rs0 kw0]. simpl. intros -> ->.
  unfold assemble_kwargs_baseline, load_local, index, mbind, M_bind, mret,
    M_ret, raise.
  eval_eq_str. simpl. by destruct (rs !! i).
Qed.

Lemma assemble_image_to_image i s ss rs h :
  sub_task s = Some (Some "image_to_image") →
  source_images s = Some ss → ip_adapter_images s = Some rs →
  assemble_kwargs_baseline (Some "ip_adapter") i s h
  = (match ss !! i, rs !! i with
     | Some x, Some r =>
         Ok (set_kwargs {[ "image" := KImage x;
                           "ip_adapter_image" := KImage r;
                           "strength" := KFloat float_0_6 ]} s)
     | _, _ => Raise IndexError
     end, h).
Proof.
  destruct s as [st0 cs0 ss0 ms0 rs0 kw0]. simpl. intros -> -> ->.
  unfold assemble_kwargs_baseline, load_local, index, mbind, M_bind, mret,
    M_ret, raise.
  eval_eq_str. simpl. by destruct (ss !! i), (rs !! i).
Qed.

Lemma assemble_inpaint i s ss ms rs h :
  sub_task s = Some (Some "inpaint") →
  source_images s = Some ss → mask_images s = Some ms →
  ip_adapter_images s = Some rs →
  assemble_kwargs_baseline (Some "ip_adapter") i s h
  = (match ss !! i, ms !! i, rs !! i with
     | Some x, Some m, Some r =>
         Ok (set_kwargs {[ "image" := KImage x; "mask_image" := KImage m;
                           "ip_adapter_image" := KImage r;
                           "strength" := KFloat float_0_5 ]} s)
     | _, _, _ => Raise IndexError
     end, h).
Proof.
  destruct s as [st0 cs0 ss0 ms0 rs0 kw0]. simpl. intros -> -> -> ->.
  unfold assemble_kwargs_baseline, load_local, index, mbind, M_bind, mret,
    M_ret, raise.
  eval_eq_str. simpl. by destruct (ss !! i), (ms !! i), (rs !! i).
Qed.

(** What the preparation loops return, when they return. *)
Ltac crunch_body H :=
  unfold image_open, resize, mbind, M_bind, call, mret, M_ret in H;
  repeat (simpl in H;
          first
            [ discriminate H
            | match type of H with
              | context [fails ?E ?h ?ev] => destruct (fails E h ev)
              | context [geometry ?c ?sz] =>
                  is_var c; destruct (geometry c sz) as [? ?] eqn:?
              end ]).

Lemma image_variation_result E config s h s' h' :
  prepare_image_variation E config s h = (Ok s', h') →
  s' = set_ip_adapter_images
         ((λ p, resized_to E config p p)
            <$> get (cfg_ip_adapter_images config) []) s.
Proof.
  unfold prepare_image_variation.
  generalize (get (cfg_ip_adapter_images config) []). intros l.
  match goal with |- context [for_each ?b l ?a] =>
    assert (∀ l acc h acc' h',
              for_each b l acc h = (Ok acc', h') →
              acc' = acc ++ ((λ p, resized_to E config p p) <$> l)) as Hloop
  end.
  { clear. intros l. induction l as [|p l IH]; intros acc h acc' h' Hrun.
    - injection Hrun as <- <-. by rewrite app_nil_r.
    - rewrite for_each_cons in Hrun.
      match type of Hrun with context [match ?b with _ => _ end] =>
        destruct b as [[acc1|e] h1] eqn:Hb; [|done]
      end.
      apply IH in Hrun as ->. rewrite fmap_cons, cons_middle, app_assoc.
      f_equal. crunch_body Hb. injection Hb as <- <-.
      unfold resized_to. by repeat f_equal. }
  unfold mbind at 1, M_bind. intros Hrun.
  match type of Hrun with context [for_each ?b l ?a h] =>
    destruct (for_each b l a h) as [[acc|e] h1] eqn:Hfor; [|done]
  end.
  apply Hloop in Hfor as ->. by injection Hrun as <- <-.
Qed.

Lemma image_to_image_result E config s h s' h' :
  prepare_image_to_image E config s h = (Ok s', h') →
  let l := zip (get (cfg_ip_adapter_images config) [])
               (get (cfg_source_images config) []) in
  s' = set_source_images ((λ p, resized_to E config p.2 p.2) <$> l)
         (set_ip_adapter_images ((λ p, resized_to E config p.1 p.2) <$> l) s).
Proof.
  unfold prepare_image_to_image.
  generalize (zip (get (cfg_ip_adapter_images config) [])
                  (get (cfg_source_images config) [])). intros l.
  assert (∀ l ips srcs h ips' srcs' h',
            for_each (image_to_image_body E config) l (ips, srcs) h
            = (Ok (ips', srcs'), h') →
            ips' = ips ++ ((λ p, resized_to E config p.1 p.2) <$> l) ∧
            srcs' = srcs ++ ((λ p, resized_to E config p.2 p.2) <$> l))
    as Hloop.
  { clear. intros l.
    induction l as [|[ip src] l IH]; intros ips srcs h ips' srcs' h' Hrun.
    - injection Hrun as <- <- <-. by rewrite !app_nil_r.
    - rewrite for_each_cons in Hrun.
      destruct (image_to_image_body E config (ip, src) (ips, srcs) h)
        as [[[ips1 srcs1]|e] h1] eqn:Hb; [|done].
      apply IH in Hrun as [-> ->].
      rewrite !fmap_cons, !(cons_middle _ _ (_ <$> l)), !app_assoc.
      unfold image_to_image_body in Hb. crunch_body Hb.
      injection Hb as <- <- <-. unfold resized_to. simpl.
      by repeat match goal with H : geometry _ _ = _ |- _ => rewrite H end. }
  unfold mbind at 1, M_bind. intros Hrun.
  destruct (for_each (image_to_image_body E config) l ([], []) h)
    as [[[ips srcs]|e] h1] eqn:Hfor; [|done].
  apply Hloop in Hfor as [-> ->]. by injection Hrun as <- <-.
Qed.

Lemma inpaint_result E config s h s' h' :
  prepare_inpaint E config s h = (Ok s', h') →
  let l := zip3 (get (cfg_ip_adapter_images config) [])
                (get (cfg_source_images config) [])
                (get (cfg_mask_images config) []) in
  s' = set_ip_adapter_images ((λ p, resized_to E config p.1.1 p.1.2) <$> l)
         (set_mask_images ((λ p, resized_to E config p.2 p.1.2) <$> l)
            (set_source_images
               ((λ p, resized_to E config p.1.2 p.1.2) <$> l) s)).
Proof.
  unfold prepare_inpaint.
  generalize (zip3 (get (cfg_ip_adapter_images config) [])
                   (get (cfg_source_images config) [])
                   (get (cfg_mask_images config) [])). intros l.
  assert (∀ l srcs masks ips h srcs' masks' ips' h',
            for_each (inpaint_body E config) l (srcs, masks, ips) h
            = (Ok (srcs', masks', ips'), h') →
            srcs' = srcs ++ ((λ p, resized_to E config p.1.2 p.1.2) <$> l) ∧
            masks' = masks ++ ((λ p, resized_to E config p.2 p.1.2) <$> l) ∧
            ips' = ips ++ ((λ p, resized_to E config p.1.1 p.1.2) <$> l))
    as Hloop.
  { clear. intros l.
    induction l as [|[[ip src] mask] l IH];
      intros srcs masks ips h srcs' masks' ips' h' Hrun.
    - injection Hrun as <- <- <- <-. by rewrite !app_nil_r.
    - rewrite for_each_cons in Hrun.
      destruct (inpaint_body E config (ip, src, mask) (srcs, masks, ips) h)
        as [[[[srcs1 masks1] ips1]|e] h1] eqn:Hb; [|done].
      apply IH in Hrun as (-> & -> & ->).
      rewrite !fmap_cons, !(cons_middle _ _ (_ <$> l)), !app_assoc.
      unfold inpaint_body in Hb. crunch_body Hb.
      injection Hb as <- <- <- <-. unfold resized_to. simpl.
      by repeat match goal with H : geometry _ _ = _ |- _ => rewrite H end. }
  unfold mbind at 1, M_bind. intros Hrun.
  destruct (for_each (inpaint_body E config) l ([], [], []) h)
    as [[[[srcs masks] ips]|e] h1] eqn:Hfor; [|done].
  apply Hloop in Hfor as (-> & -> & ->). by injection Hrun as <- <-.
Qed.

Lemma prepare_result E config output_dir h s h' :
  prepare E config output_dir h = (Ok s, h') → prepared_for E config s.
Proof.
  intros Hrun Ht. revert Hrun. unfold prepare. rewrite Ht. eval_eq_str.
  unfold mbind, M_bind, mret, M_ret. simpl. unfold prepare_ip_adapter.
  destruct (decide (cfg_sub_task config = Some "image_variation")) as [Hs|Hv].
  { rewrite Hs. eval_eq_str. intros ->%image_variation_result.
    by split_and!. }
  destruct (decide (cfg_sub_task config = Some "image_to_image")) as [Hs|Hi].
  { rewrite Hs. eval_eq_str. intros ->%image_to_image_result.
    by split_and!. }
  destruct (decide (cfg_sub_task config = Some "inpaint")) as [Hs|Hp].
  { rewrite Hs. eval_eq_str. intros ->%inpaint_result.
    by split_and!. }
  by rewrite !eq_str_false.
Qed.

Lemma prepared_for_set_kwargs E config kw s :
  prepared_for E config s → prepared_for E config (set_kwargs kw s).
Proof. by destruct s. Qed.

Lemma assemble_other_sub_task i s sub h :
  sub_task s = Some sub → sub ∉ recognized_sub_tasks →
  assemble_kwargs_baseline (Some "ip_adapter") i s h = (Ok s, h).
Proof.
  destruct s as [st0 cs0 ss0 ms0 rs0 kw0]. simpl. intros -> Hsub.
  apply not_recognized_sub_task in Hsub as (? & ? & ?).
  unfold assemble_kwargs_baseline, load_local, index, mbind, M_bind, mret,
    M_ret, raise.
  eval_eq_str. simpl.
  rewrite (eq_str_false sub "image_variation") by done. simpl.
  rewrite (eq_str_false sub "image_to_image") by done. simpl.
  by rewrite (eq_str_false sub "inpaint") by done.
Qed.

Lemma assemble_as_table E config (P : event → Prop) i s :
  prepared_for E config s →
  spec P any
    (λ s', prepared_for E config s' ∧
           ∀ kw, kwargs s' = Some kw → kwargs_of_run E config i kw)
    (assemble_kwargs_baseline (cfg_task config) i s).
Proof.
  intros Hs.
  destruct (decide (cfg_task config = Some "t2i"
                    ∨ cfg_task config = Some "t2i_accelerate")) as [Ht|Ht].
  { assert (∃ task, cfg_task config = Some task
                    ∧ (task = "t2i" ∨ task = "t2i_accelerate"))
      as (task & Htask & Hor) by (destruct Ht as [Ht|Ht]; eauto).
    rewrite Htask.
    eapply spec_pure; [intros h; by apply assemble_t2i|]. simpl.
    split; [by apply prepared_for_set_kwargs|]. intros kw [= <-].
    split_and!;
      [done|intros Hi; rewrite Htask in Hi; injection Hi as ->;
            by destruct Hor..]. }
  destruct (decide (cfg_task config = Some "ip_adapter")) as [Hip|Hip].
  2: { eapply (spec_conseq _ _ _ any any); [emits_go ltac:(done)| |done].
       intros s' _. split; [by intros ?|]. intros kw _.
       split_and!; by intros ?. }
  destruct (Hs Hip) as (Hsub & Hiv & Hii & Hin). rewrite Hip.
  destruct (decide (cfg_sub_task config = Some "image_variation")) as [Hc|Hv].
  { rewrite Hc in Hsub. specialize (Hiv Hc).
    eapply spec_pure; [intros h; by apply assemble_image_variation|].
    rewrite list_lookup_fmap.
    destruct (get (cfg_ip_adapter_images config) [] !! i) as [r|] eqn:Hr;
      simpl; [|done].
    split; [by apply prepared_for_set_kwargs|]. intros kw [= <-].
    split_and!; [by intros [?|?]; congruence|by eauto|congruence..]. }
  destruct (decide (cfg_sub_task config = Some "image_to_image")) as [Hc|Hi].
  { rewrite Hc in Hsub. destruct (Hii Hc) as [Hrs Hss].
    eapply spec_pure; [intros h; by apply assemble_image_to_image|].
    rewrite !list_lookup_fmap.
    destruct (zip (get (cfg_ip_adapter_images config) [])
                  (get (cfg_source_images config) []) !! i)
      as [[r x]|] eqn:Hz; simpl; [|done].
    apply lookup_zip_with_Some in Hz as (r' & x' & [= <- <-] & Hr & Hx).
    split; [by apply prepared_for_set_kwargs|]. intros kw [= <-].
    split_and!; [by intros [?|?]; congruence|congruence|by eauto|congruence]. }
  destruct (decide (cfg_sub_task config = Some "inpaint")) as [Hc|Hp].
  { rewrite Hc in Hsub. destruct (Hin Hc) as (Hss & Hms & Hrs).
    eapply spec_pure; [intros h; by apply assemble_inpaint|].
    rewrite !list_lookup_fmap.
    destruct (zip3 (get (cfg_ip_adapter_images config) [])
                   (get (cfg_source_images config) [])
                   (get (cfg_mask_images config) []) !! i)
      as [[[r x] m]|] eqn:Hz; simpl; [|done].
    unfold zip3 in Hz.
    apply lookup_zip_with_Some in Hz as ([r' x'] & m' & [= <- <- <-] & Hz & Hm).
    apply lookup_zip_with_Some in Hz as (r' & x' & [= <- <-] & Hr & Hx).
    split; [by apply prepared_for_set_kwargs|]. intros kw [= <-].
    split_and!;
      [by intros [?|?]; congruence|congruence|congruence|by eauto 10]. }
  eapply spec_pure.
  { intros h. apply (assemble_other_sub_task _ _ _ _ Hsub).
    by apply not_recognized_sub_task. }
  simpl. split; [done|]. intros kw _.
  split_and!; [by intros [?|?]; congruence|congruence..].
Qed.

Lemma call_kwargs_other E config (ev : event) :
  no_pipeline_call ev → call_kwargs_as_table E config ev.
Proof. intros Hev site i args ->. by destruct (Hev site i args). Qed.

Ltac no_call := try apply call_kwargs_other; by intros ? ? ?.

Lemma baseline_loop_as_table E config n_prompt generator s :
  prepared_for E config s →
  spec (call_kwargs_as_table E config) any
    (λ state, prepared_for E config state.1)
    (baseline_loop E config n_prompt generator s).
Proof.
  intros Hs. unfold baseline_loop.
  eapply (spec_bind _ _ any); [apply spec_emit; no_call|]. intros _ _.
  eapply spec_conseq;
    [apply (spec_for_enumerate _ _
              (λ _ state, prepared_for E config state.1))| |done];
    [|done|by intros [? ?]].
  intros i prompt [s' original_images] Hs'. simpl in Hs'.
  eapply spec_bind; [by apply assemble_as_table|]. intros s'' [Hs'' Hkw].
  eapply spec_bind; [by apply spec_load_local|]. intros kw Hk.
  eapply (spec_bind _ _ any); [|intros; by apply spec_ret].
  eapply spec_weaken, spec_pipeline; [|done].
  intros ? ? ? [= <- <- <-]. simpl. by apply Hkw.
Qed.

Lemma resadapter_loop_as_table E config output_dir n_prompt generator compare
    original_images s :
  prepared_for E config s →
  spec (call_kwargs_as_table E config) any any
    (resadapter_loop E config output_dir n_prompt generator compare
       original_images s).
Proof.
  intros Hs. unfold resadapter_loop.
  eapply (spec_bind _ _ any); [apply spec_emit; no_call|]. intros _ _.
  eapply spec_weaken,
    (spec_for_enumerate _ _ (λ _ state, prepared_for E config state.1));
    [|done].
  intros i prompt [s' resadapter_images] Hs'. simpl in Hs'.
  eapply spec_bind;
    [by apply (assemble_as_table E config _ i s')|].
  intros s'' [Hs'' Hkw].
  eapply spec_bind; [by apply spec_load_local|]. intros kw Hk.
  eapply (spec_bind _ _ any).
  { eapply spec_weaken, spec_pipeline; [|done].
    intros ? ? ? [= <- <- <-]. simpl. by apply Hkw. }
  intros images _.
  eapply (spec_bind _ _ any); [emits_go ltac:(no_call)|].
  intros; by apply spec_ret.
Qed.

Lemma main_as_table E config :
  spec (call_kwargs_as_table E config) any any (main E config).
Proof.
  unfold main.
  eapply (spec_bind _ _ any); [emits_go ltac:(no_call)|intros output_dir _].
  eapply (spec_bind _ _ any); [emits_go ltac:(no_call)|intros _ _].
  eapply spec_bind.
  { apply spec_result; [emits_go ltac:(no_call)|].
    intros h s h'. apply prepare_result. }
  intros s Hs. unfold inference, inference_from.
  eapply (spec_bind _ _ any); [emits_go ltac:(no_call)|intros generator _].
  eapply (spec_bind _ _ any); [emits_go ltac:(no_call)|intros compare _].
  eapply (spec_bind _ _ (λ state, prepared_for E config state.1)).
  { destruct compare; [|by apply spec_ret].
    eapply spec_bind; [by apply baseline_loop_as_table|].
    intros [? ?] ?. by apply spec_ret. }
  intros [s' original_images] Hs'. simpl in Hs'.
  eapply (spec_bind _ _ any); [emits_go ltac:(no_call)|intros _ _].
  eapply (spec_bind _ _ any); [emits_go ltac:(no_call)|intros task _].
  eapply (spec_bind _ _ any); [emits_go ltac:(no_call)|intros _ _].
  eapply (spec_bind _ _ any); [by apply resadapter_loop_as_table|].
  intros; by apply spec_ret.
Qed.

(** X6.  In every run of the text-to-image tasks every pipeline call, in
    either loop, gets no extra keyword arguments; in every run of an
    ip_adapter sub-task the call of prompt [i] gets exactly the arguments of
    the sub-task, built from the images at position [i] of the configured
    lists: the reference image for image_variation; the source image, the
    reference image resized to the geometry of the source, and strength 0.6
    for image_to_image; these and the mask, with strength 0.5, for
    inpaint. *)
Theorem pipeline_kwargs_as_table E config :
  Forall (call_kwargs_as_table E config) (run E config).2.
Proof. exact (proj1 (spec_run E _ any any config (main_as_table E config))). Qed.

(** ** More prompts than prepared images *)

(** A loop whose body can only return at an index below [n] cannot return
    once it has to go through index [n]. *)
Lemma for_enumerate_must_raise {A St} (P : event → Prop) (X : exn → Prop)
    (I : St → Prop) (body : nat → A → St → M St) (n : nat) (l : list A)
    (i : nat) (s : St) :
  (∀ k x s, I s → spec P X (λ s', I s' ∧ k < n)%nat (body k x s)) →
  (i ≤ n < i + length l)%nat → I s →
  spec P X (λ _, False) (for_enumerate body i l s).
Proof.
  intros Hb. revert i s. induction l as [|x l IH]; intros i s Hn Hs; simpl.
  - simpl in Hn. lia.
  - eapply spec_bind; [by apply Hb|]. intros s' [Hs' Hi].
    apply IH; [simpl in Hn; lia|done].
Qed.

Lemma assemble_ip_adapter E config (P : event → Prop) (X : exn → Prop) i s :
  cfg_task config = Some "ip_adapter" →
  cfg_sub_task config ∈ recognized_sub_tasks →
  prepared_for E config s → X IndexError →
  spec P X
    (λ s', prepared_for E config s' ∧ is_Some (kwargs s')
           ∧ (i < prepared_count config)%nat)
    (assemble_kwargs_baseline (Some "ip_adapter") i s).
Proof.
  intros Hip Hsub Hs HX. destruct (Hs Hip) as (Hst & Hiv & Hii & Hin).
  unfold recognized_sub_tasks in Hsub.
  rewrite !elem_of_cons, elem_of_nil in Hsub. unfold prepared_count.
  destruct Hsub as [Hc|[Hc|[Hc|[]]]]; rewrite Hc in Hst |- *; eval_eq_str.
  - specialize (Hiv Hc).
    eapply spec_pure; [intros h; by apply assemble_image_variation|].
    rewrite list_lookup_fmap.
    destruct (get (cfg_ip_adapter_images config) [] !! i) as [r|] eqn:Hr;
      simpl; [|done].
    split_and!; [by apply prepared_for_set_kwargs|done|].
    by apply lookup_lt_Some in Hr.
  - destruct (Hii Hc) as [Hrs Hss].
    eapply spec_pure; [intros h; by apply assemble_image_to_image|].
    rewrite !list_lookup_fmap.
    destruct (zip (get (cfg_ip_adapter_images config) [])
                  (get (cfg_source_images config) []) !! i)
      as [[r x]|] eqn:Hz; simpl; [|done].
    split_and!; [by apply prepared_for_set_kwargs|done|].
    apply lookup_lt_Some in Hz. by rewrite length_zip in Hz.
  - destruct (Hin Hc) as (Hss & Hms & Hrs).
    eapply spec_pure; [intros h; by apply assemble_inpaint|].
    rewrite !list_lookup_fmap.
    destruct (zip3 (get (cfg_ip_adapter_images config) [])
                   (get (cfg_source_images config) [])
                   (get (cfg_mask_images config) []) !! i)
      as [[[r x] m]|] eqn:Hz; simpl; [|done].
    split_and!; [by apply prepared_for_set_kwargs|done|].
    apply lookup_lt_Some in Hz. by rewrite length_zip3 in Hz.
Qed.

Lemma save_images_index_error E config output_dir resadapter_images i prompt :
  quiet E →
  spec any (λ e, e = IndexError) any
    (save_images E config output_dir false None resadapter_images i prompt).
Proof.
  intros Hq. unfold save_images.
  emits_steps ltac:(done)
    ltac:(first [done|by (let Hf := fresh in intros ? Hf; rewrite Hq in Hf)]).
Qed.

Lemma inference_index_error E config output_dir s :
  quiet E → has_attributes E config →
  cfg_task config = Some "ip_adapter" →
  cfg_sub_task config ∈ recognized_sub_tasks →
  prepared_for E config s →
  (prepared_count config < length (get (cfg_prompts config) []))%nat →
  spec any (λ e, e = IndexError) (λ _, False)
    (inference E config output_dir s).
Proof.
  intros Hq Ha Ht Hsub Hs Hn.
  assert (∀ ev h, fails E h ev = true → ExternalError ev = IndexError)
    as Hnever by (intros ev h Hf; by rewrite Hq in Hf).
  unfold inference, inference_from.
  eapply (spec_bind _ _ any); [quiet_steps Hq|]. intros generator _.
  eapply (spec_bind _ _ any).
  { unfold enable_compare. case_bool_decide; [by apply spec_ret|].
    eapply (spec_bind _ _ any); [|intros; by apply spec_ret].
    eapply spec_weaken, spec_getattr. intros Hnone Hstrict.
    destruct Ha as [?|[_ ?]]; congruence. }
  intros [] _.
  - eapply (spec_bind _ _ (λ _, False)); [|by intros ? []].
    eapply (spec_bind _ _ (λ _, False)); [|by intros ? []].
    unfold baseline_loop. rewrite Ht.
    eapply (spec_bind _ _ any); [by apply spec_emit|]. intros _ _.
    apply (for_enumerate_must_raise _ _
             (λ p, prepared_for E config p.1) _ (prepared_count config));
      [|lia|done].
    intros k prompt [s0 oi] Hs0. simpl in Hs0.
    eapply spec_bind; [by apply assemble_ip_adapter|].
    intros s' (Hs' & [kw Hkw] & Hk).
    eapply (spec_bind _ _ any).
    { eapply spec_weaken, spec_load_local. by rewrite Hkw. }
    intros kw' _.
    eapply (spec_bind _ _ any).
    { eapply spec_weaken, spec_pipeline; [done|by apply Hnever]. }
    intros images _. by apply spec_ret.
  - eapply (spec_bind _ _ (λ p, p = (s, None))); [by apply spec_ret|].
    intros ? ->.
    eapply (spec_bind _ _ any).
    { case_bool_decide as Hm; [|by apply spec_ret].
      destruct (cfg_res_adapter_model config) as [dir|] eqn:Hdir; [|done].
      eapply (spec_bind _ _ any);
        [by eapply load_resadapter_spec|intros _ _].
      quiet_steps Hq. }
    intros _ _.
    eapply (spec_bind _ _ any).
    { eapply spec_weaken, spec_getattr. by rewrite Ht. }
    intros task _.
    eapply (spec_bind _ _ any); [quiet_steps Hq|]. intros _ _.
    eapply (spec_bind _ _ (λ _, False)); [|by intros ? []].
    unfold resadapter_loop. rewrite Ht.
    eapply (spec_bind _ _ any); [by apply spec_emit|]. intros _ _.
    apply (for_enumerate_must_raise _ _
             (λ p, prepared_for E config p.1) _ (prepared_count config));
      [|lia|done].
    intros k prompt [s0 ri] Hs0. simpl in Hs0.
    eapply spec_bind; [by apply (assemble_ip_adapter E config)|].
    intros s' (Hs' & [kw Hkw] & Hk).
    eapply (spec_bind _ _ any).
    { eapply spec_weaken, spec_load_local. by rewrite Hkw. }
    intros kw' _.
    eapply (spec_bind _ _ any).
    { eapply spec_weaken, spec_pipeline; [done|by apply Hnever]. }
    intros images _.
    eapply (spec_bind _ _ any); [by apply save_images_index_error|].
    intros _ _. by apply spec_ret.
Qed.

Lemma main_index_error E config :
  quiet E → has_attributes E config →
  cfg_task config = Some "ip_adapter" →
  cfg_sub_task config ∈ recognized_sub_tasks →
  (prepared_count config < length (get (cfg_prompts config) []))%nat →
  spec any (λ e, e = IndexError) (λ _, False) (main E config).
Proof.
  intros Hq Ha Ht Hsub Hn.
  assert (accepted config) as Hacc.
  { split; [|done]. rewrite Ht. apply (bool_decide_unpack _).
    vm_compute. exact I. }
  unfold main.
  eapply (spec_bind _ _ any).
  { eapply spec_mono; [apply get_config_ok; [done|]|done..].
    destruct Ha as [?|[? _]]; [by left|by right]. }
  intros output_dir _.
  eapply (spec_bind _ _ any).
  { eapply spec_mono; [apply load_pipeline_ok; [done|apply Hacc]|done..]. }
  intros _ _.
  eapply (spec_bind _ _ (prepared_for E config)).
  { apply spec_result.
    - eapply spec_mono; [by apply prepare_ok|done..].
    - intros h s h'. apply prepare_result. }
  intros s Hs. by apply inference_index_error.
Qed.

(** X7.  An ip_adapter run of a recognized sub-task in which the prompts
    outnumber the prepared inputs (the shortest of the image lists of the
    sub-task) ends with IndexError when no external call raises: the lists
    are cut to the shortest at preparation, the prompts are not.  Every
    pipeline call made before that has a prompt index below the number of
    prepared inputs. *)
Theorem more_prompts_than_images E config :
  quiet E → has_attributes E config →
  cfg_task config = Some "ip_adapter" →
  cfg_sub_task config ∈ recognized_sub_tasks →
  (prepared_count config < length (get (cfg_prompts config) []))%nat →
  (run E config).1 = Raise IndexError
  ∧ Forall (calls_below (prepared_count config)) (run E config).2.
Proof.
  intros Hq Ha Ht Hsub Hn. split.
  - destruct (spec_run E _ _ _ config
                (main_index_error E config Hq Ha Ht Hsub Hn)) as [_ Hr].
    by destruct (run E config).1 as [[]|e]; [|rewrite Hr].
  - eapply Forall_impl;
      [exact (proj1 (spec_run E _ _ _ config (main_as_table E config)))|].
    intros ev Hev site i args ->.
    destruct (Hev site i args eq_refl) as (_ & Hiv & Hii & Hin).
    unfold recognized_sub_tasks in Hsub.
    rewrite !elem_of_cons, elem_of_nil in Hsub. unfold prepared_count.
    destruct Hsub as [Hc|[Hc|[Hc|[]]]]; rewrite Hc; eval_eq_str.
    + destruct (Hiv Ht Hc) as (r & Hr & _). by apply lookup_lt_Some in Hr.
    + destruct (Hii Ht Hc) as (r & x & Hr & Hx & _).
      apply lookup_lt_Some in Hr, Hx. lia.
    + destruct (Hin Ht Hc) as (r & x & m & Hr & Hx & Hm & _).
      apply lookup_lt_Some in Hr, Hx, Hm. lia.
Qed.

Lemma more_prompts_than_images_witness :
  (run calm_env
     (task_config (Some "ip_adapter") (Some "image_variation")
        ["a cat"; "a dog"] [] [] ["inputs/reference.png"]
        None (Some false))).1
  = Raise IndexError.
Proof.
  refine (proj1 (more_prompts_than_images calm_env
                   (task_config (Some "ip_adapter") (Some "image_variation")
                      ["a cat"; "a dog"] [] [] ["inputs/reference.png"]
                      None (Some false))
                   _ _ _ _ _)).
  - by intros ? ?.
  - right. split; discriminate.
  - reflexivity.
  - apply (bool_decide_unpack _). vm_compute. exact I.
  - vm_compute. lia.
Defined.

(** ** The state dict of the normalization *)

Lemma read_state_dict_loop E file keys
    (sd0 sd : gmap string (string * string)) h h' :
  for_each (λ key (norm_state_dict : gmap string (string * string)),
              call E (EvGetTensor file key);;
              mret (<[key := (file, key)]> norm_state_dict))
           keys sd0 h = (Ok sd, h') →
  h' = h ++ (EvGetTensor file <$> keys) ∧
  ∀ key, sd !! key = if bool_decide (key ∈ keys) then Some (file, key)
                     else sd0 !! key.
Proof.
  revert sd0 h. induction keys as [|k keys IH]; intros sd0 h Hrun.
  - injection Hrun as <- <-. by rewrite app_nil_r.
  - rewrite for_each_cons in Hrun. unfold mbind, M_bind, call in Hrun.
    destruct (fails E h (EvGetTensor file k)); simpl in Hrun; [done|].
    apply IH in Hrun as [-> Hsd]. split; [by rewrite <- app_assoc|].
    intros key. rewrite Hsd.
    destruct (decide (key ∈ keys)) as [Hin|Hin].
    + rewrite !bool_decide_eq_true_2; [done|by right|done].
    + rewrite (bool_decide_eq_false_2 _ Hin).
      destruct (decide (key = k)) as [->|Hne].
      * rewrite lookup_insert_eq. rewrite bool_decide_eq_true_2; [done|by left].
      * rewrite lookup_insert_ne by done.
        rewrite bool_decide_eq_false_2; [done|].
        rewrite elem_of_cons. by intros [?|?].
Qed.

Lemma read_state_dict_tensors E file :
  spec (λ ev, ∃ key, ev = EvGetTensor file key) any any
    (read_state_dict E file).
Proof. unfold read_state_dict. emits_steps ltac:(by eexists) ltac:(done). Qed.

(** X8.  Whenever [load_resadapter] hands a state dict to the unet, the
    normalization file was opened and its tensors read one by one in the
    order of its keys, and the dict holds exactly the keys of the file, each
    with the tensor of that name of that file. *)
Theorem state_dict_holds_file_keys E config dir h t sd :
  cfg_res_adapter_model config = Some dir →
  (load_resadapter E config h).2 = h ++ t →
  EvLoadStateDict sd ∈ t →
  let file := os_path_join dir NORM_WEIGHTS_NAME in
  (∀ key, sd !! key = if bool_decide (key ∈ safetensors_keys E file)
                      then Some (file, key) else None)
  ∧ ∃ t', t = EvSafeOpen file :: (EvGetTensor file <$> safetensors_keys E file)
                ++ EvLoadStateDict sd :: t'.
Proof.
  intros Hm Ht Hin file. revert Ht.
  unfold load_resadapter. rewrite Hm.
  pose proof (read_state_dict_tensors E file) as Hloop.
  assert (∀ h sd' h', read_state_dict E file h = (Ok sd', h') →
            h' = h ++ (EvGetTensor file <$> safetensors_keys E file) ∧
            ∀ key, sd' !! key
                   = if bool_decide (key ∈ safetensors_keys E file)
                     then Some (file, key) else None) as Hok.
  { intros h0 sd' h' Hrun. apply read_state_dict_loop in Hrun as [-> Hsd].
    split; [done|]. intros key. rewrite Hsd. by rewrite lookup_empty. }
  revert Hloop Hok. generalize (read_state_dict E). intros loop Hloop Hok.
  unfold try_except, mbind, M_bind, getattr, as_str, mret, M_ret, call, emit.
  simpl. fold file.
  destruct (fails E h (EvSafeOpen file)) eqn:Hopen; simpl.
  { rewrite <- ?app_assoc. intros <-%app_inv_head.
    repeat (apply elem_of_cons in Hin as [?|Hin]; [done|]).
    by apply elem_of_nil in Hin. }
  intros Ht.
  destruct (Hloop (h ++ [EvSafeOpen file])) as (t1 & Ht1 & HP1 & _).
  specialize (Hok (h ++ [EvSafeOpen file])).
  destruct (loop file (h ++ [EvSafeOpen file])) as [[sd'|e] h1];
    simpl in Ht1; subst h1.
  - destruct (Hok sd' _ eq_refl) as [Heq Hsd]. apply app_inv_head in Heq.
    subst t1.
    assert (∃ t', t = EvSafeOpen file
                      :: (EvGetTensor file <$> safetensors_keys E file)
                      ++ EvLoadStateDict sd' :: t'
                  ∧ ∀ sd'', EvLoadStateDict sd'' ∉ t') as (t' & -> & Ht').
    { destruct (fails E _ (EvLoadStateDict sd')); simpl in Ht;
        rewrite <- ?app_assoc in Ht; simpl in Ht;
        apply app_inv_head in Ht; subst t; eexists; (split; [done|]);
        intros sd''; rewrite !elem_of_cons, elem_of_nil; by intros [?|[?|[]]]. }
    assert (sd = sd') as ->.
    { apply elem_of_cons in Hin as [?|Hin]; [done|].
      apply elem_of_app in Hin as [Hin|Hin].
      - by apply list_elem_of_fmap in Hin as (? & ? & _).
      - apply elem_of_cons in Hin as [Heq|Hin]; [by injection Heq|].
        by apply Ht' in Hin. }
    split; [done|]. by eexists.
  - simpl in Ht. rewrite <- ?app_assoc in Ht. simpl in Ht.
    apply app_inv_head in Ht. subst t.
    apply elem_of_cons in Hin as [?|Hin]; [done|].
    apply elem_of_app in Hin as [Hin|Hin].
    + rewrite Forall_forall in HP1. by destruct (HP1 _ Hin) as [key ?].
    + repeat (apply elem_of_cons in Hin as [?|Hin]; [done|]).
      by apply elem_of_nil in Hin.
Qed.

Lemma state_dict_holds_file_keys_witness :
  let file := "ra/diffusion_pytorch_model.safetensors" in
  let sd : gmap string (string * string) :=
    {[ "conv_norm" := (file, "conv_norm") ]} in
  sd !! "conv_norm" = Some (file, "conv_norm") ∧ sd !! "conv_bias" = None.
Proof.
  intros file sd.
  assert (cfg_res_adapter_model
            (task_config (Some "t2i") None ["a"] [] [] [] (Some "ra") None)
          = Some "ra") as Hm by reflexivity.
  assert ((load_resadapter calm_env
             (task_config (Some "t2i") None ["a"] [] [] [] (Some "ra") None)
             []).2
          = [] ++ [EvSafeOpen file; EvGetTensor file "conv_norm";
                   EvLoadStateDict sd;
                   EvPrint ("Load normalization safetensors from "
                              +:+ file +:+ ".");
                   EvLoadLoraWeights "ra/pytorch_lora_weights.safetensors"
                     "res_adapter"]) as Ht
    by (vm_compute; reflexivity).
  assert (EvLoadStateDict sd
          ∈ [EvSafeOpen file; EvGetTensor file "conv_norm";
             EvLoadStateDict sd;
             EvPrint ("Load normalization safetensors from "
                        +:+ file +:+ ".");
             EvLoadLoraWeights "ra/pytorch_lora_weights.safetensors"
               "res_adapter"]) as Hin
    by (apply (list_elem_of_lookup_2 _ 2%nat); reflexivity).
  split.
  - exact (proj1 (state_dict_holds_file_keys calm_env _ "ra" [] _ sd Hm Ht Hin)
             "conv_norm").
  - exact (proj1 (state_dict_holds_file_keys calm_env _ "ra" [] _ sd Hm Ht Hin)
             "conv_bias").
Defined.

(** ** What is compared, and what is written where *)

Lemma spec_for_each_in {A St} (P : event → Prop) (X : exn → Prop)
    (I : St → Prop) (body : A → St → M St) (l : list A) (s : St) :
  (∀ x s, x ∈ l → I s → spec P X I (body x s)) → I s →
  spec P X I (for_each body l s).
Proof.
  revert s. induction l as [|x l IH]; intros s Hb Hs; simpl.
  - by apply spec_ret.
  - eapply spec_bind; [apply Hb; [by left|done]|]. intros s' Hs'.
    apply IH; [|done]. intros y s'' Hy. apply Hb. by right.
Qed.

Lemma image_open_value E (P : event → Prop) path :
  P (EvImageOpen path) →
  spec P any (λ im, im = Opened path (native_size E path))
    (image_open E path).
Proof.
  intros HP. unfold image_open.
  eapply (spec_bind _ _ any); [by apply spec_call|]. intros _ _.
  by apply spec_ret.
Qed.

Lemma resize_value E (P : event → Prop) im size :
  P (EvResize im size) →
  spec P any (λ im', im' = Resized im size) (resize E im size).
Proof.
  intros HP. unfold resize.
  eapply (spec_bind _ _ any); [by apply spec_call|]. intros _ _.
  by apply spec_ret.
Qed.

Lemma batch_lookup site i n j a :
  (Generated site i <$> seq 0 n) !! j = Some a →
  a = Generated site i j ∧ (j < n)%nat.
Proof.
  rewrite list_lookup_fmap. intros H.
  destruct (seq 0 n !! j) as [k|] eqn:Hs; [|done].
  apply lookup_seq in Hs as [-> ?]. injection H as <-. done.
Qed.

Lemma batches_of_snoc batches site n :
  batches_of site batches →
  batches_of site (batches ++ [Generated site (length batches) <$> seq 0 n]).
Proof.
  intros Hb k batch Hk. apply lookup_snoc_Some in Hk as [[_ Hk]|[<- <-]].
  - by apply Hb.
  - by exists n.
Qed.

Lemma enable_compare_iff E (P : event → Prop) config :
  spec P any (λ b, b = true ↔ compare_enabled config)
    (enable_compare E config).
Proof.
  unfold enable_compare, compare_enabled. case_bool_decide as Hm.
  - apply spec_ret. split; [done|]. by intros [? _].
  - eapply (spec_bind _ _ (λ v, v = cfg_enable_compare config));
      [by apply spec_getattr|].
    intros ? ->. apply spec_ret.
    destruct (cfg_enable_compare config) as [[]|]; simpl;
      (split; [done|]); by intros [_ ?].
Qed.

Lemma get_config_dir E (P : event → Prop) config :
  P (EvMakedirs (output_dir_of E config)) → (∀ msg, P (EvPrint msg)) →
  spec P any (λ dir, dir = output_dir_of E config) (get_config E config).
Proof.
  intros Hd Hp. unfold get_config.
  eapply spec_bind; [by apply spec_getattr|]. intros ? ->.
  eapply (spec_bind _ _ any); [by apply spec_call|]. intros _ _.
  eapply (spec_bind _ _ any); [by apply spec_emit|]. intros _ _.
  by apply spec_ret.
Qed.

Lemma prepare_controlnet_saved E config s :
  spec (λ ev, compared_pairwise ev ∧ saved_as_configured E config ev) any any
    (prepare_controlnet E config (output_dir_of E config) s).
Proof.
  unfold prepare_controlnet.
  eapply (spec_bind _ _ any); [|intros [? ?] _; by apply spec_ret].
  apply (spec_for_each_in _ _ any); [|done].
  intros image_path [condition_images source_images] Hin _.
  eapply spec_bind; [by apply image_open_value|]. intros ? ->. simpl.
  destruct (geometry config (native_size E image_path)) as [width height]
    eqn:Hg.
  eapply spec_bind; [by apply resize_value|]. intros ? ->.
  eapply (spec_bind _ _ any); [by apply spec_call|]. intros _ _.
  eapply (spec_bind _ _ any); [|intros _ _; by apply spec_ret].
  apply spec_call; [|done]. split; [done|].
  exists image_path. unfold resized_to. by rewrite Hg.
Qed.

Lemma prepare_saved E config :
  spec (λ ev, compared_pairwise ev ∧ saved_as_configured E config ev) any any
    (prepare E config (output_dir_of E config)).
Proof.
  unfold prepare.
  eapply (spec_bind _ _ any).
  { destruct (eq_str (cfg_task config) "controlnet");
      [apply prepare_controlnet_saved|by apply spec_ret]. }
  intros s _. emits_go ltac:(done).
Qed.

Lemma save_images_saved E config compare original_images resadapter_images
    i prompt n :
  (compare = true ↔ compare_enabled config) →
  get (cfg_prompts config) [] !! i = Some prompt →
  resadapter_images !! i = Some (Generated ResAdapter i <$> seq 0 n) →
  (∀ l, original_images = Some l → batches_of Baselines l) →
  spec (λ ev, compared_pairwise ev ∧ saved_as_configured E config ev) any any
    (save_images E config (output_dir_of E config) compare original_images
       resadapter_images i prompt).
Proof.
  intros Hc Hp Hr Ho. unfold save_images.
  eapply (spec_bind _ _ any); [|intros _ _; by apply spec_emit].
  destruct compare.
  - assert (compare_enabled config) as Hen by by apply Hc.
    apply (spec_for_each_in _ _ any); [|done]. intros j [] Hj _.
    unfold range in Hj. apply elem_of_seq in Hj as [_ Hj]. simpl in Hj.
    eapply spec_bind; [by apply spec_index|]. intros ri Hri.
    rewrite Hr in Hri. injection Hri as <-.
    eapply spec_bind; [by apply spec_index|]. intros a [-> _]%batch_lookup.
    eapply spec_bind; [by apply spec_load_local|]. intros oi Hoi.
    eapply spec_bind; [by apply spec_index|]. intros oi_i Hoi_i.
    destruct (Ho _ Hoi _ _ Hoi_i) as [n' ->].
    eapply spec_bind; [by apply spec_index|]. intros b [-> _]%batch_lookup.
    eapply (spec_bind _ _ any).
    { apply spec_call; [|done]. split; [by exists i, j|done]. }
    intros _ _.
    eapply (spec_bind _ _
              (λ ci, ci = [saved_row config ResAdapter i j;
                           saved_row config Baselines i j])).
    { unfold saved_row.
      destruct (flag_truthy (cfg_draw_text config)); [|by apply spec_ret].
      change (seq 0 (length texts)) with [0%nat; 1%nat]. cbn [for_each].
      eapply (spec_bind _ _
                (λ ci, ci = [Labelled (Generated ResAdapter i j) "ResAdapter";
                             Generated Baselines i j])).
      { eapply spec_bind; [by apply spec_index|]. intros row [= <-].
        eapply spec_bind; [by apply spec_index|]. intros text [= <-].
        eapply (spec_bind _ _ any); [|intros _ _; by apply spec_ret].
        apply spec_call; [|done]. split; [by exists ResAdapter, i, j|done]. }
      intros ? ->.
      eapply (spec_bind _ _
                (λ ci, ci = [Labelled (Generated ResAdapter i j) "ResAdapter";
                             Labelled (Generated Baselines i j) "Baseline"]));
        [|intros ? ->; by apply spec_ret].
      eapply spec_bind; [by apply spec_index|]. intros row [= <-].
      eapply spec_bind; [by apply spec_index|]. intros text [= <-].
      eapply (spec_bind _ _ any); [|intros _ _; by apply spec_ret].
      apply spec_call; [|done]. split; [by exists Baselines, i, j|done]. }
    intros ? ->.
    destruct (flag_truthy (cfg_split_images config)) eqn:Hsplit.
    + change (seq 0 (length texts)) with [0%nat; 1%nat]. cbn [for_each].
      eapply (spec_bind _ _ any).
      { eapply spec_bind; [by apply spec_index|]. intros row [= <-].
        eapply spec_bind; [by apply spec_index|]. intros text [= <-].
        apply spec_call; [|done]. split; [done|].
        exists i, prompt, j.
        split_and!; [done|done|by intros []|intros _ ?; congruence|].
        intros _ _. by exists ResAdapter. }
      intros [] _.
      eapply (spec_bind _ _ any); [|intros ? _; by apply spec_ret].
      eapply spec_bind; [by apply spec_index|]. intros row [= <-].
      eapply spec_bind; [by apply spec_index|]. intros text [= <-].
      apply spec_call; [|done]. split; [done|].
      exists i, prompt, j.
      split_and!; [done|done|by intros []|intros _ ?; congruence|].
      intros _ _. by exists Baselines.
    + apply spec_call; [|done]. split; [done|].
      exists i, prompt, j.
      split_and!; [done|done|by intros []|done|intros _ ?; congruence].
  - assert (¬ compare_enabled config) as Hne by (by intros ?%Hc).
    eapply spec_bind; [by apply spec_index|]. intros ci Hci.
    rewrite Hr in Hci. injection Hci as <-.
    apply (spec_for_each_in _ _ any); [|done]. intros m [] Hm _.
    unfold range in Hm. apply elem_of_seq in Hm as [_ Hm]. simpl in Hm.
    eapply spec_bind; [by apply spec_index|]. intros t [-> _]%batch_lookup.
    apply spec_call; [|done]. split; [done|].
    exists i, prompt, m. by split_and!.
Qed.

Lemma baseline_loop_saved E config n_prompt generator s :
  spec (λ ev, compared_pairwise ev ∧ saved_as_configured E config ev) any
    (λ state, batches_of Baselines state.2)
    (baseline_loop E config n_prompt generator s).
Proof.
  unfold baseline_loop.
  eapply (spec_bind _ _ any); [by apply spec_emit|]. intros _ _.
  eapply (spec_conseq _ _ _ _ any);
    [apply (spec_for_enumerate _ _
              (λ i state, length state.2 = i ∧ batches_of Baselines state.2))
    |by intros ? [_ ?]|done];
    [|split; [done|intros k batch Hk; by destruct k]].
  intros i prompt [s' original_images] [Hlen Hb]. simpl in Hlen, Hb.
  eapply (spec_bind _ _ any); [emits_go ltac:(done)|]. intros s'' _.
  eapply (spec_bind _ _ any); [by eapply spec_weaken, spec_load_local|].
  intros kw _.
  eapply spec_bind; [by apply spec_pipeline|].
  intros images [n ->]. apply spec_ret. split; simpl.
  - rewrite length_app. simpl. lia.
  - subst i. by apply batches_of_snoc.
Qed.

Lemma resadapter_loop_saved E config n_prompt generator compare
    original_images s :
  (compare = true ↔ compare_enabled config) →
  (∀ l, original_images = Some l → batches_of Baselines l) →
  spec (λ ev, compared_pairwise ev ∧ saved_as_configured E config ev) any any
    (resadapter_loop E config (output_dir_of E config) n_prompt generator
       compare original_images s).
Proof.
  intros Hc Ho. unfold resadapter_loop.
  eapply (spec_bind _ _ any); [by apply spec_emit|]. intros _ _.
  eapply spec_weaken,
    (spec_for_enumerate_at _ _ (λ i state, length state.2 = i) _
       (get (cfg_prompts config) []));
    [|by intros k x Hk|done].
  intros i prompt [s' resadapter_images] Hi Hlen. simpl in Hlen.
  eapply (spec_bind _ _ any); [emits_go ltac:(done)|]. intros s'' _.
  eapply (spec_bind _ _ any); [by eapply spec_weaken, spec_load_local|].
  intros kw _.
  eapply spec_bind; [by apply spec_pipeline|].
  intros images [n ->].
  eapply (spec_bind _ _ any).
  { apply (save_images_saved _ _ _ _ _ _ _ n); [done..| |done].
    by apply list_lookup_middle. }
  intros _ _. apply spec_ret. simpl. rewrite length_app. simpl. lia.
Qed.

Lemma main_saved E config :
  spec (λ ev, compared_pairwise ev ∧ saved_as_configured E config ev) any any
    (main E config).
Proof.
  unfold main.
  eapply spec_bind; [by apply get_config_dir|]. intros ? ->.
  eapply (spec_bind _ _ any); [emits_go ltac:(done)|intros _ _].
  eapply (spec_bind _ _ any); [apply prepare_saved|intros s _].
  unfold inference, inference_from.
  eapply (spec_bind _ _ any); [emits_go ltac:(done)|intros generator _].
  eapply spec_bind; [apply enable_compare_iff|]. intros compare Hc.
  eapply (spec_bind _ _
            (λ p, ∀ l, p.2 = Some l → batches_of Baselines l)).
  { destruct compare; [|by apply spec_ret].
    eapply spec_bind; [apply baseline_loop_saved|].
    intros [s' oi] Hoi. apply spec_ret. simpl. by intros ? [= <-]. }
  intros [s' original_images] Ho. simpl in Ho.
  eapply (spec_bind _ _ any); [emits_go ltac:(done)|intros _ _].
  eapply (spec_bind _ _ any); [emits_go ltac:(done)|intros task _].
  eapply (spec_bind _ _ any); [emits_go ltac:(done)|intros _ _].
  eapply (spec_bind _ _ any); [by apply resadapter_loop_saved|].
  intros; by apply spec_ret.
Qed.

(** X9.  In every run, each stacked pair puts image [j] of prompt [i] made
    with the adapter on top of image [j] of the same prompt made without it,
    and each caption is drawn on an image of its own loop: "ResAdapter" on an
    image of the loop with the adapter, "Baseline" on one of the baseline
    loop. *)
Theorem comparison_pairs_aligned E config :
  Forall compared_pairwise (run E config).2.
Proof.
  eapply Forall_impl;
    [exact (proj1 (spec_run E _ any any config (main_saved E config)))|].
  by intros ev [? _].
Qed.

(** [first_100] counts code points, not bytes: 60 two-byte letters are
    kept whole, and of 101 of them the first 100 are kept. *)
Lemma first_100_code_points :
  first_100 (String.concat "" (replicate 60 "é"))
  = String.concat "" (replicate 60 "é") ∧
  first_100 (String.concat "" (replicate 101 "é"))
  = String.concat "" (replicate 100 "é").
Proof. split; vm_compute; reflexivity. Qed.

(** X10.  In every run, the directory made is the output directory; every
    condition image written is the edge map of a configured source image,
    resized to its target geometry, and its path is [os.path.join] of the
    output directory and condition_<stem>.jpg; every result written is image
    [j], below the configured number of images per prompt, of a configured
    prompt, and its path is [os.path.join] of the output directory and a
    name made of the first 100 code points of the prompt and [j]: the image
    of the adapter alone without the comparison, the pair with the
    comparison, one file per loop with the name of the loop after [j] when
    pairs are split. *)
Theorem outputs_saved_as_configured E config :
  Forall (saved_as_configured E config) (run E config).2.
Proof.
  eapply Forall_impl;
    [exact (proj1 (spec_run E _ any any config (main_saved E config)))|].
  by intros ev [_ ?].
Qed.

(** ** The adapters of the accelerated task *)

Lemma preceded_by_none a t : Forall no_adapted_call t → preceded_by a t.
Proof.
  intros Ht t1 i args t2 ->. apply Forall_app in Ht as [_ Ht].
  apply Forall_cons in Ht as [Hev _]. by destruct (Hev i args).
Qed.

Lemma preceded_by_app_l a t1 t2 :
  Forall no_adapted_call t1 → preceded_by a t2 → preceded_by a (t1 ++ t2).
Proof.
  intros H1 H2. induction H1 as [|ev t1 Hev _ IH]; [done|].
  intros u1 i args u2 Heq. destruct u1 as [|ev' u1]; simpl in Heq.
  - injection Heq as -> _. by destruct (Hev i args).
  - injection Heq as <- Heq. right. by eapply IH.
Qed.

Lemma preceded_by_after a t2 :
  no_adapted_call a → preceded_by a ([a] ++ t2).
Proof.
  intros Ha u1 i args u2 Heq. destruct u1 as [|ev u1]; simpl in Heq.
  - injection Heq as Heq _. by destruct (Ha i args).
  - injection Heq as <- _. by left.
Qed.

Lemma appends_call E (ev : event) : appends (λ t, t = [ev]) (call E ev).
Proof. intros h. by exists [ev]. Qed.

Lemma appends_quiet_bind {A B} a (m : M A) (f : A → M B) :
  spec no_adapted_call any any m → (∀ x, appends (preceded_by a) (f x)) →
  appends (preceded_by a) (m ≫= f).
Proof.
  intros Hm Hf. eapply appends_bind; [by eapply appends_spec|done| |].
  - apply preceded_by_none.
  - apply preceded_by_app_l.
Qed.

Lemma appends_ret_bind {A B} (T : list event → Prop) (a : A) (f : A → M B) :
  appends T (f a) → appends T (mret a ≫= f).
Proof. intros H h. exact (H h). Qed.

Ltac quiet_go := emits_go ltac:(by intros ? ?).

Lemma main_accelerate E config :
  cfg_task config = Some "t2i_accelerate" →
  appends
    (preceded_by
       (EvSetAdapters ["res_adapter"; "lcm_lora"]
          [get (cfg_res_adapter_alpha config) float_1_0;
           get (cfg_lcm_lora_alpha config) float_1_0]))
    (main E config).
Proof.
  intros Ht. unfold main.
  apply appends_quiet_bind; [quiet_go|intros output_dir].
  apply appends_quiet_bind; [quiet_go|intros _].
  apply appends_quiet_bind; [quiet_go|intros s].
  unfold inference, inference_from.
  apply appends_quiet_bind; [quiet_go|intros generator].
  apply appends_quiet_bind; [quiet_go|intros compare].
  apply appends_quiet_bind; [quiet_go|intros [s' oi]].
  apply appends_quiet_bind; [quiet_go|intros _].
  rewrite Ht. apply appends_ret_bind. eval_eq_str.
  eapply appends_bind; [apply appends_call| | |].
  - intros _. eapply (appends_spec any any any). emits_go ltac:(done).
  - intros ? ->. by apply (preceded_by_after _ []).
  - intros ? t2 -> _. by apply preceded_by_after.
Qed.

Lemma main_loads_configured E config :
  spec (loads_configured_adapter config) any any (main E config).
Proof.
  unfold main.
  eapply (spec_bind _ _ any); [emits_go ltac:(by intros ? ?)|intros dir _].
  eapply (spec_bind _ _ any); [emits_go ltac:(by intros ? ?)|intros _ _].
  eapply (spec_bind _ _ any); [emits_go ltac:(by intros ? ?)|intros s _].
  unfold inference, inference_from.
  eapply (spec_bind _ _ any); [emits_go ltac:(by intros ? ?)|intros g _].
  eapply (spec_bind _ _ any); [emits_go ltac:(by intros ? ?)|intros c _].
  eapply (spec_bind _ _ any); [emits_go ltac:(by intros ? ?)|intros [? ?] _].
  eapply (spec_bind _ _ any); [|intros _ _; emits_go ltac:(by intros ? ?)].
  case_bool_decide as Hm; [|by apply spec_ret].
  destruct (cfg_res_adapter_model config) as [model|] eqn:Hdir; [|done].
  eapply (spec_bind _ _ any); [|intros _ _; emits_go ltac:(by intros ? ?)].
  eapply load_resadapter_spec; [done| | |done].
  - by intros [] ? ? ?.
  - intros ? ? [= <- <-]. by rewrite Hdir.
Qed.

(** X11.  In every run of the task "t2i_accelerate", the adapters
    "res_adapter" and "lcm_lora" are activated together, with the configured
    weights (default 1.0 each), before the first pipeline call of the second
    loop, whether or not an adapter is configured; lora weights, in any run,
    are loaded only from a configured, non-empty adapter directory and under
    the name "res_adapter".  So with no adapter configured "res_adapter" is
    activated without ever being loaded. *)
Theorem accelerate_sets_adapters E config :
  cfg_task config = Some "t2i_accelerate" →
  preceded_by
    (EvSetAdapters ["res_adapter"; "lcm_lora"]
       [get (cfg_res_adapter_alpha config) float_1_0;
        get (cfg_lcm_lora_alpha config) float_1_0])
    (run E config).2
  ∧ Forall (loads_configured_adapter config) (run E config).2.
Proof.
  intros Ht. split.
  - by apply appends_run, main_accelerate.
  - exact (proj1 (spec_run E _ any any config (main_loads_configured E config))).
Qed.

Lemma accelerate_sets_adapters_witness :
  let config :=
    task_config (Some "t2i_accelerate") None ["a cat"] [] [] [] None
      (Some false) in
  preceded_by
    (EvSetAdapters ["res_adapter"; "lcm_lora"] [float_1_0; float_1_0])
    (run calm_env config).2
  ∧ Forall (loads_configured_adapter config) (run calm_env config).2.
Proof.
  intros config. apply (accelerate_sets_adapters calm_env config).
  reflexivity.
Defined.

(** ** Runs that complete *)

Lemma pipeline_full E config (P : event → Prop) (X : exn → Prop) site i args :
  full_batches E config → P (EvPipeline site i args) →
  (∀ h, fails E h (EvPipeline site i args) = true →
        X (ExternalError (EvPipeline site i args))) →
  spec P X
    (λ images, ∃ n, images = Generated site i <$> seq 0 n ∧
       (Z.to_nat (get (cfg_num_images_per_prompt config) 2%Z) ≤ n)%nat)
    (pipeline E site i args).
Proof.
  intros Hfull HP HX h. exists [EvPipeline site i args]. unfold pipeline.
  destruct (fails E h _) eqn:Hf; simpl.
  - split_and!; [done|by apply Forall_singleton|by eapply HX].
  - split_and!; [done|by apply Forall_singleton|by eexists].
Qed.

Lemma batches_full_snoc config site batches i n :
  batches_full config site i batches →
  (Z.to_nat (get (cfg_num_images_per_prompt config) 2%Z) ≤ n)%nat →
  batches_full config site (S i) (batches ++ [Generated site i <$> seq 0 n]).
Proof.
  intros [<- Hb] Hn. split; [rewrite length_app; simpl; lia|].
  intros k batch Hk. apply lookup_snoc_Some in Hk as [[_ Hk]|[<- <-]].
  - by apply Hb.
  - by exists n.
Qed.

Lemma batch_lookup_lt site i n j :
  (j < n)%nat → (Generated site i <$> seq 0 n) !! j = Some (Generated site i j).
Proof. intros Hj. by rewrite list_lookup_fmap, lookup_seq_lt. Qed.

Lemma assemble_ok E config (P : event → Prop) (X : exn → Prop) i s :
  enough_inputs config → prepared_for E config s →
  (i < length (get (cfg_prompts config) []))%nat →
  spec P X (λ s', prepared_for E config s' ∧ is_Some (kwargs s'))
    (assemble_kwargs_baseline (cfg_task config) i s).
Proof.
  intros [Ht|(Hip & Hsub & Hn)] Hs Hi.
  - assert (∃ task, cfg_task config = Some task
                    ∧ (task = "t2i" ∨ task = "t2i_accelerate"))
      as (task & Htask & Hor) by (destruct Ht; eauto).
    rewrite Htask.
    eapply spec_pure; [intros h; by apply assemble_t2i|]. simpl.
    split; [by apply prepared_for_set_kwargs|done].
  - destruct (Hs Hip) as (Hst & Hiv & Hii & Hin). rewrite Hip.
    unfold recognized_sub_tasks in Hsub.
    rewrite !elem_of_cons, elem_of_nil in Hsub. unfold prepared_count in Hn.
    destruct Hsub as [Hc|[Hc|[Hc|[]]]]; rewrite Hc in Hst, Hn;
      revert Hn; eval_eq_str; intros Hn.
    + specialize (Hiv Hc).
      eapply spec_pure; [intros h; by apply assemble_image_variation|].
      rewrite list_lookup_fmap.
      destruct (get (cfg_ip_adapter_images config) [] !! i) as [r|] eqn:Hr;
        simpl; [split; [by apply prepared_for_set_kwargs|done]|].
      apply lookup_ge_None in Hr. lia.
    + destruct (Hii Hc) as [Hrs Hss].
      eapply spec_pure; [intros h; by apply assemble_image_to_image|].
      rewrite !list_lookup_fmap.
      destruct (zip (get (cfg_ip_adapter_images config) [])
                    (get (cfg_source_images config) []) !! i)
        as [[r x]|] eqn:Hz; simpl;
        [split; [by apply prepared_for_set_kwargs|done]|].
      apply lookup_ge_None in Hz. rewrite length_zip in Hz. lia.
    + destruct (Hin Hc) as (Hss & Hms & Hrs).
      eapply spec_pure; [intros h; by apply assemble_inpaint|].
      rewrite !list_lookup_fmap.
      destruct (zip3 (get (cfg_ip_adapter_images config) [])
                     (get (cfg_source_images config) [])
                     (get (cfg_mask_images config) []) !! i)
        as [[[r x] m]|] eqn:Hz; simpl;
        [split; [by apply prepared_for_set_kwargs|done]|].
      apply lookup_ge_None in Hz. rewrite length_zip3 in Hz. lia.
Qed.

Lemma spec_index_some {A} (P : event → Prop) (X : exn → Prop) (l : list A)
    (i : nat) (a : A) :
  l !! i = Some a → spec P X (λ a', a' = a) (index l i).
Proof. intros Hl. unfold index. rewrite Hl. by apply spec_ret. Qed.

Lemma spec_index_lt {A} (P : event → Prop) (X : exn → Prop) (l : list A)
    (i : nat) :
  (i < length l)%nat → spec P X any (index l i).
Proof.
  intros Hi. destruct (lookup_lt_is_Some_2 l i Hi) as [a Ha].
  by eapply spec_weaken, spec_index_some.
Qed.

Lemma save_images_ok E config output_dir compare original_images
    resadapter_images i prompt n :
  quiet E →
  resadapter_images !! i = Some (Generated ResAdapter i <$> seq 0 n) →
  (Z.to_nat (get (cfg_num_images_per_prompt config) 2%Z) ≤ n)%nat →
  (compare = true →
   ∃ l n', original_images = Some l ∧
           l !! i = Some (Generated Baselines i <$> seq 0 n') ∧
           (Z.to_nat (get (cfg_num_images_per_prompt config) 2%Z) ≤ n')%nat) →
  spec any (λ _, False) any
    (save_images E config output_dir compare original_images
       resadapter_images i prompt).
Proof.
  intros Hq Hr Hn Ho.
  assert (∀ ev h, fails E h ev = true → False) as Hnever
    by (intros ev h Hf; by rewrite Hq in Hf).
  unfold save_images.
  eapply (spec_bind _ _ any); [|intros _ _; by apply spec_emit].
  destruct compare.
  - destruct (Ho eq_refl) as (l & n' & -> & Hl & Hn').
    apply (spec_for_each_in _ _ any); [|done]. intros j [] Hj _.
    unfold range in Hj. apply elem_of_seq in Hj as [_ Hj]. simpl in Hj.
    eapply spec_bind; [by apply spec_index_some|]. intros ? ->.
    eapply spec_bind; [apply spec_index_some, batch_lookup_lt; lia|].
    intros ? ->.
    eapply spec_bind; [by apply spec_load_local|]. intros ? [= <-].
    eapply spec_bind; [by apply spec_index_some|]. intros ? ->.
    eapply spec_bind; [apply spec_index_some, batch_lookup_lt; lia|].
    intros ? ->.
    eapply (spec_bind _ _ any); [apply spec_call; [done|apply Hnever]|]. intros _ _.
    eapply (spec_bind _ _ (λ ci, length ci = 2%nat)).
    { destruct (flag_truthy (cfg_draw_text config)); [|by apply spec_ret].
      apply spec_for_each_in; [|done]. intros k ci Hk Hci.
      apply elem_of_seq in Hk as [_ Hk]. simpl in Hk.
      eapply (spec_bind _ _ any); [apply spec_index_lt; lia|]. intros row _.
      eapply (spec_bind _ _ any); [by apply spec_index_lt|]. intros text _.
      eapply (spec_bind _ _ any); [apply spec_call; [done|apply Hnever]|]. intros _ _.
      apply spec_ret. by rewrite length_insert. }
    intros ci Hci.
    destruct (flag_truthy (cfg_split_images config)).
    + apply (spec_for_each_in _ _ any); [|done]. intros q [] Hk _.
      apply elem_of_seq in Hk as [_ Hk]. simpl in Hk.
      eapply (spec_bind _ _ any); [apply spec_index_lt; lia|]. intros row _.
      eapply (spec_bind _ _ any); [by apply spec_index_lt|]. intros text _.
      apply spec_call; [done|apply Hnever].
    + apply spec_call; [done|apply Hnever].
  - eapply spec_bind; [by apply spec_index_some|]. intros ? ->.
    apply (spec_for_each_in _ _ any); [|done]. intros m [] Hm _.
    unfold range in Hm. apply elem_of_seq in Hm as [_ Hm]. simpl in Hm.
    eapply (spec_bind _ _ any);
      [eapply spec_weaken, spec_index_some, batch_lookup_lt; lia|].
    intros t _. apply spec_call; [done|apply Hnever].
Qed.

Lemma baseline_loop_ok E config n_prompt generator s :
  quiet E → enough_inputs config → full_batches E config →
  prepared_for E config s →
  spec any (λ _, False)
    (λ state, prepared_for E config state.1 ∧
       batches_full config Baselines (length (get (cfg_prompts config) []))
         state.2)
    (baseline_loop E config n_prompt generator s).
Proof.
  intros Hq Hin Hfull Hs.
  assert (∀ ev h, fails E h ev = true → False) as Hnever
    by (intros ev h Hf; by rewrite Hq in Hf).
  unfold baseline_loop.
  eapply (spec_bind _ _ any); [by apply spec_emit|]. intros _ _.
  apply (spec_for_enumerate_at _ _
           (λ i state, prepared_for E config state.1
                       ∧ batches_full config Baselines i state.2)
           _ (get (cfg_prompts config) []) _ 0%nat);
    [|by intros k x Hk|split; [done|split; [done|by intros []]]].
  intros i prompt [s' original_images] Hi [Hs' Hb]. simpl in Hs', Hb.
  apply lookup_lt_Some in Hi.
  eapply spec_bind; [by apply assemble_ok|]. intros s'' [Hs'' [kw Hkw]].
  eapply (spec_bind _ _ any).
  { eapply spec_weaken, spec_load_local. by rewrite Hkw. }
  intros kw' _.
  eapply spec_bind; [apply (pipeline_full E config); [done|done|apply Hnever]|].
  intros images (n & -> & Hn). apply spec_ret. split; [done|]. simpl.
  by apply batches_full_snoc.
Qed.

Lemma resadapter_loop_ok E config output_dir n_prompt generator compare
    original_images s :
  quiet E → enough_inputs config → full_batches E config →
  prepared_for E config s →
  (compare = true →
   ∃ l, original_images = Some l ∧
        batches_full config Baselines (length (get (cfg_prompts config) []))
          l) →
  spec any (λ _, False) any
    (resadapter_loop E config output_dir n_prompt generator compare
       original_images s).
Proof.
  intros Hq Hin Hfull Hs Ho.
  assert (∀ ev h, fails E h ev = true → False) as Hnever
    by (intros ev h Hf; by rewrite Hq in Hf).
  unfold resadapter_loop.
  eapply (spec_bind _ _ any); [by apply spec_emit|]. intros _ _.
  eapply spec_weaken,
    (spec_for_enumerate_at _ _
       (λ i state, prepared_for E config state.1 ∧ length state.2 = i)
       _ (get (cfg_prompts config) []) _ 0%nat);
    [|by intros k x Hk|done].
  intros i prompt [s' resadapter_images] Hi [Hs' Hlen]. simpl in Hs', Hlen.
  apply lookup_lt_Some in Hi.
  eapply spec_bind; [by apply (assemble_ok E config)|].
  intros s'' [Hs'' [kw Hkw]].
  eapply (spec_bind _ _ any).
  { eapply spec_weaken, spec_load_local. by rewrite Hkw. }
  intros kw' _.
  eapply spec_bind; [apply (pipeline_full E config); [done|done|apply Hnever]|].
  intros images (n & -> & Hn).
  eapply (spec_bind _ _ any).
  { apply (save_images_ok _ _ _ _ _ _ _ _ n); [done| |done|].
    - by apply list_lookup_middle.
    - intros Hc. destruct (Ho Hc) as (l & -> & Hlen' & Hl).
      destruct (lookup_lt_is_Some_2 l i) as [batch Hbatch]; [lia|].
      destruct (Hl _ _ Hbatch) as (n' & -> & Hn'). by exists l, n'. }
  intros _ _. apply spec_ret. split; [done|]. simpl.
  rewrite length_app. simpl. lia.
Qed.

Lemma inference_ok E config output_dir s :
  quiet E → has_attributes E config → enough_inputs config →
  full_batches E config → prepared_for E config s →
  spec any (λ _, False) any (inference E config output_dir s).
Proof.
  intros Hq Ha Hin Hfull Hs.
  assert (∀ ev h, fails E h ev = true → False) as Hnever
    by (intros ev h Hf; by rewrite Hq in Hf).
  unfold inference, inference_from.
  eapply (spec_bind _ _ any); [quiet_steps Hq|]. intros generator _.
  eapply (spec_bind _ _ any).
  { unfold enable_compare. case_bool_decide; [by apply spec_ret|].
    eapply (spec_bind _ _ any); [|intros; by apply spec_ret].
    eapply spec_weaken, spec_getattr. intros Hnone Hstrict.
    destruct Ha as [?|[_ ?]]; congruence. }
  intros compare _.
  eapply (spec_bind _ _
            (λ p, prepared_for E config p.1 ∧
               (compare = true →
                ∃ l, p.2 = Some l ∧
                     batches_full config Baselines
                       (length (get (cfg_prompts config) [])) l))).
  { destruct compare; [|by apply spec_ret].
    eapply spec_bind; [by apply baseline_loop_ok|].
    intros [s' oi] [Hs' Hoi]. apply spec_ret. split; [done|].
    intros _. by exists oi. }
  intros [s' original_images] [Hs' Ho]. simpl in Hs', Ho.
  eapply (spec_bind _ _ any).
  { case_bool_decide as Hm; [|by apply spec_ret].
    destruct (cfg_res_adapter_model config) as [dir|] eqn:Hdir; [|done].
    eapply (spec_bind _ _ any);
      [by eapply load_resadapter_spec|intros _ _].
    quiet_steps Hq. }
  intros _ _.
  eapply (spec_bind _ _ any).
  { eapply spec_weaken, spec_getattr. intros Hnone _.
    destruct Hin as [[?|?]|[? _]]; congruence. }
  intros task _.
  eapply (spec_bind _ _ any); [quiet_steps Hq|]. intros _ _.
  eapply (spec_bind _ _ any); [by apply resadapter_loop_ok|].
  intros; by apply spec_ret.
Qed.

(** X12.  A run of a text-to-image task, or of an ip_adapter sub-task with
    at most as many prompts as prepared inputs, returns normally when no
    external call raises, the attributes it reads are present and every
    pipeline call returns at least the configured number of images per
    prompt. *)
Theorem run_completes E config :
  quiet E → has_attributes E config → enough_inputs config →
  full_batches E config →
  (run E config).1 = Ok ().
Proof.
  intros Hq Ha Hin Hfull.
  assert (accepted config) as Hacc.
  { destruct Hin as [[Ht|Ht]|(Ht & Hsub & _)]; (split; [|try done]);
      rewrite Ht; try (apply (bool_decide_unpack _); vm_compute; exact I);
      discriminate. }
  assert (spec any (λ _, False) any (main E config)) as Hok.
  { unfold main.
    eapply (spec_bind _ _ any).
    { apply get_config_ok; [done|].
      destruct Ha as [?|[? _]]; [by left|by right]. }
    intros output_dir _.
    eapply (spec_bind _ _ any); [apply load_pipeline_ok; [done|apply Hacc]|].
    intros _ _.
    eapply (spec_bind _ _ (prepared_for E config)).
    { apply spec_result; [by apply prepare_ok|].
      intros h s h'. apply prepare_result. }
    intros s Hs. by apply inference_ok. }
  destruct (spec_run E _ _ _ config Hok) as [_ Hr].
  by destruct (run E config).1 as [[]|e].
Qed.

Lemma run_completes_witness :
  (run calm_env
     (task_config (Some "ip_adapter") (Some "image_to_image")
        ["a cat"; "a dog"] ["inputs/a.png"; "inputs/b.png"; "inputs/c.png"]
        [] ["inputs/r.png"; "inputs/s.png"] (Some "ra") (Some true))).1
  = Ok ().
Proof.
  apply run_completes.
  - by intros ? ?.
  - right. split; discriminate.
  - right. split_and!; [reflexivity| |vm_compute; lia].
    apply (bool_decide_unpack _). vm_compute. exact I.
  - intros h. vm_compute. lia.
Defined.

(** ** The baseline pass, when the comparison is enabled *)

Lemma baseline_calls_none t :
  Forall no_baseline_call t → baseline_calls t = [].
Proof.
  unfold baseline_calls. induction 1 as [|ev t Hev _ IH]; [done|].
  destruct ev as [| | | | | | | | | | | |site i args| | | | | | | |];
    simpl; try done.
  destruct site; [by destruct (Hev i args)|done].
Qed.

Lemma runs_specs {A} (P P' : event → Prop) (X : exn → Prop) (R R' : A → Prop)
    (m : M A) :
  spec P X R' m → spec P' (λ _, False) R m → runs (Forall P) R m.
Proof.
  intros HP Hok h. destruct (HP h) as (t & Ht & HPt & _).
  destruct (Hok h) as (t' & _ & _ & Hr).
  destruct (m h) as [[a|e] h'] eqn:Hrun; simpl in *; [|done].
  subst h'. by exists a, t.
Qed.

Lemma runs_quiet {A} (R : A → Prop) (m : M A) :
  spec no_baseline_call any any m → spec any (λ _, False) R m →
  runs (λ t, baseline_calls t = []) R m.
Proof.
  intros HP Hok h. destruct (runs_specs _ _ _ _ _ _ HP Hok h)
    as (a & t & Hrun & Ht & Ha).
  exists a, t. split_and!; [done| |done]. by apply baseline_calls_none.
Qed.

Lemma runs_bind {A B} (l1 l2 : list nat) (R1 : A → Prop) (R : B → Prop)
    (m : M A) (f : A → M B) :
  runs (λ t, baseline_calls t = l1) R1 m →
  (∀ a, R1 a → runs (λ t, baseline_calls t = l2) R (f a)) →
  runs (λ t, baseline_calls t = l1 ++ l2) R (m ≫= f).
Proof.
  intros Hm Hf h. destruct (Hm h) as (a & t1 & Hrun & Ht1 & Ha).
  destruct (Hf a Ha (h ++ t1)) as (b & t2 & Hrun' & Ht2 & Hb).
  exists b, (t1 ++ t2). unfold mbind, M_bind. rewrite Hrun, Hrun', app_assoc.
  split_and!; [done| |done]. unfold baseline_calls in *.
  by rewrite omap_app, Ht1, Ht2.
Qed.

Lemma runs_then {A B} (l1 : list nat) (R1 : A → Prop) (m : M A)
    (f : A → M B) :
  runs (λ t, baseline_calls t = l1) R1 m →
  (∀ a, R1 a → spec no_baseline_call any any (f a)) →
  appends (λ t, baseline_calls t = l1) (m ≫= f).
Proof.
  intros Hm Hf h. destruct (Hm h) as (a & t1 & Hrun & Ht1 & Ha).
  destruct (Hf a Ha (h ++ t1)) as (t2 & Ht2 & HP & _).
  exists (t1 ++ t2). unfold mbind, M_bind. rewrite Hrun, Ht2, app_assoc.
  split; [done|]. unfold baseline_calls in *.
  rewrite omap_app, Ht1. fold (baseline_calls t2).
  by rewrite (baseline_calls_none t2), app_nil_r.
Qed.

Lemma runs_for_enumerate {A St} (I : nat → St → Prop)
    (body : nat → A → St → M St) (l0 l : list A) (i : nat) (s : St) :
  (∀ k x s, l0 !! k = Some x → I k s →
            runs (λ t, baseline_calls t = [k]) (I (S k)) (body k x s)) →
  (∀ k x, l !! k = Some x → l0 !! (i + k)%nat = Some x) → I i s →
  runs (λ t, baseline_calls t = seq i (length l)) (I (i + length l)%nat)
    (for_enumerate body i l s).
Proof.
  intros Hb. revert i s. induction l as [|x l IH]; intros i s Hl Hs; simpl.
  - intros h. exists s, []. rewrite app_nil_r, Nat.add_0_r. by split_and!.
  - apply (runs_bind [i] (seq (S i) (length l)) (I (S i))).
    + apply Hb; [|done]. specialize (Hl 0%nat x eq_refl).
      by rewrite Nat.add_0_r in Hl.
    + intros s' Hs'.
      replace (i + S (length l))%nat with (S i + length l)%nat by lia.
      apply IH; [|done]. intros k y Hk.
      replace (S i + k)%nat with (i + S k)%nat by lia. by apply Hl.
Qed.

Lemma pipeline_runs E (R : list tensor → Prop) i args :
  quiet E → (∀ images, R images) →
  runs (λ t, baseline_calls t = [i]) R (pipeline E Baselines i args).
Proof.
  intros Hq HR h. eexists _, [EvPipeline Baselines i args].
  unfold pipeline. rewrite Hq. by split_and!.
Qed.

Lemma baseline_loop_runs E config n_prompt generator s :
  quiet E → enough_inputs config → prepared_for E config s →
  runs (λ t, baseline_calls t = seq 0 (length (get (cfg_prompts config) [])))
    any (baseline_loop E config n_prompt generator s).
Proof.
  intros Hq Hin Hs. unfold baseline_loop.
  apply (runs_bind [] _ any).
  { apply runs_quiet; by apply spec_emit. }
  intros _ _.
  intros h.
  destruct (runs_for_enumerate
              (λ _ state, prepared_for E config state.1)
              (λ i prompt '(s, original_images),
                 s ← assemble_kwargs_baseline (cfg_task config) i s;
                 kw ← load_local "kwargs" (kwargs s);
                 images ← pipeline E Baselines i
                   {| arg_prompt := prompt;
                      arg_height := get (cfg_height config) 512;
                      arg_width := get (cfg_width config) 512;
                      arg_negative_prompt := n_prompt;
                      arg_num_inference_steps :=
                        get (cfg_num_inference_steps config) 25;
                      arg_num_images_per_prompt :=
                        get (cfg_num_images_per_prompt config) 2;
                      arg_generator := generator;
                      arg_output_type := "pt";
                      arg_guidance_scale :=
                        get (cfg_guidance_scale config) float_7_5;
                      arg_kwargs := kw |};
                 mret (s, original_images ++ [images]))
              (get (cfg_prompts config) []) (get (cfg_prompts config) [])
              0%nat (s, []) ) with (h := h) as (a & t & Hrun & Ht & _);
    [|by intros k x Hk|done|by exists a, t].
  intros k prompt [s' original_images] Hk Hs'. simpl in Hs'.
  apply lookup_lt_Some in Hk.
  apply (runs_bind [] [k]
           (λ s'', prepared_for E config s'' ∧ is_Some (kwargs s''))).
  { apply runs_quiet; [eapply spec_weaken|]; by apply assemble_ok. }
  intros s'' [Hs'' [kw Hkw]].
  apply (runs_bind [] [k] any).
  { apply runs_quiet; eapply spec_weaken, spec_load_local; by rewrite Hkw. }
  intros kw' _.
  replace [k] with ([k] ++ @nil nat) by done.
  apply (runs_bind [k] [] any); [by apply pipeline_runs|].
  intros images _ h'. exists (s'', original_images ++ [images]), [].
  rewrite app_nil_r. by split_and!.
Qed.

Lemma main_baseline_calls E config :
  quiet E → has_attributes E config → enough_inputs config →
  compare_enabled config →
  appends
    (λ t, baseline_calls t = seq 0 (length (get (cfg_prompts config) [])))
    (main E config).
Proof.
  intros Hq Ha Hin [Hm Hf].
  assert (accepted config) as Hacc.
  { destruct Hin as [[Ht|Ht]|(Ht & Hsub & _)]; (split; [|try done]);
      rewrite Ht; try (apply (bool_decide_unpack _); vm_compute; exact I);
      discriminate. }
  assert (∀ ev h, fails E h ev = true → False) as Hnever
    by (intros ev h Hf'; by rewrite Hq in Hf').
  set (n := length (get (cfg_prompts config) [])).
  assert (∀ A B (m : M A) (f : A → M B) (R1 : A → Prop),
            runs (λ t, baseline_calls t = []) R1 m →
            (∀ a, R1 a → appends (λ t, baseline_calls t = seq 0 n) (f a)) →
            appends (λ t, baseline_calls t = seq 0 n) (m ≫= f)) as Hstep.
  { intros A B m f R1 Hr Hf' h. destruct (Hr h) as (a & t1 & Hrun & Ht1 & Ha').
    destruct (Hf' a Ha' (h ++ t1)) as (t2 & Ht2 & HT2).
    exists (t1 ++ t2). unfold mbind, M_bind. rewrite Hrun, Ht2, app_assoc.
    split; [done|]. unfold baseline_calls in *.
    by rewrite omap_app, Ht1. }
  unfold main.
  eapply (Hstep _ _ _ _ any).
  { apply runs_quiet; [emits_go ltac:(by intros ? ?)|].
    apply get_config_ok; [done|].
    destruct Ha as [?|[? _]]; [by left|by right]. }
  intros output_dir _.
  eapply (Hstep _ _ _ _ any).
  { apply runs_quiet; [emits_go ltac:(by intros ? ?)|].
    apply load_pipeline_ok; [done|apply Hacc]. }
  intros _ _.
  eapply (Hstep _ _ _ _ (prepared_for E config)).
  { apply runs_quiet; [emits_go ltac:(by intros ? ?)|].
    apply spec_result; [by apply prepare_ok|].
    intros h s h'. apply prepare_result. }
  intros s Hs. unfold inference.
  eapply (Hstep _ _ _ _ any).
  { apply runs_quiet; [emits_go ltac:(by intros ? ?)|].
    quiet_steps Hq. }
  intros generator _.
  eapply (Hstep _ _ _ _ (λ b, b = true)).
  { apply runs_quiet; [emits_go ltac:(by intros ? ?)|].
    unfold enable_compare. rewrite bool_decide_eq_false_2 by done. rewrite Hf.
    eapply (spec_bind _ _ (λ v, v = Some true)); [by apply spec_getattr|].
    intros ? ->. by apply spec_ret. }
  intros ? ->. unfold inference_from.
  apply (runs_then _ any).
  - replace (seq 0 n) with (seq 0 n ++ @nil nat) by apply app_nil_r.
    apply (runs_bind _ [] any); [by apply baseline_loop_runs|].
    intros [s' oi] _ h. exists (s', Some oi), []. rewrite app_nil_r.
    by split_and!.
  - intros [s' oi] _. emits_go ltac:(by intros ? ?).
Qed.

Lemma enable_compare_pure E config h :
  (enable_compare E config h).2 = h ∧
  ∀ b, (enable_compare E config h).1 = Ok b →
       (b = true ↔ compare_enabled config).
Proof.
  destruct (enable_compare_iff E (λ _, False) config h) as (t & Ht & HP & Hr).
  destruct t as [|ev t]; [|by apply Forall_cons in HP as [[] _]].
  rewrite app_nil_r in Ht. split; [done|].
  intros b Hb. by rewrite Hb in Hr.
Qed.

(** C5.  The events of the comparison (the baseline progress bar and
    pipeline calls, the stacking and labelling of pairs) occur only in runs
    whose adapter path is not empty and whose compare flag is set.  In such
    a run, when no external call raises and the attributes read are
    present, the baseline loop starts for every accepted task, and for a
    task whose inputs suffice it makes its pipeline call for every prompt,
    in order.  With an empty adapter path the run does not depend on the
    compare flag at all, so the flag is not consulted and no baseline call
    is made.  The decision is taken once, before the two loops: computing it
    appends no event and yields whether the comparison is enabled, and the
    loops, given that value, do not depend on the compare flag. *)
Theorem baseline_pass_decision E config :
  (∀ ev, ev ∈ (run E config).2 → compare_event ev → compare_enabled config) ∧
  (quiet E → has_attributes E config → accepted config →
   compare_enabled config →
   EvTqdm Baselines (length (get (cfg_prompts config) []))
   ∈ (run E config).2) ∧
  (quiet E → has_attributes E config → enough_inputs config →
   compare_enabled config →
   baseline_calls (run E config).2
   = seq 0 (length (get (cfg_prompts config) []))) ∧
  (get (cfg_res_adapter_model config) "" = "" →
   ∀ flag, run E (with_enable_compare flag config) = run E config) ∧
  (∀ h, (enable_compare E config h).2 = h ∧
        ∀ b, (enable_compare E config h).1 = Ok b →
             (b = true ↔ compare_enabled config)) ∧
  (∀ flag output_dir n_prompt generator b s,
     inference_from E (with_enable_compare flag config) output_dir n_prompt
       generator b s
     = inference_from E config output_dir n_prompt generator b s).
Proof.
  split_and!.
  - intros ev Hin Hev.
    destruct (compare_enabled_dec config) as [Hen|Hen]; [done|].
    destruct (spec_run E _ _ _ config (no_compare_spec E config Hen))
      as [HP _].
    rewrite Forall_forall in HP. by destruct (HP ev Hin).
  - intros Hq Ha Hacc Hen.
    destruct (reaches_baseline_loop E config Hq Ha Hacc Hen) as (h & t & ->).
    apply elem_of_app. right. apply list_elem_of_here.
  - intros Hq Ha Hin Hen.
    exact (appends_run E (λ t, baseline_calls t = seq 0 _) config
             (main_baseline_calls E config Hq Ha Hin Hen)).
  - intros Hm flag. by apply enable_compare_not_read.
  - apply enable_compare_pure.
  - reflexivity.
Qed.

Lemma baseline_pass_decision_witness :
  baseline_calls
    (run calm_env
       (task_config (Some "t2i") None ["a"; "b"] [] [] [] (Some "ra")
          (Some true))).2
  = [0; 1]%nat.
Proof.
  refine (proj1 (proj2 (proj2 (baseline_pass_decision calm_env
                          (task_config (Some "t2i") None ["a"; "b"] [] [] []
                             (Some "ra") (Some true))))) _ _ _ _).
  - intros h ev. reflexivity.
  - right. split; discriminate.
  - left. by left.
  - split; [discriminate|reflexivity].
Defined.
